(** * download-counts: the resumable build script [buildAndRelease.js]

    A shallow embedding of the build script of the download-counts package
    and the properties of its state machine, its batch splitter, its
    throttled fetcher and its worker pool.

    Conventions of the embedding:
    - a JavaScript array used as a queue is a [list] in source order:
      [push] appends at the end and [pop] removes the last element;
    - the object [counts] and the JSON files holding counts are finite maps
      [gmap string Z];
    - the clock ([new Date()]) is an integer number of milliseconds, and a
      timer set by [setTimeout] fires no earlier than asked;
    - the fetcher threads interleave at their [await]s only: what a thread
      does between two of them is one step;
    - [process.exit(c)] is recorded in the field [exitCode]; nothing runs
      once it is set.

    Outside the embedding: git, [npm install] and the version written to
    package.json; exceptions other than a counts file missing at the merge
    (a body that is not JSON, a failing collaborator). *)

From Stdlib Require Import ZArith List Ascii String Lia.
From stdpp Require Import gmap strings list fin_maps.

Local Open Scope string_scope.
Local Open Scope list_scope.
Local Open Scope Z_scope.

(** ** Strings *)

Module Str.

(** [s.split(sep)] for a one-character separator: the segments between the
    occurrences of [sep], the empty string giving one empty segment. *)
Fixpoint split (sep : ascii) (s : string) : list string :=
  match s with
  | EmptyString => [EmptyString]
  | String c rest =>
      if Ascii.eqb c sep then EmptyString :: split sep rest
      else match split sep rest with
           | [] => [String c EmptyString]
           | seg :: segs => String c seg :: segs
           end
  end.

(** [s.includes(c)] for a one-character needle. *)
Fixpoint includesChar (c : ascii) (s : string) : bool :=
  match s with
  | EmptyString => false
  | String d rest => Ascii.eqb d c || includesChar c rest
  end.

(** [array.includes(x)] on an array of strings. *)
Definition includes (x : string) (l : list string) : bool :=
  existsb (String.eqb x) l.

End Str.

(** ** Constants of the script *)

Definition BULK_QUERY_BATCH_SIZE : nat := 128.
Definition MAX_SIMULTANEOUS_REQUESTS : nat := 20.
Definition MIN_REQUEST_INTERVAL_MS : Z := 500.
Definition MAX_REQUEST_ERRORS : nat := 80.
Definition QUERIES_PER_RUN : Z := 100000.
Definition ONE_HOUR_MS : Z := 60 * 60 * 1000.

(** ** The persisted build state ([state.json]) *)

Record State := mkState {
  countsFilesSoFar : nat;
  singlePackages : list string;
  unscopedPackageBatches : list (list string);
  status403Packages : list string;
  published : bool   (* an absent field reads as [undefined], which is falsy *)
}.

Definition setSingles (l : list string) (s : State) : State :=
  mkState (countsFilesSoFar s) l (unscopedPackageBatches s)
          (status403Packages s) (published s).

Definition setBatches (l : list (list string)) (s : State) : State :=
  mkState (countsFilesSoFar s) (singlePackages s) l
          (status403Packages s) (published s).

Definition setStatus403 (l : list string) (s : State) : State :=
  mkState (countsFilesSoFar s) (singlePackages s) (unscopedPackageBatches s)
          l (published s).

Definition setPublished (b : bool) (s : State) : State :=
  mkState (countsFilesSoFar s) (singlePackages s) (unscopedPackageBatches s)
          (status403Packages s) b.

Definition setCountsFilesSoFar (n : nat) (s : State) : State :=
  mkState n (singlePackages s) (unscopedPackageBatches s)
          (status403Packages s) (published s).

(** ** Scenario 1: the initial partition of the package names *)

Module Init.

(** The filter on names with a [.] or [..] path segment. *)
Definition addressable (name : string) : bool :=
  negb (Str.includes "." (Str.split "/" name))
  && negb (Str.includes ".." (Str.split "/" name)).

Definition scoped (name : string) : bool := Str.includesChar "/" name.

(** The loop that groups the unscoped names: [acc] is
    [unscopedPackageBatches], [batch] the batch being filled. *)
Fixpoint chunkLoop (size : nat) (pkgs : list string)
         (acc : list (list string)) (batch : list string)
  : list (list string) * list string :=
  match pkgs with
  | [] => (acc, batch)
  | pkg :: rest =>
      let batch := batch ++ [pkg] in
      if Nat.eqb (length batch) size
      then chunkLoop size rest (acc ++ [batch]) []
      else chunkLoop size rest acc batch
  end.

Definition chunk (size : nat) (pkgs : list string) : list (list string) :=
  let '(acc, batch) := chunkLoop size pkgs [] [] in
  if Nat.eqb (length batch) 0 then acc else acc ++ [batch].

Definition initialState (names : list string) : State :=
  let packageNames := filter (fun n => addressable n = true) names in
  {| countsFilesSoFar := 0;
     singlePackages := filter (fun n => scoped n = true) packageNames;
     unscopedPackageBatches :=
       chunk BULK_QUERY_BATCH_SIZE
             (filter (fun n => scoped n = false) packageNames);
     status403Packages := [];
     published := false |}.

End Init.

(** ** Responses of the download-count API *)

(** The value of a header as [Number(...)] reads it: a decimal integer, or
    text that [Number] maps to [NaN] (an HTTP date for instance). *)
Inductive HeaderValue :=
| HInt (z : Z)
| HText.

Inductive JSNumber :=
| NaN
| Num (z : Z).

(** [Number(resp.headers.get('Retry-After'))]: a missing header is [null],
    and [Number(null)] is [0]. *)
Definition Number_ (h : option HeaderValue) : JSNumber :=
  match h with
  | None => Num 0
  | Some (HInt z) => Num z
  | Some HText => NaN
  end.

(** Truthiness of a number: [NaN] and [0] are falsy. *)
Definition truthy (n : JSNumber) : bool :=
  match n with
  | NaN => false
  | Num z => negb (z =? 0)
  end.

(** The data of one package in a response body; [None] is [null] or an
    absent field. *)
Record PkgData := mkPkgData { downloads : option Z }.

(** A parsed JSON body: the object of a bulk query, whose keys are package
    names ([null] for a package without data), or the object of a
    single-package query. *)
Inductive Body :=
| BulkBody (entries : list (string * option PkgData))
| PointBody (data : PkgData).

Record Response := mkResponse {
  status : Z;
  retryAfterHeader : option HeaderValue;
  body : Body
}.

(** What [await fetch(...)] gives: a thrown error or a response. *)
Inductive FetchResult :=
| NetworkError
| Answer (resp : Response).

(** ** The memory of the fetch phase, shared by all fetcher threads *)

Record Mem := mkMem {
  state : State;
  counts : gmap string Z;
  queriesRemaining : Z;
  retryAfterTimestampMs : Z;
  gotRateLimited : bool;
  nRequestErrors : nat;
  exitCode : option nat
}.

Definition setState (s : State) (m : Mem) : Mem :=
  mkMem s (counts m) (queriesRemaining m) (retryAfterTimestampMs m)
        (gotRateLimited m) (nRequestErrors m) (exitCode m).

Definition setCounts (c : gmap string Z) (m : Mem) : Mem :=
  mkMem (state m) c (queriesRemaining m) (retryAfterTimestampMs m)
        (gotRateLimited m) (nRequestErrors m) (exitCode m).

Definition setQueriesRemaining (q : Z) (m : Mem) : Mem :=
  mkMem (state m) (counts m) q (retryAfterTimestampMs m)
        (gotRateLimited m) (nRequestErrors m) (exitCode m).

Definition initialMem (s : State) : Mem :=
  mkMem s ∅ QUERIES_PER_RUN 0 false 0 None.

(** [recordUnexpectedError()] *)
Definition recordUnexpectedError (m : Mem) : Mem :=
  let n := S (nRequestErrors m) in
  mkMem (state m) (counts m) (queriesRemaining m) (retryAfterTimestampMs m)
        (gotRateLimited m) n
        (if (MAX_REQUEST_ERRORS <=? n)%nat then Some 1%nat else exitCode m).

(** The handling of a 429 inside [throttledFetch], at clock reading [now]. *)
Definition retryDelayMs (h : option HeaderValue) : Z :=
  match Number_ h with
  | Num z => if truthy (Num z) then z * 1000 else ONE_HOUR_MS
  | NaN => ONE_HOUR_MS
  end.

Definition onRateLimited (now : Z) (h : option HeaderValue) (m : Mem) : Mem :=
  mkMem (state m) (counts m) (queriesRemaining m)
        (Z.max (retryAfterTimestampMs m) (retryDelayMs h + now))
        true (nRequestErrors m) (exitCode m).

(** ** The two request handlers, after [throttledFetch] has returned *)

(** The 400/403 branch of [fetchCountsForUnscopedBatch]. *)
Definition splitOrDemote (batch : list string) (s : State) : State :=
  if (length batch <=? 3)%nat
  then setSingles (singlePackages s ++ batch) s
  else
    let splitPoint := (length batch / 2)%nat in
    setBatches (unscopedPackageBatches s
                  ++ [take splitPoint batch] ++ [drop splitPoint batch]) s.

(** The loop over [Object.entries(respJson)]. The entries of the object of a
    single-package answer are scalars, whose [downloads] is undefined. *)
Definition recordEntry (c : gmap string Z) (e : string * option PkgData)
  : gmap string Z :=
  match e with
  | (pkgName, Some {| downloads := Some n |}) => <[pkgName := n]> c
  | _ => c
  end.

Definition recordBulk (b : Body) (c : gmap string Z) : gmap string Z :=
  match b with
  | BulkBody entries => fold_left recordEntry entries c
  | PointBody _ => c
  end.

Definition fetchCountsForUnscopedBatch (batch : list string) (r : FetchResult)
           (m : Mem) : Mem :=
  match r with
  | NetworkError =>
      recordUnexpectedError
        (setState (setBatches (unscopedPackageBatches (state m) ++ [batch])
                              (state m)) m)
  | Answer resp =>
      if (status resp =? 400) || (status resp =? 403)
      then setState (splitOrDemote batch (state m)) m
      else if negb (status resp =? 200)
      then recordUnexpectedError
             (setState (setBatches (unscopedPackageBatches (state m) ++ [batch])
                                   (state m)) m)
      else setCounts (recordBulk (body resp) (counts m)) m
  end.

(** [(await resp.json()).downloads] of a single-package answer. *)
Definition pointDownloads (b : Body) : option Z :=
  match b with
  | PointBody d => downloads d
  | BulkBody _ => None
  end.

Definition fetchCountForSinglePackage (packageName : string) (r : FetchResult)
           (m : Mem) : Mem :=
  match r with
  | NetworkError =>
      recordUnexpectedError
        (setState (setSingles (singlePackages (state m) ++ [packageName])
                              (state m)) m)
  | Answer resp =>
      if status resp =? 403
      then setState (setStatus403 (status403Packages (state m) ++ [packageName])
                                  (state m)) m
      else if status resp =? 404
      then m
      else if negb (status resp =? 200)
      then recordUnexpectedError
             (setState (setSingles (singlePackages (state m) ++ [packageName])
                                   (state m)) m)
      else match pointDownloads (body resp) with
           | Some n => setCounts (<[packageName := n]> (counts m)) m
           | None => m
           end
  end.

(** ** The fetcher threads *)

(** A unit of work popped from one of the two queues. *)
Inductive Work :=
| BatchWork (batch : list string)
| SingleWork (packageName : string).

Definition handle (w : Work) (r : FetchResult) (m : Mem) : Mem :=
  match w with
  | BatchWork batch => fetchCountsForUnscopedBatch batch r m
  | SingleWork packageName => fetchCountForSinglePackage packageName r m
  end.

(** [array.pop()]: the last element and the array without it. *)
Definition pop {A} (l : list A) : option (list A * A) :=
  match last l with
  | Some x => Some (removelast l, x)
  | None => None
  end.

(** The head of the loop of [startFetcherThread]: the loop condition and, if
    it holds, the [pop()] of the next unit of work. *)
Definition nextWork (m : Mem) : Mem * option Work :=
  let s := state m in
  if (queriesRemaining m >=? 0)
     && ((0 <? length (unscopedPackageBatches s))%nat
         || (0 <? length (singlePackages s))%nat)
  then
    match pop (unscopedPackageBatches s) with
    | Some (rest, batch) => (setState (setBatches rest s) m, Some (BatchWork batch))
    | None =>
        match pop (singlePackages s) with
        | Some (rest, name) => (setState (setSingles rest s) m, Some (SingleWork name))
        | None => (m, None)
        end
    end
  else (m, None).

(** Where a fetcher thread is suspended. *)
Inductive PC :=
| Finished
| AwaitThrottle (w : Work)            (* at [await throttlingWait] *)
| Sleeping (w : Work) (wake : Z)      (* in the loop on the retry deadline *)
| InFlight (w : Work).                (* at [await fetch(...)] *)

(** A thread and the closure of its throttled fetcher: [throttlingWait] is
    [None] for [null], and otherwise the time at which the timer behind the
    promise fires. *)
Record Thread := mkThread {
  pc : PC;
  throttlingWait : option Z
}.

Record Pool := mkPool {
  mem : Mem;
  clock : Z;
  threads : list Thread
}.

(** The calls of [fetch] are the observable effect of the throttled fetcher:
    which thread, at what time, for which unit of work. *)
Inductive Call :=
| Fetch (thread : nat) (time : Z) (w : Work).

Definition pcOfNext (next : option Work) : PC :=
  match next with
  | Some w => AwaitThrottle w
  | None => Finished
  end.

(** [startFetcherThread()] up to its first suspension. *)
Definition startFetcherThread (m : Mem) : Mem * Thread :=
  let '(m', next) := nextWork m in
  (m', mkThread (pcOfNext next) None).

(** The loop that starts the threads, one after the other. *)
Fixpoint startThreads (n : nat) (m : Mem) : Mem * list Thread :=
  match n with
  | O => (m, [])
  | S n' =>
      let '(m1, t) := startFetcherThread m in
      let '(m2, ts) := startThreads n' m1 in
      (m2, t :: ts)
  end.

Definition startPool (now : Z) (s : State) : Pool :=
  let '(m, ts) := startThreads MAX_SIMULTANEOUS_REQUESTS (initialMem s) in
  mkPool m now ts.

(** What happens in the pool: time passes, a suspended thread is resumed by
    the event loop, or the answer to a request in flight arrives. *)
Inductive Event :=
| Tick (dt : Z)
| Resume (i : nat)
| Respond (i : nat) (r : FetchResult).

(** The part of [throttledFetch] between the first [await] and the call of
    [fetch]: wait for the retry deadline, or arm the timer of the next
    request and send this one. *)
Definition gate (i : nat) (now : Z) (w : Work) (t : Thread) (m : Mem)
  : Thread * list Call :=
  if retryAfterTimestampMs m - now >? 0
  then (mkThread (Sleeping w (retryAfterTimestampMs m)) (throttlingWait t), [])
  else (mkThread (InFlight w) (Some (now + MIN_REQUEST_INTERVAL_MS)),
        [Fetch i now w]).

Definition timerDue (now : Z) (timer : option Z) : bool :=
  match timer with
  | None => true
  | Some at_ => at_ <=? now
  end.

Definition resume (i : nat) (p : Pool) : Pool * list Call :=
  match threads p !! i with
  | Some t =>
      let go w :=
        let '(t', calls) := gate i (clock p) w t (mem p) in
        (mkPool (mem p) (clock p) (<[i := t']> (threads p)), calls) in
      match pc t with
      | AwaitThrottle w =>
          if timerDue (clock p) (throttlingWait t) then go w else (p, [])
      | Sleeping w wake =>
          if wake <=? clock p then go w else (p, [])
      | _ => (p, [])
      end
  | None => (p, [])
  end.

Definition isRateLimited (r : FetchResult) : option Response :=
  match r with
  | Answer resp => if status resp =? 429 then Some resp else None
  | NetworkError => None
  end.

Definition respond (i : nat) (r : FetchResult) (p : Pool) : Pool :=
  match threads p !! i with
  | Some t =>
      match pc t with
      | InFlight w =>
          match isRateLimited r with
          | Some resp =>
              (* 429: extend the deadline and call [throttledFetch] again *)
              mkPool (onRateLimited (clock p) (retryAfterHeader resp) (mem p))
                     (clock p)
                     (<[i := mkThread (AwaitThrottle w) (throttlingWait t)]>
                        (threads p))
          | None =>
              let m1 := handle w r (mem p) in
              match exitCode m1 with
              | Some _ => mkPool m1 (clock p) (threads p)
              | None =>
                  let m2 := setQueriesRemaining (queriesRemaining m1 - 1) m1 in
                  let '(m3, next) := nextWork m2 in
                  mkPool m3 (clock p)
                         (<[i := mkThread (pcOfNext next) (throttlingWait t)]>
                            (threads p))
              end
          end
      | _ => p
      end
  | None => p
  end.

Definition step (e : Event) (p : Pool) : Pool * list Call :=
  match exitCode (mem p) with
  | Some _ => (p, [])
  | None =>
      match e with
      | Tick dt =>
          (if 0 <=? dt then mkPool (mem p) (clock p + dt) (threads p) else p, [])
      | Resume i => resume i p
      | Respond i r => (respond i r p, [])
      end
  end.

Fixpoint run (es : list Event) (p : Pool) : Pool * list Call :=
  match es with
  | [] => (p, [])
  | e :: es' =>
      let '(p1, c1) := step e p in
      let '(p2, c2) := run es' p1 in
      (p2, c1 ++ c2)
  end.

Definition allFinished (p : Pool) : bool :=
  forallb (fun t => match pc t with Finished => true | _ => false end)
          (threads p).

(** ** The files of the build branch and one invocation of the script *)

Record World := mkWorld {
  stateFile : option State;                 (* state.json *)
  mainFile : option (gmap string Z);        (* the file named by pkg.main *)
  countsFiles : gmap nat (gmap string Z);   (* counts<i>.json *)
  npmPublished : list (gmap string Z)       (* what [npm publish] was run on *)
}.

Inductive Phase :=
| InitPhase        (* scenario 1 *)
| NoopPhase        (* scenario 5 *)
| PublishPhase     (* scenario 4 *)
| MergePhase       (* scenario 3 *)
| FetchPhase.      (* scenario 2 *)

Inductive Outcome :=
| Exit (code : nat)     (* [process.exit] or the end of the script *)
| Uncaught              (* an exception nobody catches *)
| Running.              (* the events given do not finish the run *)

Record Result := mkResult {
  world : World;
  outcome : Outcome;
  phases : list Phase
}.

(** What an invocation reads from outside the branch. *)
Record Input := mkInput {
  names : list string;       (* names.json of all-the-package-names *)
  startTime : Z;
  events : list Event
}.

(** The script is a sequence of blocks, each of which either ends the
    process or falls through to the next one. *)
Inductive Step (A : Type) :=
| Ended (r : Result)
| Continue (a : A) (w : World) (log : list Phase).

Arguments Ended {A} r.
Arguments Continue {A} a w log.

Definition Script (A : Type) := World -> list Phase -> Step A.

Definition ret {A} (a : A) : Script A := fun w log => Continue a w log.

Definition bind {A B} (m : Script A) (k : A -> Script B) : Script B :=
  fun w log =>
    match m w log with
    | Ended r => Ended r
    | Continue a w' log' => k a w' log'
    end.

Notation "x <- m ;; k" := (bind m (fun x => k))
  (at level 100, m at level 99, k at level 100, right associativity).
Notation "m ;;; k" := (bind m (fun _ => k))
  (at level 100, k at level 100, right associativity).

Definition enter (ph : Phase) : Script unit :=
  fun w log => Continue tt w (log ++ [ph]).

Definition getWorld : Script World := fun w log => Continue w w log.

Definition putWorld (w' : World) : Script unit := fun _ log => Continue tt w' log.

(** [process.exit(code)], and the ways a run stops without it. *)
Definition stop {A} (o : Outcome) : Script A :=
  fun w log => Ended (mkResult w o log).

Definition exit {A} (code : nat) : Script A := stop (Exit code).

Definition when (b : bool) (body : Script unit) : Script unit :=
  if b then body else ret tt.

(** Scenario 3: [Object.assign(counts, shard)] for the files after
    [counts0.json]; [None] when a file is missing. *)
Fixpoint mergeLoop (files : gmap nat (gmap string Z)) (indices : list nat)
         (acc : gmap string Z) : option (gmap string Z) :=
  match indices with
  | [] => Some acc
  | i :: rest =>
      match files !! i with
      | Some shard => mergeLoop files rest (shard ∪ acc)
      | None => None
      end
  end.

Definition mergeCounts (files : gmap nat (gmap string Z)) (n : nat)
  : option (gmap string Z) :=
  match files !! 0%nat with
  | Some counts0 => mergeLoop files (seq 1 (n - 1)) counts0
  | None => None
  end.

Definition writeState (st : State) : Script unit :=
  w <- getWorld ;;
  putWorld (mkWorld (Some st) (mainFile w) (countsFiles w) (npmPublished w)).

Definition writeMain (c : gmap string Z) : Script unit :=
  w <- getWorld ;;
  putWorld (mkWorld (stateFile w) (Some c) (countsFiles w) (npmPublished w)).

Definition writeCounts (i : nat) (c : gmap string Z) : Script unit :=
  w <- getWorld ;;
  putWorld (mkWorld (stateFile w) (mainFile w) (<[i := c]> (countsFiles w))
                    (npmPublished w)).

Definition npmPublish (artifact : gmap string Z) : Script unit :=
  w <- getWorld ;;
  putWorld (mkWorld (stateFile w) (mainFile w) (countsFiles w)
                    (npmPublished w ++ [artifact])).

(** [JSON.parse(fs.readFileSync(STATE_PATH))] *)
Definition readState : Script State :=
  w <- getWorld ;;
  match stateFile w with
  | Some st => ret st
  | None => stop Uncaught
  end.

(** [fs.existsSync(path)] *)
Definition existsSync {A} (file : option A) : bool :=
  match file with
  | Some _ => true
  | None => false
  end.

Definition scenario1 (inp : Input) : Script unit :=
  w <- getWorld ;;
  when (negb (existsSync (stateFile w)))
       (enter InitPhase ;;;
        writeState (Init.initialState (names inp)) ;;;
        exit 0).

Definition scenario5 (st : State) : Script unit :=
  when (published st)
       (enter NoopPhase ;;;
        exit 0).

Definition scenario4 (st : State) : Script unit :=
  w <- getWorld ;;
  match mainFile w with
  | Some artifact =>
      enter PublishPhase ;;;
      npmPublish artifact ;;;
      writeState (setPublished true st) ;;;
      exit 0
  | None => ret tt
  end.

Definition scenario3 (st : State) : Script unit :=
  when (Nat.eqb (length (singlePackages st)) 0
        && Nat.eqb (length (unscopedPackageBatches st)) 0)
       (enter MergePhase ;;;
        w <- getWorld ;;
        match mergeCounts (countsFiles w) (countsFilesSoFar st) with
        | Some merged => writeMain merged ;;; exit 0
        | None => stop Uncaught
        end).

(** Scenario 2: the pool runs; the counts file and the state are written
    only after [Promise.all(threads)] has resolved. *)
Definition scenario2 (inp : Input) (st : State) : Script unit :=
  enter FetchPhase ;;;
  let p := fst (run (events inp) (startPool (startTime inp) st)) in
  match exitCode (mem p) with
  | Some c => exit c
  | None =>
      if allFinished p
      then
        let st' := state (mem p) in
        writeCounts (countsFilesSoFar st') (counts (mem p)) ;;;
        writeState (setCountsFilesSoFar (S (countsFilesSoFar st')) st') ;;;
        when (gotRateLimited (mem p)) (exit 1)
      else stop Running
  end.

Definition script (inp : Input) : Script unit :=
  scenario1 inp ;;;
  st <- readState ;;
  scenario5 st ;;;
  scenario4 st ;;;
  scenario3 st ;;;
  scenario2 inp st.

(** Running the script: reaching its end is a normal exit. *)
Definition buildAndRelease (inp : Input) (w : World) : Result :=
  match script inp w [] with
  | Ended r => r
  | Continue _ w' log => mkResult w' (Exit 0) log
  end.

(** ** The wording of the specification *)

(** The phase an invocation is to run, in the order of priority of the
    specification. *)
Definition dispatch (w : World) : Phase :=
  match stateFile w with
  | None => InitPhase
  | Some st =>
      if published st then NoopPhase
      else if existsSync (mainFile w) then PublishPhase
      else match unscopedPackageBatches st, singlePackages st with
           | [], [] => MergePhase
           | _, _ => FetchPhase
           end
  end.

(** The value of [key] in the highest-indexed shard among [counts0.json] ..
    [counts(n-1).json] that has the key. *)
Fixpoint lastShardValue (files : gmap nat (gmap string Z)) (n : nat)
         (key : string) : option Z :=
  match n with
  | O => None
  | S n' =>
      match files !! n' with
      | Some shard =>
          match shard !! key with
          | Some v => Some v
          | None => lastShardValue files n' key
          end
      | None => lastShardValue files n' key
      end
  end.

(** The same, over a list of indices taken in order, starting from [d]. *)
Definition lookupLast (files : gmap nat (gmap string Z)) (indices : list nat)
           (key : string) (d : option Z) : option Z :=
  fold_left (fun d i =>
               match files !! i with
               | Some shard =>
                   match shard !! key with
                   | Some v => Some v
                   | None => d
                   end
               | None => d
               end) indices d.




(** ** A server that rejects every bulk request *)

(** One round: every batch on the queue is popped and answered 400 or 403. *)
Definition rejectRound (s : State) : State :=
  fold_left (fun s' batch => splitOrDemote batch s')
            (unscopedPackageBatches s) (setBatches [] s).

Definition rejectRounds (k : nat) (s : State) : State :=
  Nat.iter k rejectRound s.

(** One thread alone: pop a batch, have it rejected, and again, at most
    [fuel] times. *)
Fixpoint drain (fuel : nat) (s : State) : State :=
  match fuel with
  | O => s
  | S fuel' =>
      match pop (unscopedPackageBatches s) with
      | Some (rest, batch) => drain fuel' (splitOrDemote batch (setBatches rest s))
      | None => s
      end
  end.

Definition onlyBatch (batch : list string) : State :=
  mkState 0 [] [batch] [] false.

(** What one rejection of [batch] leaves on the batch queue and on the
    singles queue. *)
Definition halvesOf (batch : list string) : list (list string) :=
  if (length batch <=? 3)%nat then []
  else [take (length batch / 2)%nat batch; drop (length batch / 2)%nat batch].

Definition demotedOf (batch : list string) : list string :=
  if (length batch <=? 3)%nat then batch else [].

(** Halving, rounded up. *)
Definition halfUp (n : nat) : nat := ((n + 1) / 2)%nat.

(** A bound on the rejections a queue of batches can still take. *)
Definition rejectionsLeft (q : list (list string)) : nat :=
  list_sum (map (fun b : list string => Nat.max 1 (2 * length b - 1)) q).

(** ** Reading the trace of [fetch] calls *)

(** The times at which thread [i] called [fetch], in order. *)
Fixpoint startsOf (i : nat) (calls : list Call) : list Z :=
  match calls with
  | [] => []
  | Fetch j time _ :: rest =>
      if Nat.eqb i j then time :: startsOf i rest else startsOf i rest
  end.

(** Consecutive times are at least [gap] apart. *)
Fixpoint spaced (gap : Z) (times : list Z) : Prop :=
  match times with
  | t1 :: rest =>
      match rest with
      | t2 :: _ => t1 + gap <= t2
      | [] => True
      end /\ spaced gap rest
  | [] => True
  end.

(** What holds of thread [i] after the calls [pre] have been made: its
    requests were spaced, its timer was armed at its last request, and it
    sleeps on the retry deadline only once that timer has fired. *)
Definition threadSpaced (i : nat) (p : Pool) (pre : list Call) : Prop :=
  spaced MIN_REQUEST_INTERVAL_MS (startsOf i pre)
  /\ match threads p !! i with
     | Some t =>
         (forall tl : Z, last (startsOf i pre) = Some tl ->
                         throttlingWait t = Some (tl + MIN_REQUEST_INTERVAL_MS))
         /\ (forall (w : Work) (wake : Z), pc t = Sleeping w wake ->
                                           timerDue (clock p) (throttlingWait t) = true)
     | None => startsOf i pre = []
     end.

(** ** Where the package names are *)

Definition idsOf (w : Work) : list string :=
  match w with
  | BatchWork batch => batch
  | SingleWork packageName => [packageName]
  end.

Definition idsOfNext (next : option Work) : list string :=
  match next with
  | Some w => idsOf w
  | None => []
  end.

(** The names a thread holds: those of the unit of work it has popped and
    not yet handled. *)
Definition heldBy (t : Thread) : list string :=
  match pc t with
  | Finished => []
  | AwaitThrottle w => idsOf w
  | Sleeping w _ => idsOf w
  | InFlight w => idsOf w
  end.

Definition held (p : Pool) : list string := flat_map heldBy (threads p).

Definition pendingIds (s : State) : list string :=
  concat (unscopedPackageBatches s) ++ singlePackages s.

(** Queued, blocked or held by a thread. *)
Definition tracked (p : Pool) : list string :=
  pendingIds (state (mem p)) ++ status403Packages (state (mem p)) ++ held p.

(** The answer that event [e] delivers to a waiting request in pool [p]. *)
Definition delivered (e : Event) (p : Pool) : option (Work * FetchResult) :=
  match exitCode (mem p), e with
  | None, Respond j r =>
      match threads p !! j with
      | Some t =>
          match pc t with
          | InFlight w => Some (w, r)
          | _ => None
          end
      | None => None
      end
  | _, _ => None
  end.

(** An answer settles a unit of work when the script neither queues it again
    nor blocks it: status 200, or 404 for a single package. *)
Definition settles (w : Work) (r : FetchResult) : bool :=
  match r with
  | NetworkError => false
  | Answer resp =>
      match w with
      | BatchWork _ => status resp =? 200
      | SingleWork _ => (status resp =? 200) || (status resp =? 404)
      end
  end.

Definition settled (e : Event) (p : Pool) : list string :=
  match delivered e p with
  | Some (w, r) => if settles w r then idsOf w else []
  | None => []
  end.

Fixpoint settledAlong (es : list Event) (p : Pool) : list string :=
  match es with
  | [] => []
  | e :: es' => settled e p ++ settledAlong es' (fst (step e p))
  end.


(** Occurrences of a name in a list. *)
Definition occ (x : string) (l : list string) : nat := count_occ string_dec l x.

(** ** Errors and exit *)

(** The unexpected errors: a request that fails, or a status the handler
    has no case for. A 429 never reaches a handler. *)
Definition unexpected (w : Work) (r : FetchResult) : bool :=
  match r with
  | NetworkError => true
  | Answer resp =>
      match w with
      | BatchWork _ =>
          negb ((status resp =? 200) || (status resp =? 400) || (status resp =? 403))
      | SingleWork _ =>
          negb ((status resp =? 200) || (status resp =? 403) || (status resp =? 404))
      end
  end.

(** How many unexpected errors, and how many 429 answers, an event and a
    list of events deliver. *)
Definition errorDelivered (e : Event) (p : Pool) : nat :=
  match delivered e p with
  | Some (w, r) =>
      match isRateLimited r with
      | Some _ => 0
      | None => if unexpected w r then 1 else 0
      end
  | None => 0
  end.

Definition rateLimitDelivered (e : Event) (p : Pool) : nat :=
  match delivered e p with
  | Some (w, r) =>
      match isRateLimited r with
      | Some _ => 1
      | None => 0
      end
  | None => 0
  end.

Fixpoint errorsSeen (es : list Event) (p : Pool) : nat :=
  match es with
  | [] => 0
  | e :: es' => (errorDelivered e p + errorsSeen es' (fst (step e p)))%nat
  end.

Fixpoint rateLimitsSeen (es : list Event) (p : Pool) : nat :=
  match es with
  | [] => 0
  | e :: es' => (rateLimitDelivered e p + rateLimitsSeen es' (fst (step e p)))%nat
  end.

(** The counter of unexpected errors and the exit code go together. *)
Definition ceilingKept (m : Mem) : Prop :=
  match exitCode m with
  | None => (nRequestErrors m < MAX_REQUEST_ERRORS)%nat
  | Some c => c = 1%nat /\ nRequestErrors m = MAX_REQUEST_ERRORS
  end.

(** ** A release cycle *)

(** The names settled by one invocation: those of its fetch phase when it
    ran to the end, none otherwise. *)
Definition settledBy (inp : Input) (w : World) : list string :=
  match stateFile w, dispatch w with
  | Some st, FetchPhase =>
      let p0 := startPool (startTime inp) st in
      let p := fst (run (events inp) p0) in
      match exitCode (mem p) with
      | None => if allFinished p then settledAlong (events inp) p0 else []
      | Some _ => []
      end
  | _, _ => []
  end.

(** A release cycle: invocations one after the other on the same branch. *)
Fixpoint cycle (inps : list Input) (w : World) : World :=
  match inps with
  | [] => w
  | inp :: rest => cycle rest (world (buildAndRelease inp w))
  end.


Definition withEvents (inp : Input) (es : list Event) : Input :=
  mkInput (names inp) (startTime inp) es.

(** The counts files of a branch are [counts0.json] .. [counts(n-1).json] for
    [n = countsFilesSoFar], and there is none before the state file exists. *)
Definition shardsConsistent (w : World) : Prop :=
  match stateFile w with
  | Some st =>
      forall i : nat, is_Some (countsFiles w !! i) <-> (i < countsFilesSoFar st)%nat
  | None => countsFiles w = ∅
  end.

(** ** Sample data for the worked instances *)

(** Answers of the API. *)
Definition blocked403 : Response := mkResponse 403 None (BulkBody []).

Definition rateLimited (h : option HeaderValue) : Response :=
  mkResponse 429 h (BulkBody []).

Definition served (n : Z) : Response :=
  mkResponse 200 None (PointBody (mkPkgData (Some n))).


Definition bulkOf (l : list (string * Z)) : Response :=
  mkResponse 200 None
             (BulkBody (map (fun e => (fst e, Some (mkPkgData (Some (snd e))))) l)).

(** A thread waiting for the answer to its request for one batch. *)
Definition inFlightPool (now : Z) (batch : list string) : Pool :=
  mkPool (initialMem (mkState 0 [] [] [] false)) now
         [mkThread (InFlight (BatchWork batch)) (Some (now + MIN_REQUEST_INTERVAL_MS))].

Definition twoBatches : State :=
  mkState 0 [] [["a"; "b"]; ["c"; "d"]] [] false.

(** Branches: without any file, with one scoped package left to query, and
    with two counts files ready to be merged. *)
Definition emptyBranch : World := mkWorld None None ∅ [].

Definition oneSingleLeft (name : string) : World :=
  mkWorld (Some (mkState 0 [name] [] [] false)) None ∅ [].

Definition twoShards : gmap nat (gmap string Z) :=
  <[1%nat := {["b" := 3]}]> {[0%nat := <["b" := 2]> {["a" := 1]}]}.

Definition readyToMerge : World :=
  mkWorld (Some (mkState 2 [] [] [] false)) None twoShards [].

(** Invocations: the first two of a cycle over three names and an excluded
    one; a query answered 429 once and then served; a query answered 404;
    a run in which every request fails. *)
Definition firstInvocation : Input :=
  mkInput ["x"; "y"; "@scope/z"; "@a/.."] 0 [].

Definition secondInvocation : Input :=
  mkInput [] 0 [Resume 0%nat; Resume 1%nat;
                Respond 0%nat (Answer (bulkOf [("x", 10); ("y", 0)]));
                Respond 1%nat (Answer (served 5))].



Definition eightyFailures : Input :=
  mkInput [] 0 (concat (replicate 80 [Tick 500; Resume 0%nat;
                                      Respond 0%nat NetworkError])).

(** ** More of the script: the request URLs *)

Definition TIME_RANGE : string := "last-month".

(** [array.join(sep)] on an array of strings. *)
Fixpoint join (sep : string) (l : list string) : string :=
  match l with
  | [] => ""
  | x :: rest =>
      match rest with
      | [] => x
      | _ :: _ => x ++ sep ++ join sep rest
      end
  end.

(** The URL that a handler passes to [throttledFetch]. *)
Definition urlOf (w : Work) : string :=
  match w with
  | BatchWork batch =>
      "https://api.npmjs.org/downloads/point/" ++ TIME_RANGE ++ "/" ++ join "," batch
  | SingleWork packageName =>
      "https://api.npmjs.org/downloads/point/" ++ TIME_RANGE ++ "/" ++ packageName
  end.

(** ** Notions for the further properties *)

(** A URL none of whose path segments is [.] or [..]. *)
Definition noDotSegment (url : string) : Prop :=
  Str.includes "." (Str.split "/" url) = false
  /\ Str.includes ".." (Str.split "/" url) = false.

(** A batch that a bulk query can carry: at least one name, at most
    [BULK_QUERY_BATCH_SIZE], none of them scoped. *)
Definition bulkBatch (batch : list string) : Prop :=
  (1 <= length batch <= BULK_QUERY_BATCH_SIZE)%nat
  /\ Forall (fun name => Init.scoped name = false) batch.

(** The unit of work a thread holds, if any. *)
Definition workOf (t : Thread) : option Work :=
  match pc t with
  | Finished => None
  | AwaitThrottle w => Some w
  | Sleeping w _ => Some w
  | InFlight w => Some w
  end.

Definition bulkWork (w : Work) : Prop :=
  match w with
  | BatchWork batch => bulkBatch batch
  | SingleWork _ => True
  end.

(** Every batch of the queue and every batch held by a thread can be
    carried by a bulk query. *)
Definition bulkPool (p : Pool) : Prop :=
  Forall bulkBatch (unscopedPackageBatches (state (mem p)))
  /\ forall (j : nat) (t : Thread) (w : Work),
       threads p !! j = Some t -> workOf t = Some w -> bulkWork w.


(** The requests that an invocation makes, those of its fetch phase, and the
    requests of a release cycle. *)
Definition requestsOf (inp : Input) (w : World) : list Call :=
  match stateFile w, dispatch w with
  | Some st, FetchPhase => snd (run (events inp) (startPool (startTime inp) st))
  | _, _ => []
  end.

Fixpoint requestsInCycle (inps : list Input) (w : World) : list Call :=
  match inps with
  | [] => []
  | inp :: rest => requestsOf inp w ++ requestsInCycle rest (world (buildAndRelease inp w))
  end.

(** The state file exists, its batches are fit for a bulk query and every
    queued name satisfies [P]. *)
Definition queuesWithin (P : string -> Prop) (w : World) : Prop :=
  exists st : State,
    stateFile w = Some st
    /\ Forall bulkBatch (unscopedPackageBatches st)
    /\ forall x : string, x ∈ pendingIds st -> P x.

(** The answers that reach a handler: those delivered that are not a 429. *)
Definition answerHandled (e : Event) (p : Pool) : nat :=
  match delivered e p with
  | Some (w, r) =>
      match isRateLimited r with
      | Some _ => 0
      | None => 1
      end
  | None => 0
  end.

Fixpoint answersHandled (es : list Event) (p : Pool) : nat :=
  match es with
  | [] => 0
  | e :: es' => (answerHandled e p + answersHandled es' (fst (step e p)))%nat
  end.

(** The threads whose loop has not ended. *)
Definition active (t : Thread) : bool :=
  match pc t with
  | Finished => false
  | _ => true
  end.

Arguments active : simpl never.

Definition nActive (p : Pool) : nat := length (List.filter active (threads p)).

(** The loop condition of [startFetcherThread] fails. *)
Definition drained (m : Mem) : Prop :=
  queriesRemaining m < 0
  \/ (unscopedPackageBatches (state m) = [] /\ singlePackages (state m) = []).

Definition exited (m : Mem) : Z :=
  match exitCode m with
  | Some _ => 1
  | None => 0
  end.

(** The calls of [fetch] made from time [t] on and before [t + gap]. *)
Definition timeOf (c : Call) : Z := match c with Fetch _ time _ => time end.

Definition threadOf (c : Call) : nat := match c with Fetch i _ _ => i end.

Definition within (t gap : Z) (time : Z) : bool := (t <=? time) && (time <? t + gap).

Definition startedWithin (t gap : Z) (calls : list Call) : list Call :=
  List.filter (fun c => within t gap (timeOf c)) calls.

(** The threads that wait for the answer to a request. *)
Definition inFlight (t : Thread) : bool :=
  match pc t with
  | InFlight _ => true
  | _ => false
  end.

Arguments inFlight : simpl never.

Definition nInFlight (p : Pool) : nat := length (List.filter inFlight (threads p)).

(** The order in which a release cycle goes through the phases. *)
Definition phaseRank (ph : Phase) : nat :=
  match ph with
  | InitPhase => 0
  | FetchPhase => 1
  | MergePhase => 2
  | PublishPhase => 3
  | NoopPhase => 4
  end.
(** * Properties *)

(** ** Strings and the initial partition, on examples *)

Example split_scoped : Str.split "/" "@chee/.." = ["@chee"; ".."].
Proof. reflexivity. Qed.

Example split_plain : Str.split "/" "lodash" = ["lodash"].
Proof. reflexivity. Qed.

Example addressable_dots :
  map Init.addressable ["@chee/.."; "@a/."; "a.b"; "..."; "@x/y"; ".."]
  = [false; false; true; true; true; false].
Proof. reflexivity. Qed.

Example chunk_by_two :
  Init.chunk 2 ["a"; "b"; "c"; "d"; "e"] = [["a"; "b"]; ["c"; "d"]; ["e"]].
Proof. reflexivity. Qed.

(** ** The handlers *)

Lemma splitPoint_halves (batch : list string) :
  take (length batch / 2)%nat batch ++ drop (length batch / 2)%nat batch = batch.
Proof. apply take_drop. Qed.

Lemma splitOrDemote_small (batch : list string) (s : State) :
  (length batch <= 3)%nat ->
  splitOrDemote batch s = setSingles (singlePackages s ++ batch) s.
Proof.
  intros H. unfold splitOrDemote.
  destruct (Nat.leb_spec (length batch) 3) as [_|Hgt]; [reflexivity | lia].
Qed.

Lemma splitOrDemote_large (batch : list string) (s : State) :
  (3 < length batch)%nat ->
  splitOrDemote batch s
  = setBatches (unscopedPackageBatches s
                  ++ [take (length batch / 2)%nat batch;
                      drop (length batch / 2)%nat batch]) s.
Proof.
  intros H. unfold splitOrDemote.
  destruct (Nat.leb_spec (length batch) 3) as [Hle|_]; [lia | reflexivity].
Qed.

Lemma half_bounds (n : nat) :
  (3 < n -> 2 <= n / 2 /\ n / 2 < n /\ 2 <= n - n / 2 /\ n - n / 2 < n)%nat.
Proof.
  intros H.
  pose proof (Nat.div_mod_eq n 2) as E.
  pose proof (Nat.mod_upper_bound n 2 ltac:(lia)) as B.
  lia.
Qed.

(** C3. A bulk batch answered 400 or 403: above three members it is put back
    on the batch queue as two halves whose concatenation is the batch; at
    three or fewer its members are appended to the singles queue; in both
    cases the error counter, the exit code, the counts and the blocked list
    are untouched. *)
Theorem rejected_batch_split_or_demoted
        (batch : list string) (resp : Response) (m : Mem) :
  status resp = 400 \/ status resp = 403 ->
  let m' := fetchCountsForUnscopedBatch batch (Answer resp) m in
  nRequestErrors m' = nRequestErrors m
  /\ exitCode m' = exitCode m
  /\ counts m' = counts m
  /\ status403Packages (state m') = status403Packages (state m)
  /\ ((3 < length batch)%nat ->
      exists h1 h2 : list string,
        unscopedPackageBatches (state m')
        = unscopedPackageBatches (state m) ++ [h1; h2]
        /\ h1 ++ h2 = batch
        /\ length h1 = (length batch / 2)%nat
        /\ length h2 = (length batch - length batch / 2)%nat
        /\ singlePackages (state m') = singlePackages (state m))
  /\ ((length batch <= 3)%nat ->
      singlePackages (state m') = singlePackages (state m) ++ batch
      /\ unscopedPackageBatches (state m') = unscopedPackageBatches (state m)).
Proof.
  intros Hst m'.
  assert (Hm' : m' = setState (splitOrDemote batch (state m)) m).
  { subst m'. unfold fetchCountsForUnscopedBatch.
    destruct Hst as [-> | ->]; reflexivity. }
  rewrite Hm'. clear Hm' m'.
  repeat split; try (unfold splitOrDemote; case_match; reflexivity).
  - intros Hbig. rewrite splitOrDemote_large by assumption.
    exists (take (length batch / 2)%nat batch), (drop (length batch / 2)%nat batch).
    cbn [state setState setBatches unscopedPackageBatches singlePackages].
    repeat split.
    + apply splitPoint_halves.
    + rewrite length_take. pose proof (half_bounds _ Hbig) as Hb.
      apply Nat.min_l. lia.
    + rewrite length_drop. reflexivity.
  - rewrite splitOrDemote_small by assumption. reflexivity.
  - rewrite splitOrDemote_small by assumption. reflexivity.
Qed.

Lemma rejected_batch_split_or_demoted_witness :
  let m := initialMem (mkState 0 [] [] [] false) in
  let m' := fetchCountsForUnscopedBatch ["a"; "b"; "c"; "d"] (Answer blocked403) m in
  (status blocked403 = 400 \/ status blocked403 = 403)
  /\ nRequestErrors m' = nRequestErrors m
  /\ exists h1 h2 : list string,
      unscopedPackageBatches (state m') = unscopedPackageBatches (state m) ++ [h1; h2]
      /\ h1 ++ h2 = ["a"; "b"; "c"; "d"].
Proof.
  intros m m'.
  destruct (rejected_batch_split_or_demoted
              ["a"; "b"; "c"; "d"] blocked403 m (or_intror eq_refl))
    as (He & _ & _ & _ & Hsplit & _).
  split; [right; reflexivity|].
  split; [exact He|].
  destruct (Hsplit ltac:(cbn; lia)) as (h1 & h2 & Hq & Hcat & _).
  exists h1, h2. split; [exact Hq | exact Hcat].
Defined.

(** ** Repeated rejection of a batch *)

Section Splitting.

Lemma splitOrDemote_queues (batch : list string) (s : State) :
  unscopedPackageBatches (splitOrDemote batch s)
  = unscopedPackageBatches s ++ halvesOf batch
  /\ singlePackages (splitOrDemote batch s) = singlePackages s ++ demotedOf batch.
Proof.
  unfold splitOrDemote, halvesOf, demotedOf.
  destruct (length batch <=? 3)%nat; cbn; rewrite ?app_nil_r; auto.
Qed.

Lemma fold_splitOrDemote (q : list (list string)) : forall s : State,
  let s' := fold_left (fun s' batch => splitOrDemote batch s') q s in
  unscopedPackageBatches s' = unscopedPackageBatches s ++ flat_map halvesOf q
  /\ singlePackages s' = singlePackages s ++ flat_map demotedOf q.
Proof.
  induction q as [|b q IH]; intros s; cbn.
  - rewrite !app_nil_r. auto.
  - destruct (IH (splitOrDemote b s)) as [Hb Hs].
    destruct (splitOrDemote_queues b s) as [Hb' Hs'].
    rewrite Hb, Hs, Hb', Hs', <- !app_assoc. auto.
Qed.

Lemma rejectRound_queues (s : State) :
  unscopedPackageBatches (rejectRound s)
  = flat_map halvesOf (unscopedPackageBatches s)
  /\ singlePackages (rejectRound s)
     = singlePackages s ++ flat_map demotedOf (unscopedPackageBatches s).
Proof.
  unfold rejectRound.
  destruct (fold_splitOrDemote (unscopedPackageBatches s) (setBatches [] s))
    as [Hb Hs].
  cbn in Hb, Hs. auto.
Qed.

Lemma halves_demoted_perm (batch : list string) :
  concat (halvesOf batch) ++ demotedOf batch ≡ₚ batch.
Proof.
  unfold halvesOf, demotedOf. destruct (length batch <=? 3)%nat; cbn.
  - reflexivity.
  - rewrite !app_nil_r. rewrite take_drop. reflexivity.
Qed.

Lemma round_perm (q : list (list string)) :
  concat (flat_map halvesOf q) ++ flat_map demotedOf q ≡ₚ concat q.
Proof.
  induction q as [|b q IH]; cbn; [reflexivity|].
  rewrite concat_app.
  etransitivity;
    [| apply Permutation_app; [apply halves_demoted_perm | apply IH]].
  rewrite <- !app_assoc. apply Permutation_app_head.
  rewrite !app_assoc. apply Permutation_app_tail, Permutation_app_comm.
Qed.

Lemma halvesOf_bound (batch : list string) (bound : nat) :
  (length batch <= bound)%nat ->
  Forall (fun c : list string => (length c <= halfUp bound)%nat) (halvesOf batch).
Proof.
  intros H. unfold halvesOf, halfUp.
  destruct (Nat.leb_spec (length batch) 3) as [|Hbig]; [constructor|].
  pose proof (Nat.div_mod_eq (length batch) 2) as E.
  pose proof (Nat.mod_upper_bound (length batch) 2 ltac:(lia)) as B.
  pose proof (Nat.div_mod_eq (bound + 1) 2) as E'.
  pose proof (Nat.mod_upper_bound (bound + 1) 2 ltac:(lia)) as B'.
  repeat constructor.
  - rewrite length_take. lia.
  - rewrite length_drop. lia.
Qed.

Lemma round_bound (q : list (list string)) (bound : nat) :
  Forall (fun c : list string => (length c <= bound)%nat) q ->
  Forall (fun c : list string => (length c <= halfUp bound)%nat)
         (flat_map halvesOf q).
Proof.
  induction 1 as [|b q Hb _ IH]; cbn; [constructor|].
  apply Forall_app. split; [apply halvesOf_bound; assumption | exact IH].
Qed.

Lemma round_small (q : list (list string)) :
  Forall (fun c : list string => (length c <= 3)%nat) q ->
  flat_map halvesOf q = [].
Proof.
  induction 1 as [|b q Hb _ IH]; cbn; [reflexivity|].
  rewrite IH. unfold halvesOf.
  destruct (Nat.leb_spec (length b) 3); [reflexivity | lia].
Qed.

Lemma iter_halfUp (k : nat) : forall n c : nat,
  (n <= c * 2 ^ k)%nat -> (Nat.iter k halfUp n <= c)%nat.
Proof.
  induction k as [|k IH]; intros n c H.
  - cbn in *. lia.
  - change (Nat.iter (S k) halfUp n) with (halfUp (Nat.iter k halfUp n)).
    assert (Hh : (Nat.iter k halfUp n <= 2 * c)%nat).
    { apply IH. rewrite Nat.pow_succ_r' in H. lia. }
    unfold halfUp at 1.
    pose proof (Nat.div_mod_eq (Nat.iter k halfUp n + 1) 2) as E.
    pose proof (Nat.mod_upper_bound (Nat.iter k halfUp n + 1) 2 ltac:(lia)) as B.
    lia.
Qed.

Variable batch : list string.

Lemma rounds_invariant (k : nat) :
  let s := rejectRounds k (onlyBatch batch) in
  Forall (fun c : list string => (length c <= Nat.iter k halfUp (length batch))%nat)
         (unscopedPackageBatches s)
  /\ concat (unscopedPackageBatches s) ++ singlePackages s ≡ₚ batch.
Proof.
  induction k as [|k [IHb IHp]].
  - cbn. split; [repeat constructor | rewrite !app_nil_r; reflexivity].
  - change (rejectRounds (S k) (onlyBatch batch))
      with (rejectRound (rejectRounds k (onlyBatch batch))).
    change (Nat.iter (S k) halfUp (length batch))
      with (halfUp (Nat.iter k halfUp (length batch))).
    cbn zeta in *.
    destruct (rejectRound_queues (rejectRounds k (onlyBatch batch))) as [Hb Hs].
    rewrite Hb, Hs. split.
    + apply round_bound. exact IHb.
    + etransitivity; [| exact IHp].
      etransitivity;
        [| apply Permutation_app_tail, round_perm].
      rewrite <- !app_assoc. apply Permutation_app_head, Permutation_app_comm.
Qed.

End Splitting.

Lemma pop_Some {A} (l rest : list A) (x : A) :
  pop l = Some (rest, x) -> l = rest ++ [x].
Proof.
  unfold pop. destruct (last l) as [y|] eqn:E; [|discriminate].
  intros [= <- <-]. apply last_Some in E as [l' ->].
  rewrite removelast_last. reflexivity.
Qed.

Lemma pop_None {A} (l : list A) : pop l = None -> l = [].
Proof.
  unfold pop. destruct (last l) eqn:E; [discriminate|].
  intros _. apply last_None in E. exact E.
Qed.

Lemma pop_app {A} (l : list A) (x : A) : pop (l ++ [x]) = Some (l, x).
Proof. unfold pop. rewrite last_snoc, removelast_last. reflexivity. Qed.

Lemma rejectionsLeft_app (q1 q2 : list (list string)) :
  rejectionsLeft (q1 ++ q2) = (rejectionsLeft q1 + rejectionsLeft q2)%nat.
Proof. unfold rejectionsLeft. rewrite map_app, list_sum_app. reflexivity. Qed.

Lemma rejectionsLeft_zero (q : list (list string)) :
  rejectionsLeft q = 0%nat -> q = [].
Proof.
  destruct q as [|b q]; [reflexivity|].
  unfold rejectionsLeft, list_sum. cbn [map fold_right]. lia.
Qed.

Lemma rejectionsLeft_halves (b : list string) :
  (rejectionsLeft (halvesOf b) + 1 <= rejectionsLeft [b])%nat.
Proof.
  unfold halvesOf, rejectionsLeft, list_sum.
  destruct (Nat.leb_spec (length b) 3) as [|Hbig]; cbn [map fold_right]; [lia|].
  rewrite length_take, length_drop.
  pose proof (half_bounds _ Hbig). lia.
Qed.

Lemma drain_empties (fuel : nat) : forall s : State,
  (rejectionsLeft (unscopedPackageBatches s) <= fuel)%nat ->
  unscopedPackageBatches (drain fuel s) = []
  /\ singlePackages (drain fuel s)
     ≡ₚ singlePackages s ++ concat (unscopedPackageBatches s).
Proof.
  induction fuel as [|fuel IH]; intros s Hw.
  - assert (E : unscopedPackageBatches s = [])
      by (apply rejectionsLeft_zero; lia).
    cbn. rewrite E. cbn. rewrite app_nil_r. auto.
  - cbn [drain]. destruct (pop (unscopedPackageBatches s)) as [[rest b]|] eqn:E.
    + apply pop_Some in E.
      destruct (splitOrDemote_queues b (setBatches rest s)) as [Hb Hs].
      cbn [setBatches unscopedPackageBatches singlePackages] in Hb, Hs.
      rewrite E, rejectionsLeft_app in Hw.
      pose proof (rejectionsLeft_halves b) as Hh.
      destruct (IH (splitOrDemote b (setBatches rest s))) as [IHb IHs].
      { rewrite Hb, rejectionsLeft_app. lia. }
      split; [exact IHb|].
      rewrite IHs, Hb, Hs, E, !concat_app. cbn [concat]. rewrite app_nil_r.
      rewrite <- !app_assoc. apply Permutation_app_head.
      transitivity (concat rest ++ (concat (halvesOf b) ++ demotedOf b));
        [| apply Permutation_app_head, halves_demoted_perm].
      rewrite (app_assoc (concat rest)). apply Permutation_app_comm.
    + apply pop_None in E. rewrite E. cbn. rewrite app_nil_r. auto.
Qed.

Lemma le_pow_log2_up (n : nat) : (1 <= n -> n <= 2 ^ Nat.log2_up n)%nat.
Proof.
  intros H. destruct (Nat.eq_dec n 1%nat) as [->|Hne]; [cbn; lia|].
  apply (Nat.log2_up_spec n). lia.
Qed.

(** C4. Repeated rejection of a batch of [N >= 1] names terminates. A split
    produces two batches that are non-empty and strictly shorter. When every
    batch on the queue is rejected round after round, no batch longer than
    three (none that could be split) is left after ceil(log2 N) rounds, and
    from round max(1, ceil(log2 N)) on the batch queue is empty and the
    singles queue holds exactly the names of the batch. One thread popping
    and getting rejected empties the queue within 2N-1 rejections. *)
Theorem repeated_rejection_terminates (batch : list string) :
  (1 <= length batch)%nat ->
  (forall (c : list string) (s : State), (3 < length c)%nat ->
     exists h1 h2 : list string,
       unscopedPackageBatches (splitOrDemote c s)
       = unscopedPackageBatches s ++ [h1; h2]
       /\ (1 <= length h1 < length c)%nat /\ (1 <= length h2 < length c)%nat)
  /\ (forall k : nat, (Nat.log2_up (length batch) <= k)%nat ->
        Forall (fun c : list string => (length c <= 3)%nat)
               (unscopedPackageBatches (rejectRounds k (onlyBatch batch))))
  /\ (forall k : nat, (Nat.max 1 (Nat.log2_up (length batch)) <= k)%nat ->
        unscopedPackageBatches (rejectRounds k (onlyBatch batch)) = []
        /\ singlePackages (rejectRounds k (onlyBatch batch)) ≡ₚ batch)
  /\ unscopedPackageBatches (drain (2 * length batch - 1) (onlyBatch batch)) = []
  /\ singlePackages (drain (2 * length batch - 1) (onlyBatch batch)) ≡ₚ batch.
Proof.
  intros HN.
  assert (Hpow : forall k, (Nat.log2_up (length batch) <= k)%nat ->
                           (length batch <= 2 ^ k)%nat).
  { intros k Hk. etransitivity; [apply le_pow_log2_up, HN|].
    apply Nat.pow_le_mono_r; lia. }
  split; [|split; [|split]].
  - intros c s Hc. rewrite splitOrDemote_large by assumption.
    eexists _, _. split; [reflexivity|].
    rewrite length_take, length_drop.
    pose proof (half_bounds _ Hc). lia.
  - intros k Hk.
    destruct (rounds_invariant batch k) as [Hb _].
    eapply Forall_impl; [exact Hb|]. cbn beta. intros c Hc.
    pose proof (iter_halfUp k (length batch) 1 ltac:(specialize (Hpow k Hk); lia)).
    lia.
  - intros k Hk. destruct k as [|j]; [lia|].
    destruct (rounds_invariant batch j) as [Hb _].
    assert (Hsmall : Forall (fun c : list string => (length c <= 3)%nat)
                       (unscopedPackageBatches (rejectRounds j (onlyBatch batch)))).
    { eapply Forall_impl; [exact Hb|]. cbn beta. intros c Hc.
      assert ((Nat.iter j halfUp (length batch) <= 2)%nat); [|lia].
      apply iter_halfUp.
      specialize (Hpow (S j) ltac:(lia)). rewrite Nat.pow_succ_r' in Hpow. lia. }
    destruct (rounds_invariant batch (S j)) as [_ Hp].
    assert (E : unscopedPackageBatches (rejectRounds (S j) (onlyBatch batch)) = []).
    { change (rejectRounds (S j) (onlyBatch batch))
        with (rejectRound (rejectRounds j (onlyBatch batch))).
      rewrite (proj1 (rejectRound_queues _)). apply round_small, Hsmall. }
    split; [exact E|]. rewrite E in Hp. exact Hp.
  - destruct (drain_empties (2 * length batch - 1) (onlyBatch batch)) as [Hb Hs].
    { unfold rejectionsLeft, list_sum.
      cbn [onlyBatch unscopedPackageBatches map fold_right]. lia. }
    split; [exact Hb|]. rewrite Hs. cbn. rewrite app_nil_r. reflexivity.
Qed.

Lemma repeated_rejection_terminates_witness :
  let batch := ["a"; "b"; "c"; "d"; "e"] in
  (1 <= length batch)%nat
  /\ unscopedPackageBatches (drain 9 (onlyBatch batch)) = []
  /\ singlePackages (drain 9 (onlyBatch batch)) ≡ₚ batch
  /\ unscopedPackageBatches (rejectRounds 3 (onlyBatch batch)) = [].
Proof.
  intros batch.
  assert (H1 : (1 <= length batch)%nat) by (cbn; lia).
  destruct (repeated_rejection_terminates batch H1) as (_ & _ & Hr & Hd & Hs).
  split; [exact H1|]. split; [exact Hd|]. split; [exact Hs|].
  apply (Hr 3%nat). vm_compute. lia.
Defined.

(** ** The throttled fetcher *)





Lemma step_Respond (p : Pool) (i : nat) (r : FetchResult) :
  exitCode (mem p) = None -> step (Respond i r) p = (respond i r p, []).
Proof. intros Hex. unfold step. rewrite Hex. reflexivity. Qed.

Lemma step_exited (p : Pool) (e : Event) :
  exitCode (mem p) <> None -> step e p = (p, []).
Proof. intros Hex. unfold step. destruct (exitCode (mem p)); [reflexivity | congruence]. Qed.




Lemma startsOf_app (i : nat) (c1 c2 : list Call) :
  startsOf i (c1 ++ c2) = startsOf i c1 ++ startsOf i c2.
Proof.
  induction c1 as [|[j time w] c1 IH]; cbn; [reflexivity|].
  destruct (Nat.eqb i j); cbn; rewrite IH; reflexivity.
Qed.

Lemma spaced_snoc (gap : Z) (times : list Z) (t : Z) :
  spaced gap times ->
  (forall tl : Z, last times = Some tl -> tl + gap <= t) ->
  spaced gap (times ++ [t]).
Proof.
  induction times as [|t1 rest IH]; intros Hs Hl; cbn; [auto|].
  destruct Hs as [H1 Hs]. split.
  - destruct rest as [|t2 rest']; cbn; [apply Hl; reflexivity | exact H1].
  - apply IH; [exact Hs|]. intros tl Htl. apply Hl.
    destruct rest; [discriminate | exact Htl].
Qed.

Lemma timerDue_mono (now now' : Z) (timer : option Z) :
  now <= now' -> timerDue now timer = true -> timerDue now' timer = true.
Proof.
  destruct timer as [d|]; cbn; [|auto].
  intros Hle Hd. apply Z.leb_le in Hd. apply Z.leb_le. lia.
Qed.

Lemma threadSpaced_same (i : nat) (p p' : Pool) (pre : list Call) :
  threads p' !! i = threads p !! i ->
  clock p <= clock p' ->
  threadSpaced i p pre -> threadSpaced i p' (pre ++ []).
Proof.
  intros Ht Hc [Hs Hi]. rewrite app_nil_r. split; [exact Hs|].
  rewrite Ht. destruct (threads p !! i) as [t|]; [|exact Hi].
  destruct Hi as [Hl Hsl]. split; [exact Hl|].
  intros w wake Hpc. eapply timerDue_mono; [exact Hc | eapply Hsl; exact Hpc].
Qed.

Lemma threadSpaced_resume (i j : nat) (p : Pool) (pre : list Call) :
  threadSpaced i p pre ->
  threadSpaced i (fst (resume j p)) (pre ++ snd (resume j p)).
Proof.
  intros Hinv. unfold resume.
  destruct (threads p !! j) as [t|] eqn:Ht;
    [|apply (threadSpaced_same i p p pre); [reflexivity | lia | exact Hinv]].
  assert (Hlen : (j < length (threads p))%nat) by (eapply lookup_lt_Some; exact Ht).
  assert (Hgo : forall w : Work,
             (i = j -> timerDue (clock p) (throttlingWait t) = true) ->
             let '(t', calls) := gate j (clock p) w t (mem p) in
             threadSpaced i (mkPool (mem p) (clock p) (<[j := t']> (threads p)))
                          (pre ++ calls)).
  { intros w Hdue. unfold gate.
    destruct (decide (i = j)) as [->|Hne].
    - specialize (Hdue eq_refl).
      destruct Hinv as [Hs Hi]. rewrite Ht in Hi. destruct Hi as [Hl _].
      destruct (retryAfterTimestampMs (mem p) - clock p >? 0); unfold threadSpaced.
      + (* the thread goes to sleep on the deadline *)
        rewrite app_nil_r. split; [exact Hs|]. cbn [threads].
        rewrite list_lookup_insert_eq by exact Hlen. cbn. split; auto.
      + (* the request is sent *)
        rewrite startsOf_app. cbn [startsOf]. rewrite Nat.eqb_refl.
        split.
        * apply spaced_snoc; [exact Hs|]. intros tl Htl.
          rewrite (Hl tl Htl) in Hdue. cbn in Hdue. apply Z.leb_le in Hdue. exact Hdue.
        * cbn [threads]. rewrite list_lookup_insert_eq by exact Hlen. cbn.
          split; [|discriminate].
          intros tl Htl. rewrite last_snoc in Htl. congruence.
    - assert (Hother : forall t' : Thread,
                 threadSpaced i (mkPool (mem p) (clock p) (<[j := t']> (threads p)))
                              (pre ++ [])).
      { intros t'. apply (threadSpaced_same i p); cbn [threads clock];
          [|lia|exact Hinv].
        apply list_lookup_insert_ne. congruence. }
      destruct (retryAfterTimestampMs (mem p) - clock p >? 0); [apply Hother|].
      specialize (Hother (mkThread (InFlight w)
                                   (Some (clock p + MIN_REQUEST_INTERVAL_MS)))).
      rewrite app_nil_r in Hother. destruct Hother as [Hs Hi].
      unfold threadSpaced. rewrite startsOf_app. cbn [startsOf].
      destruct (Nat.eqb_spec i j) as [|_]; [contradiction|].
      rewrite app_nil_r. split; assumption. }
  destruct (pc t) as [|w|w wake|w] eqn:Hpc;
    try (apply (threadSpaced_same i p p pre); [reflexivity | lia | exact Hinv]).
  - destruct (timerDue (clock p) (throttlingWait t)) eqn:Hdue;
      [|apply (threadSpaced_same i p p pre); [reflexivity | lia | exact Hinv]].
    specialize (Hgo w (fun _ => eq_refl)).
    destruct (gate j (clock p) w t (mem p)). exact Hgo.
  - destruct (wake <=? clock p);
      [|apply (threadSpaced_same i p p pre); [reflexivity | lia | exact Hinv]].
    assert (Hdue : i = j -> timerDue (clock p) (throttlingWait t) = true).
    { intros ->. destruct Hinv as [_ Hi]. rewrite Ht in Hi. destruct Hi as [_ Hsl].
      eapply Hsl. exact Hpc. }
    specialize (Hgo w Hdue). destruct (gate j (clock p) w t (mem p)). exact Hgo.
Qed.

Lemma pcOfNext_not_sleeping (next : option Work) (w : Work) (wake : Z) :
  pcOfNext next <> Sleeping w wake.
Proof. destruct next; discriminate. Qed.

Lemma respond_clock (j : nat) (r : FetchResult) (p : Pool) :
  clock (respond j r p) = clock p.
Proof.
  unfold respond.
  destruct (threads p !! j) as [t|]; [|reflexivity].
  destruct (pc t); try reflexivity.
  destruct (isRateLimited r); [reflexivity|].
  destruct (exitCode (handle w r (mem p))); [reflexivity|].
  destruct (nextWork _). reflexivity.
Qed.

Lemma respond_thread (i j : nat) (r : FetchResult) (p : Pool) :
  threads (respond j r p) !! i = threads p !! i
  \/ exists (t : Thread) (pc' : PC),
       threads p !! i = Some t
       /\ threads (respond j r p) !! i = Some (mkThread pc' (throttlingWait t))
       /\ forall (w : Work) (wake : Z), pc' <> Sleeping w wake.
Proof.
  unfold respond.
  destruct (threads p !! j) as [t|] eqn:Ht; [|left; reflexivity].
  assert (Hlen : (j < length (threads p))%nat) by (eapply lookup_lt_Some; exact Ht).
  assert (Hset : forall pc' : PC,
             (forall (w : Work) (wake : Z), pc' <> Sleeping w wake) ->
             <[j := mkThread pc' (throttlingWait t)]> (threads p) !! i
             = threads p !! i
             \/ exists (t0 : Thread) (pc0 : PC),
                 threads p !! i = Some t0
                 /\ <[j := mkThread pc' (throttlingWait t)]> (threads p) !! i
                    = Some (mkThread pc0 (throttlingWait t0))
                 /\ forall (w : Work) (wake : Z), pc0 <> Sleeping w wake).
  { intros pc' Hpc'. destruct (decide (i = j)) as [->|Hne].
    - right. exists t, pc'. rewrite list_lookup_insert_eq by exact Hlen. auto.
    - left. apply list_lookup_insert_ne. congruence. }
  destruct (pc t) as [| | |w]; try (left; reflexivity).
  destruct (isRateLimited r).
  - cbn [threads]. apply Hset. discriminate.
  - destruct (exitCode (handle w r (mem p))); [left; reflexivity|].
    destruct (nextWork _) as [m3 next]. cbn [threads].
    apply Hset. intros w' wake. apply pcOfNext_not_sleeping.
Qed.

Lemma threadSpaced_respond (i j : nat) (r : FetchResult) (p : Pool)
      (pre : list Call) :
  threadSpaced i p pre -> threadSpaced i (respond j r p) (pre ++ []).
Proof.
  intros Hinv.
  destruct (respond_thread i j r p) as [Heq | (t & pc' & Ht & Ht' & Hpc')].
  - apply (threadSpaced_same i p); [exact Heq | rewrite respond_clock; lia | exact Hinv].
  - destruct Hinv as [Hs Hi]. rewrite Ht in Hi. destruct Hi as [Hl _].
    rewrite app_nil_r. split; [exact Hs|]. rewrite Ht'. cbn. split; [exact Hl|].
    intros w wake Hpc. exfalso. eapply Hpc'. exact Hpc.
Qed.

Lemma threadSpaced_step (i : nat) (e : Event) (p : Pool) (pre : list Call) :
  threadSpaced i p pre ->
  threadSpaced i (fst (step e p)) (pre ++ snd (step e p)).
Proof.
  intros Hinv. unfold step.
  destruct (exitCode (mem p));
    [apply (threadSpaced_same i p p pre); [reflexivity | lia | exact Hinv]|].
  destruct e as [dt|j|j r].
  - cbn [fst snd].
    destruct (Z.leb_spec 0 dt);
      apply (threadSpaced_same i p); cbn [threads clock];
      try reflexivity; try lia; exact Hinv.
  - apply threadSpaced_resume. exact Hinv.
  - apply threadSpaced_respond. exact Hinv.
Qed.

Lemma threadSpaced_run (i : nat) (es : list Event) : forall (p : Pool) (pre : list Call),
  threadSpaced i p pre ->
  threadSpaced i (fst (run es p)) (pre ++ snd (run es p)).
Proof.
  induction es as [|e es IH]; intros p pre Hinv; cbn [run].
  - cbn. rewrite app_nil_r. exact Hinv.
  - pose proof (threadSpaced_step i e p pre Hinv) as H1.
    destruct (step e p) as [p1 c1]. cbn [fst snd] in H1.
    pose proof (IH p1 (pre ++ c1) H1) as H2.
    destruct (run es p1) as [p2 c2]. cbn [fst snd] in *.
    rewrite app_assoc. exact H2.
Qed.

Lemma startThreads_fresh (n : nat) : forall (m : Mem) (t : Thread),
  t ∈ snd (startThreads n m) ->
  throttlingWait t = None
  /\ forall (w : Work) (wake : Z), pc t <> Sleeping w wake.
Proof.
  induction n as [|n IH]; intros m t Hin; cbn in Hin.
  - apply elem_of_nil in Hin. contradiction.
  - unfold startFetcherThread in Hin.
    destruct (nextWork m) as [m1 next].
    specialize (IH m1).
    destruct (startThreads n m1) as [m2 ts]. cbn [snd] in *.
    apply elem_of_cons in Hin as [->|Hin]; [|apply IH; exact Hin].
    cbn. split; [reflexivity|]. intros w wake. apply pcOfNext_not_sleeping.
Qed.

Lemma threadSpaced_start (i : nat) (now : Z) (st : State) :
  threadSpaced i (startPool now st) [].
Proof.
  unfold startPool.
  pose proof (startThreads_fresh MAX_SIMULTANEOUS_REQUESTS (initialMem st)) as Hf.
  destruct (startThreads MAX_SIMULTANEOUS_REQUESTS (initialMem st)) as [m ts].
  cbn [snd] in Hf. split; [exact I|]. cbn [threads startsOf].
  destruct (ts !! i) as [t|] eqn:Ht; [|reflexivity].
  destruct (Hf t) as [Htw Hpc]; [eapply list_elem_of_lookup_2; exact Ht|].
  split; [discriminate|]. intros w wake Hs. exfalso. eapply Hpc. exact Hs.
Qed.

Lemma run_call_origin (es : list Event) : forall (p : Pool) (call : Call),
  call ∈ snd (run es p) ->
  exists (es1 es2 : list Event) (e : Event),
    es = es1 ++ e :: es2 /\ call ∈ snd (step e (fst (run es1 p))).
Proof.
  induction es as [|e es IH]; intros p call Hin.
  - apply elem_of_nil in Hin. contradiction.
  - cbn [run] in Hin. destruct (step e p) as [p1 c1] eqn:Hstep.
    specialize (IH p1 call). destruct (run es p1) as [p2 c2]. cbn [snd] in *.
    apply elem_of_app in Hin as [Hin|Hin].
    + exists [], es, e. split; [reflexivity|]. cbn. rewrite Hstep. exact Hin.
    + destruct (IH Hin) as (es1 & es2 & e' & -> & Hcall).
      exists (e :: es1), es2, e'. split; [reflexivity|].
      cbn [run]. rewrite Hstep. destruct (run es1 p1). exact Hcall.
Qed.

Lemma step_fetch_gate (e : Event) (p : Pool) (i : nat) (time : Z) (w : Work) :
  Fetch i time w ∈ snd (step e p) ->
  time = clock p /\ retryAfterTimestampMs (mem p) <= time.
Proof.
  unfold step.
  destruct (exitCode (mem p)); [intros H; apply elem_of_nil in H; contradiction|].
  destruct e as [dt|j|j r]; cbn [snd];
    try (intros H; apply elem_of_nil in H; contradiction).
  unfold resume. destruct (threads p !! j) as [t|];
    [|intros H; apply elem_of_nil in H; contradiction].
  assert (Hgate : forall w0 : Work,
             Fetch i time w ∈ snd (gate j (clock p) w0 t (mem p)) ->
             time = clock p /\ retryAfterTimestampMs (mem p) <= time).
  { intros w0. unfold gate.
    destruct (Z.gtb_spec (retryAfterTimestampMs (mem p) - clock p) 0) as [Hgt|Hle];
      cbn [snd]; intros H; [apply elem_of_nil in H; contradiction|].
    apply list_elem_of_singleton in H. inversion H; subst. lia. }
  destruct (pc t) as [|w0|w0 wake|w0];
    try (intros H; apply elem_of_nil in H; contradiction).
  - destruct (timerDue (clock p) (throttlingWait t));
      [|intros H; apply elem_of_nil in H; contradiction].
    specialize (Hgate w0). destruct (gate j (clock p) w0 t (mem p)). exact Hgate.
  - destruct (wake <=? clock p);
      [|intros H; apply elem_of_nil in H; contradiction].
    specialize (Hgate w0). destruct (gate j (clock p) w0 t (mem p)). exact Hgate.
Qed.

(** C5. Whatever happens in the pool started on a state, the times at which
    one thread calls [fetch] are at least [MIN_REQUEST_INTERVAL_MS] apart,
    and every call of [fetch] is made by an event at which the clock reads
    the time of the call and the shared retry deadline, as it stands at that
    moment, is not ahead of it. *)
Theorem requests_are_spaced_and_respect_the_deadline
        (now : Z) (st : State) (es : list Event) :
  (forall i : nat,
     spaced MIN_REQUEST_INTERVAL_MS
            (startsOf i (snd (run es (startPool now st)))))
  /\ (forall (i : nat) (time : Z) (w : Work),
        Fetch i time w ∈ snd (run es (startPool now st)) ->
        exists (es1 es2 : list Event) (e : Event),
          es = es1 ++ e :: es2
          /\ let p := fst (run es1 (startPool now st)) in
             Fetch i time w ∈ snd (step e p)
             /\ time = clock p
             /\ retryAfterTimestampMs (mem p) <= time).
Proof.
  split.
  - intros i.
    exact (proj1 (threadSpaced_run i es (startPool now st) []
                                   (threadSpaced_start i now st))).
  - intros i time w Hin.
    destruct (run_call_origin es _ _ Hin) as (es1 & es2 & e & -> & Hcall).
    exists es1, es2, e. split; [reflexivity|]. cbn zeta.
    split; [exact Hcall|]. eapply step_fetch_gate. exact Hcall.
Qed.

Lemma requests_are_spaced_and_respect_the_deadline_witness :
  let es := [Resume 0%nat; Tick 500; Respond 0%nat (Answer blocked403);
             Resume 0%nat] in
  spaced MIN_REQUEST_INTERVAL_MS (startsOf 0 (snd (run es (startPool 0 twoBatches))))
  /\ exists (es1 es2 : list Event) (e : Event),
      es = es1 ++ e :: es2
      /\ retryAfterTimestampMs (mem (fst (run es1 (startPool 0 twoBatches)))) <= 500.
Proof.
  intros es.
  destruct (requests_are_spaced_and_respect_the_deadline 0 twoBatches es) as [H1 H2].
  split; [exact (H1 0%nat)|].
  destruct (H2 0%nat 500 (SingleWork "d")) as (es1 & es2 & e & Hes & _ & _ & Hd).
  { vm_compute. apply list_elem_of_further, list_elem_of_here. }
  exists es1, es2, e. split; [exact Hes | exact Hd].
Defined.

Example deadline_extended_while_waiting :
  let st := mkState 0 [] [["a"; "b"]; ["c"; "d"]] [] false in
  snd (run [Resume 0; Resume 1;
            Respond 0 (Answer (rateLimited (Some (HInt 10))));
            Tick 500; Resume 0;                 (* thread 0 sleeps until 10000 *)
            Respond 1 (Answer (rateLimited (Some (HInt 20))));
            Tick 9500; Resume 0;                (* woken at 10000: sleeps again *)
            Tick 10500; Resume 0]%nat
           (startPool 0 st))
  = [Fetch 0 0 (BatchWork ["c"; "d"]); Fetch 1 0 (BatchWork ["a"; "b"]);
     Fetch 0 20500 (BatchWork ["c"; "d"])].
Proof. vm_compute. reflexivity. Qed.

(** ** The dispatch of one invocation *)



(** ** Scenario 3: the merge of the counts files *)

Lemma mergeLoop_lookup (files : gmap nat (gmap string Z)) (indices : list nat) :
  forall acc merged : gmap string Z,
    mergeLoop files indices acc = Some merged ->
    forall key : string,
      merged !! key = lookupLast files indices key (acc !! key).
Proof.
  induction indices as [|i rest IH]; intros acc merged H key; cbn in *.
  - injection H as <-. reflexivity.
  - destruct (files !! i) as [shard|] eqn:Hi; [|discriminate].
    rewrite (IH _ _ H key). unfold lookupLast. f_equal.
    rewrite lookup_union. destruct (shard !! key), (acc !! key); reflexivity.
Qed.

Lemma mergeLoop_total (files : gmap nat (gmap string Z)) (indices : list nat) :
  (forall i : nat, i ∈ indices -> is_Some (files !! i)) ->
  forall acc : gmap string Z, is_Some (mergeLoop files indices acc).
Proof.
  induction indices as [|i rest IH]; intros Hall acc; cbn.
  - eauto.
  - destruct (Hall i ltac:(left)) as [shard ->].
    apply IH. intros j Hj. apply Hall. right. exact Hj.
Qed.

Lemma lookupLast_seq (files : gmap nat (gmap string Z)) (key : string) (n : nat) :
  lookupLast files (seq 0 n) key None = lastShardValue files n key.
Proof.
  induction n as [|n IH]; [reflexivity|].
  rewrite seq_S. unfold lookupLast in *. rewrite fold_left_app. cbn.
  rewrite IH. reflexivity.
Qed.

Lemma mergeCounts_lookup (files : gmap nat (gmap string Z)) (n : nat)
      (merged : gmap string Z) :
  (0 < n)%nat ->
  mergeCounts files n = Some merged ->
  forall key : string, merged !! key = lastShardValue files n key.
Proof.
  intros Hn H key. unfold mergeCounts in H.
  destruct (files !! 0%nat) as [counts0|] eqn:H0; [|discriminate].
  rewrite (mergeLoop_lookup _ _ _ _ H key), <- lookupLast_seq.
  destruct n as [|n]; [lia|]. cbn [seq]. replace (S n - 1)%nat with n by lia.
  unfold lookupLast. cbn [fold_left]. rewrite H0.
  destruct (counts0 !! key); reflexivity.
Qed.

Lemma lastShardValue_Some (files : gmap nat (gmap string Z)) (key : string) (v : Z) :
  forall n : nat,
    lastShardValue files n key = Some v ->
    exists (i : nat) (shard : gmap string Z),
      (i < n)%nat /\ files !! i = Some shard /\ shard !! key = Some v
      /\ forall (j : nat) (shard' : gmap string Z),
           (i < j < n)%nat -> files !! j = Some shard' -> shard' !! key = None.
Proof.
  induction n as [|n IH]; cbn; [discriminate|]. intros H.
  assert (Hrec : lastShardValue files n key = Some v ->
                 (forall shard' : gmap string Z,
                    files !! n = Some shard' -> shard' !! key = None) ->
                 exists (i : nat) (shard : gmap string Z),
                   (i < S n)%nat /\ files !! i = Some shard /\ shard !! key = Some v
                   /\ forall (j : nat) (shard' : gmap string Z),
                        (i < j < S n)%nat -> files !! j = Some shard' ->
                        shard' !! key = None).
  { intros Hn Htop. destruct (IH Hn) as (i & shard & Hi & Hf & Hk & Hlater).
    exists i, shard. repeat split; auto; try lia.
    intros j shard' Hj Hfj. destruct (decide (j = n)) as [->|Hne].
    - apply Htop. exact Hfj.
    - apply (Hlater j); [lia | exact Hfj]. }
  destruct (files !! n) as [shard|] eqn:Hf.
  - destruct (shard !! key) as [v'|] eqn:Hk.
    + injection H as ->. exists n, shard. repeat split; auto. intros j ? ?. lia.
    + apply Hrec; [exact H|]. intros shard' [= <-]. exact Hk.
  - apply Hrec; [exact H|]. intros shard' [=].
Qed.

Lemma lastShardValue_highest (files : gmap nat (gmap string Z)) (key : string)
      (v : Z) (i : nat) (shard : gmap string Z) :
  files !! i = Some shard -> shard !! key = Some v ->
  forall n : nat,
    (i < n)%nat ->
    (forall (j : nat) (shard' : gmap string Z),
       (i < j < n)%nat -> files !! j = Some shard' -> shard' !! key = None) ->
    lastShardValue files n key = Some v.
Proof.
  intros Hf Hk. induction n as [|n IH]; intros Hi Hlater; [lia|]. cbn.
  destruct (decide (i = n)) as [<-|Hne].
  - rewrite Hf, Hk. reflexivity.
  - assert (Hn : lastShardValue files n key = Some v).
    { apply IH; [lia|]. intros j shard' Hj. apply Hlater. lia. }
    destruct (files !! n) as [shard'|] eqn:Hfn; [|exact Hn].
    rewrite (Hlater n shard' ltac:(lia) Hfn). exact Hn.
Qed.

Lemma lastShardValue_covers (files : gmap nat (gmap string Z)) (key : string)
      (v : Z) (i : nat) (shard : gmap string Z) :
  files !! i = Some shard -> shard !! key = Some v ->
  forall n : nat, (i < n)%nat -> is_Some (lastShardValue files n key).
Proof.
  intros Hf Hk. induction n as [|n IH]; intros Hi; [lia|]. cbn.
  destruct (decide (i = n)) as [<-|Hne].
  - rewrite Hf, Hk. eauto.
  - destruct (files !! n) as [shard'|]; [|apply IH; lia].
    destruct (shard' !! key); [eauto | apply IH; lia].
Qed.

Lemma buildAndRelease_merge (inp : Input) (w : World) (st : State) :
  stateFile w = Some st -> published st = false -> mainFile w = None ->
  singlePackages st = [] -> unscopedPackageBatches st = [] ->
  buildAndRelease inp w
  = match mergeCounts (countsFiles w) (countsFilesSoFar st) with
    | Some merged =>
        mkResult (mkWorld (stateFile w) (Some merged) (countsFiles w)
                          (npmPublished w))
                 (Exit 0) [MergePhase]
    | None => mkResult w Uncaught [MergePhase]
    end.
Proof.
  destruct w as [sf mf cf np], st as [n singles batches blocked pub].
  cbn [stateFile mainFile countsFiles npmPublished published singlePackages
       unscopedPackageBatches countsFilesSoFar].
  intros -> -> -> -> ->.
  unfold buildAndRelease, script, bind, scenario1, scenario5, scenario4,
    scenario3, scenario2, readState, when, getWorld, ret.
  cbn. destruct (mergeCounts cf n); reflexivity.
Qed.

(** ** Bookkeeping of the package names *)

Arguments occ : simpl never.

Lemma occ_nil (x : string) : occ x [] = 0%nat.
Proof. reflexivity. Qed.

Lemma occ_app (x : string) (l1 l2 : list string) :
  occ x (l1 ++ l2) = (occ x l1 + occ x l2)%nat.
Proof. apply count_occ_app. Qed.

Lemma occ_concat_app (x : string) (q1 q2 : list (list string)) :
  occ x (concat (q1 ++ q2)) = (occ x (concat q1) + occ x (concat q2))%nat.
Proof. rewrite concat_app. apply occ_app. Qed.

Lemma occ_perm (l1 l2 : list string) :
  (forall x : string, occ x l1 = occ x l2) <-> l1 ≡ₚ l2.
Proof. symmetry. apply Permutation_count_occ. Qed.

Lemma occ_halves (x : string) (batch : list string) :
  (occ x (concat (halvesOf batch)) + occ x (demotedOf batch))%nat = occ x batch.
Proof.
  rewrite <- occ_app. apply occ_perm, halves_demoted_perm.
Qed.

Ltac occ_simpl :=
  cbn;
  repeat (rewrite ?occ_concat_app, ?occ_app, ?occ_nil; cbn [concat idsOf]);
  rewrite ?app_nil_r.

Lemma occ_splitOrDemote (x : string) (batch : list string) (s : State) :
  occ x (pendingIds (splitOrDemote batch s))
  = (occ x (pendingIds s) + occ x batch)%nat
  /\ status403Packages (splitOrDemote batch s) = status403Packages s.
Proof.
  destruct (splitOrDemote_queues batch s) as [Hb Hs].
  unfold pendingIds. rewrite Hb, Hs. occ_simpl.
  pose proof (occ_halves x batch).
  split; [lia|]. unfold splitOrDemote. destruct (_ <=? _)%nat; reflexivity.
Qed.

Lemma recordUnexpectedError_state (m : Mem) :
  state (recordUnexpectedError m) = state m
  /\ counts (recordUnexpectedError m) = counts m
  /\ gotRateLimited (recordUnexpectedError m) = gotRateLimited m
  /\ nRequestErrors (recordUnexpectedError m) = S (nRequestErrors m).
Proof. repeat split; reflexivity. Qed.

Ltac case_status :=
  repeat match goal with
         | |- context [?a =? ?b] => destruct (Z.eqb_spec a b)
         end;
  try lia; cbn [negb orb andb].

(** What a handler does with the names of its unit of work: they all go to
    a queue or to the blocked list, unless the answer settles the unit. *)
Lemma handle_names (x : string) (w : Work) (r : FetchResult) (m : Mem) :
  (occ x (pendingIds (state (handle w r m)))
   + occ x (status403Packages (state (handle w r m)))
   + occ x (if settles w r then idsOf w else []))%nat
  = (occ x (pendingIds (state m)) + occ x (status403Packages (state m))
     + occ x (idsOf w))%nat.
Proof.
  destruct w as [batch|packageName], r as [|resp];
    cbn [handle fetchCountsForUnscopedBatch fetchCountForSinglePackage settles].
  - unfold pendingIds. cbn. occ_simpl. lia.
  - case_status.
    + destruct (occ_splitOrDemote x batch (state m)) as [H1 H2].
      cbn [state setState]. rewrite H1, H2. occ_simpl. cbn. lia.
    + destruct (occ_splitOrDemote x batch (state m)) as [H1 H2].
      cbn [state setState]. rewrite H1, H2. occ_simpl. cbn. lia.
    + cbn. lia.
    + unfold pendingIds. cbn. occ_simpl. lia.
  - unfold pendingIds. cbn. occ_simpl. lia.
  - case_status.
    + unfold pendingIds. cbn. occ_simpl. cbn. lia.
    + cbn. lia.
    + destruct (pointDownloads (body resp)); cbn; lia.
    + unfold pendingIds. cbn. occ_simpl. cbn. lia.
Qed.

(** The error counter and the exit code under a handler. *)
Lemma handle_errors (w : Work) (r : FetchResult) (m : Mem) :
  isRateLimited r = None ->
  nRequestErrors (handle w r m)
  = (nRequestErrors m + if unexpected w r then 1 else 0)%nat
  /\ gotRateLimited (handle w r m) = gotRateLimited m
  /\ retryAfterTimestampMs (handle w r m) = retryAfterTimestampMs m
  /\ exitCode (handle w r m)
     = if unexpected w r && (MAX_REQUEST_ERRORS <=? S (nRequestErrors m))%nat
       then Some 1%nat else exitCode m.
Proof.
  intros _.
  destruct w as [batch|packageName], r as [|resp];
    cbn [handle fetchCountsForUnscopedBatch fetchCountForSinglePackage unexpected];
    try case_status; try (destruct (pointDownloads (body resp)));
    cbn; repeat split; try lia; try reflexivity;
    try (destruct (_ <=? _)%nat; reflexivity);
    unfold splitOrDemote; destruct (_ <=? _)%nat; reflexivity.
Qed.

Lemma heldBy_pcOfNext (next : option Work) (timer : option Z) :
  heldBy (mkThread (pcOfNext next) timer) = idsOfNext next.
Proof. destruct next; reflexivity. Qed.

(** The head of the thread loop moves one unit of work from a queue to the
    thread and touches nothing else. *)
Lemma nextWork_names (x : string) (m : Mem) :
  (occ x (pendingIds (state (fst (nextWork m)))) + occ x (idsOfNext (snd (nextWork m))))%nat
  = occ x (pendingIds (state m))
  /\ status403Packages (state (fst (nextWork m))) = status403Packages (state m)
  /\ countsFilesSoFar (state (fst (nextWork m))) = countsFilesSoFar (state m)
  /\ published (state (fst (nextWork m))) = published (state m)
  /\ counts (fst (nextWork m)) = counts m
  /\ nRequestErrors (fst (nextWork m)) = nRequestErrors m
  /\ gotRateLimited (fst (nextWork m)) = gotRateLimited m
  /\ retryAfterTimestampMs (fst (nextWork m)) = retryAfterTimestampMs m
  /\ exitCode (fst (nextWork m)) = exitCode m.
Proof.
  unfold nextWork.
  destruct (_ && _); [|cbn; rewrite occ_nil; repeat split; lia].
  destruct (pop (unscopedPackageBatches (state m))) as [[rest batch]|] eqn:Eb.
  - apply pop_Some in Eb. unfold pendingIds. cbn. rewrite Eb. occ_simpl.
    repeat split; lia.
  - destruct (pop (singlePackages (state m))) as [[rest name]|] eqn:Es.
    + apply pop_Some in Es. unfold pendingIds. cbn. rewrite Es. occ_simpl.
      repeat split; lia.
    + cbn. rewrite occ_nil. repeat split; lia.
Qed.

Lemma occ_held_insert (x : string) (t' : Thread) (ts : list Thread) :
  forall (j : nat) (t : Thread),
    ts !! j = Some t ->
    (occ x (flat_map heldBy (<[j := t']> ts)) + occ x (heldBy t))%nat
    = (occ x (flat_map heldBy ts) + occ x (heldBy t'))%nat.
Proof.
  induction ts as [|t0 ts IH]; intros j t Hj; [discriminate|].
  destruct j as [|j].
  - injection Hj as ->.
    change (<[0%nat := t']> (t :: ts)) with (t' :: ts).
    change (flat_map heldBy (t' :: ts)) with (heldBy t' ++ flat_map heldBy ts).
    change (flat_map heldBy (t :: ts)) with (heldBy t ++ flat_map heldBy ts).
    rewrite !occ_app. lia.
  - change (<[S j := t']> (t0 :: ts)) with (t0 :: <[j := t']> ts).
    change (flat_map heldBy (t0 :: <[j := t']> ts))
      with (heldBy t0 ++ flat_map heldBy (<[j := t']> ts)).
    change (flat_map heldBy (t0 :: ts)) with (heldBy t0 ++ flat_map heldBy ts).
    rewrite !occ_app. specialize (IH j t Hj). lia.
Qed.

Lemma startThreads_names (x : string) (n : nat) : forall m : Mem,
  (occ x (pendingIds (state (fst (startThreads n m))))
   + occ x (flat_map heldBy (snd (startThreads n m))))%nat
  = occ x (pendingIds (state m))
  /\ status403Packages (state (fst (startThreads n m))) = status403Packages (state m)
  /\ countsFilesSoFar (state (fst (startThreads n m))) = countsFilesSoFar (state m)
  /\ counts (fst (startThreads n m)) = counts m
  /\ nRequestErrors (fst (startThreads n m)) = nRequestErrors m
  /\ gotRateLimited (fst (startThreads n m)) = gotRateLimited m
  /\ exitCode (fst (startThreads n m)) = exitCode m.
Proof.
  induction n as [|n IH]; intros m; cbn [startThreads].
  - cbn. rewrite occ_nil. repeat split; lia.
  - unfold startFetcherThread.
    pose proof (nextWork_names x m) as Hn.
    destruct (nextWork m) as [m1 next]. cbn [fst snd] in Hn.
    specialize (IH m1). destruct (startThreads n m1) as [m2 ts].
    cbn [fst snd flat_map] in *. rewrite occ_app, heldBy_pcOfNext.
    destruct Hn as (H1 & H2 & H3 & _ & H4 & H5 & H6 & _ & H7).
    destruct IH as (I1 & I2 & I3 & I4 & I5 & I6 & I7).
    repeat split; try congruence. lia.
Qed.


(** ** One event in the pool *)

Lemma isRateLimited_Some (r : FetchResult) (resp : Response) :
  isRateLimited r = Some resp -> r = Answer resp /\ status resp = 429.
Proof.
  destruct r as [|resp']; cbn; [discriminate|].
  destruct (Z.eqb_spec (status resp') 429); [|discriminate].
  intros [= ->]. auto.
Qed.

Lemma delivered_Some (e : Event) (p : Pool) (w : Work) (r : FetchResult) :
  delivered e p = Some (w, r) ->
  exists (j : nat) (t : Thread),
    e = Respond j r /\ exitCode (mem p) = None
    /\ threads p !! j = Some t /\ pc t = InFlight w.
Proof.
  unfold delivered. destruct (exitCode (mem p)); [discriminate|].
  destruct e as [dt|j|j r']; try discriminate.
  destruct (threads p !! j) as [t|] eqn:Ht; [|discriminate].
  destruct (pc t) as [| | |w'] eqn:Hpc; try discriminate.
  intros [= -> ->]. eauto 10.
Qed.

Lemma step_delivered (j : nat) (r : FetchResult) (p : Pool) (t : Thread) (w : Work) :
  exitCode (mem p) = None -> threads p !! j = Some t -> pc t = InFlight w ->
  fst (step (Respond j r) p)
  = match isRateLimited r with
    | Some resp =>
        mkPool (onRateLimited (clock p) (retryAfterHeader resp) (mem p)) (clock p)
               (<[j := mkThread (AwaitThrottle w) (throttlingWait t)]> (threads p))
    | None =>
        let m1 := handle w r (mem p) in
        match exitCode m1 with
        | Some _ => mkPool m1 (clock p) (threads p)
        | None =>
            let m2 := setQueriesRemaining (queriesRemaining m1 - 1) m1 in
            mkPool (fst (nextWork m2)) (clock p)
                   (<[j := mkThread (pcOfNext (snd (nextWork m2))) (throttlingWait t)]>
                      (threads p))
        end
    end.
Proof.
  intros Hex Ht Hpc. rewrite step_Respond by exact Hex. cbn [fst].
  unfold respond. rewrite Ht, Hpc.
  destruct (isRateLimited r); [reflexivity|]. cbn zeta.
  destruct (exitCode (handle w r (mem p))); [reflexivity|].
  destruct (nextWork _). reflexivity.
Qed.

Lemma resume_mem_held (j : nat) (p : Pool) :
  mem (fst (resume j p)) = mem p
  /\ forall x : string, occ x (held (fst (resume j p))) = occ x (held p).
Proof.
  unfold resume. destruct (threads p !! j) as [t|] eqn:Ht; [|auto].
  assert (Hgo : forall w : Work,
             heldBy t = idsOf w ->
             let '(t', calls) := gate j (clock p) w t (mem p) in
             mem (mkPool (mem p) (clock p) (<[j := t']> (threads p))) = mem p
             /\ forall x : string,
                 occ x (held (mkPool (mem p) (clock p) (<[j := t']> (threads p))))
                 = occ x (held p)).
  { intros w Hw. unfold gate.
    destruct (_ >? _); (split; [reflexivity|]); intros x; unfold held; cbn [threads].
    - pose proof (occ_held_insert x (mkThread (Sleeping w (retryAfterTimestampMs (mem p)))
                                              (throttlingWait t)) _ _ _ Ht) as H.
      rewrite Hw in H. cbn [heldBy pc] in H. lia.
    - pose proof (occ_held_insert x (mkThread (InFlight w)
                                              (Some (clock p + MIN_REQUEST_INTERVAL_MS)))
                                  _ _ _ Ht) as H.
      rewrite Hw in H. cbn [heldBy pc] in H. lia. }
  destruct (pc t) as [|w|w wake|w] eqn:Hpc; auto.
  - destruct (timerDue _ _); [|auto].
    specialize (Hgo w). unfold heldBy in Hgo. rewrite Hpc in Hgo.
    specialize (Hgo eq_refl). destruct (gate _ _ _ _ _). exact Hgo.
  - destruct (_ <=? _); [|auto].
    specialize (Hgo w). unfold heldBy in Hgo. rewrite Hpc in Hgo.
    specialize (Hgo eq_refl). destruct (gate _ _ _ _ _). exact Hgo.
Qed.

Lemma step_not_delivered (e : Event) (p : Pool) :
  delivered e p = None ->
  mem (fst (step e p)) = mem p
  /\ forall x : string, occ x (held (fst (step e p))) = occ x (held p).
Proof.
  intros Hd. unfold step, delivered in *.
  destruct (exitCode (mem p)); [auto|].
  destruct e as [dt|j|j r].
  - cbn [fst]. destruct (0 <=? dt); auto.
  - apply resume_mem_held.
  - cbn [fst]. unfold respond.
    destruct (threads p !! j) as [t|]; [|auto].
    destruct (pc t); auto. discriminate.
Qed.

(** The names are conserved by every event, as long as the process lives:
    what was queued, blocked or held is queued, blocked, held, or has just
    been settled. *)
Lemma step_names (x : string) (e : Event) (p : Pool) :
  exitCode (mem (fst (step e p))) = None ->
  occ x (tracked p)
  = (occ x (tracked (fst (step e p))) + occ x (settled e p))%nat.
Proof.
  intros Hlive. unfold settled.
  destruct (delivered e p) as [[w r]|] eqn:Hd.
  - destruct (delivered_Some _ _ _ _ Hd) as (j & t & -> & Hex & Ht & Hpc).
    rewrite (step_delivered j r p t w Hex Ht Hpc) in *.
    assert (Hheld : heldBy t = idsOf w) by (unfold heldBy; rewrite Hpc; reflexivity).
    destruct (isRateLimited r) as [resp|] eqn:Hrl.
    + apply isRateLimited_Some in Hrl as [-> Hst].
      assert (Hs : settles w (Answer resp) = false).
      { destruct w; cbn; rewrite Hst; reflexivity. }
      rewrite Hs, occ_nil. unfold tracked, held. cbn [mem threads state onRateLimited].
      pose proof (occ_held_insert x (mkThread (AwaitThrottle w) (throttlingWait t))
                                  _ _ _ Ht) as H.
      rewrite Hheld in H. cbn [heldBy pc] in H. rewrite !occ_app. lia.
    + cbn zeta in *.
      destruct (exitCode (handle w r (mem p))) eqn:Hex1; [cbn in Hlive; congruence|].
      pose proof (handle_names x w r (mem p)) as Hh.
      pose proof (nextWork_names x
                    (setQueriesRemaining (queriesRemaining (handle w r (mem p)) - 1)
                                         (handle w r (mem p)))) as Hn.
      destruct Hn as (Hn1 & Hn2 & _).
      cbn [state setQueriesRemaining] in Hn1, Hn2.
      pose proof (occ_held_insert
                    x (mkThread (pcOfNext (snd (nextWork
                         (setQueriesRemaining (queriesRemaining (handle w r (mem p)) - 1)
                                              (handle w r (mem p))))))
                                (throttlingWait t)) _ _ _ Ht) as Hi.
      rewrite heldBy_pcOfNext, Hheld in Hi.
      unfold tracked, held. cbn [mem threads]. rewrite !occ_app, Hn2. lia.
  - destruct (step_not_delivered e p Hd) as [Hm Hh].
    unfold tracked. rewrite !occ_app, Hm, Hh, occ_nil. lia.
Qed.

(** ** A run of the pool *)

Lemma run_exited (es : list Event) (p : Pool) :
  exitCode (mem p) <> None -> run es p = (p, []).
Proof.
  intros Hex. induction es as [|e es IH]; cbn [run]; [reflexivity|].
  rewrite (step_exited p e Hex), IH. reflexivity.
Qed.

Lemma run_app (es1 es2 : list Event) : forall p : Pool,
  fst (run (es1 ++ es2) p) = fst (run es2 (fst (run es1 p))).
Proof.
  induction es1 as [|e es1 IH]; intros p; cbn [run app]; [reflexivity|].
  destruct (step e p) as [p1 c1]. specialize (IH p1).
  destruct (run (es1 ++ es2) p1), (run es1 p1). cbn [fst] in *. exact IH.
Qed.

Lemma run_cons (e : Event) (es : list Event) (p : Pool) :
  fst (run (e :: es) p) = fst (run es (fst (step e p))).
Proof.
  cbn [run]. destruct (step e p) as [p1 c1]. cbn [fst].
  destruct (run es p1). reflexivity.
Qed.

Lemma run_live (e : Event) (es : list Event) (p : Pool) :
  exitCode (mem (fst (run (e :: es) p))) = None ->
  exitCode (mem (fst (step e p))) = None.
Proof.
  rewrite run_cons. intros H.
  destruct (exitCode (mem (fst (step e p)))) eqn:E; [|reflexivity].
  rewrite run_exited in H by congruence. cbn [fst] in H. congruence.
Qed.

Lemma run_names (x : string) (es : list Event) : forall p : Pool,
  exitCode (mem (fst (run es p))) = None ->
  occ x (tracked p)
  = (occ x (tracked (fst (run es p))) + occ x (settledAlong es p))%nat.
Proof.
  induction es as [|e es IH]; intros p Hlive.
  - cbn. rewrite occ_nil. lia.
  - pose proof (run_live e es p Hlive) as H1.
    rewrite run_cons in *. cbn [settledAlong]. rewrite occ_app.
    rewrite (step_names x e p H1), (IH _ Hlive). lia.
Qed.

Lemma step_errors (e : Event) (p : Pool) :
  nRequestErrors (mem (fst (step e p)))
  = (nRequestErrors (mem p) + errorDelivered e p)%nat
  /\ gotRateLimited (mem (fst (step e p)))
     = gotRateLimited (mem p) || (0 <? rateLimitDelivered e p)%nat
  /\ exitCode (mem (fst (step e p)))
     = match exitCode (mem p) with
       | Some c => Some c
       | None =>
           if (0 <? errorDelivered e p)%nat
              && (MAX_REQUEST_ERRORS <=? S (nRequestErrors (mem p)))%nat
           then Some 1%nat else None
       end.
Proof.
  unfold errorDelivered, rateLimitDelivered.
  destruct (delivered e p) as [[w r]|] eqn:Hd.
  - destruct (delivered_Some _ _ _ _ Hd) as (j & t & -> & Hex & Ht & Hpc).
    rewrite (step_delivered j r p t w Hex Ht Hpc), Hex.
    destruct (isRateLimited r) as [resp|] eqn:Hrl.
    + cbn. rewrite Hex, orb_true_r. repeat split; lia.
    + cbn zeta. destruct (handle_errors w r (mem p) Hrl) as (He & Hg & _ & Hx).
      pose proof (nextWork_names ""
                    (setQueriesRemaining (queriesRemaining (handle w r (mem p)) - 1)
                                         (handle w r (mem p))))
        as (_ & _ & _ & _ & _ & Hn1 & Hn2 & _ & Hn3).
      cbn [nRequestErrors gotRateLimited exitCode setQueriesRemaining] in Hn1, Hn2, Hn3.
      rewrite Hex in Hx.
      destruct (exitCode (handle w r (mem p))) eqn:Hex1; cbn [mem].
      * rewrite He, Hg, orb_false_r.
        destruct (unexpected w r); cbn [andb Nat.ltb Nat.leb] in *;
          repeat split; try lia; congruence.
      * rewrite Hn1, Hn2, Hn3, He, Hg, orb_false_r.
        destruct (unexpected w r); cbn [andb Nat.ltb Nat.leb] in *;
          repeat split; try lia; congruence.
  - destruct (step_not_delivered e p Hd) as [-> _]. cbn.
    rewrite orb_false_r. destruct (exitCode (mem p)); repeat split; lia.
Qed.

Lemma errorDelivered_le (e : Event) (p : Pool) : (errorDelivered e p <= 1)%nat.
Proof.
  unfold errorDelivered. destruct (delivered e p) as [[w r]|]; [|lia].
  destruct (isRateLimited r); [lia|]. destruct (unexpected w r); lia.
Qed.

Lemma errorDelivered_exited (e : Event) (p : Pool) :
  exitCode (mem p) <> None -> errorDelivered e p = 0%nat.
Proof.
  intros H. unfold errorDelivered, delivered.
  destruct (exitCode (mem p)); [reflexivity | congruence].
Qed.

Lemma ceilingKept_step (e : Event) (p : Pool) :
  ceilingKept (mem p) -> ceilingKept (mem (fst (step e p))).
Proof.
  unfold ceilingKept. destruct (step_errors e p) as (Hn & _ & Hx).
  pose proof (errorDelivered_le e p) as Hle.
  rewrite Hn, Hx. destruct (exitCode (mem p)) eqn:Hex.
  - rewrite errorDelivered_exited by congruence. intros [-> ->]. split; lia.
  - intros Hlt. destruct (Nat.ltb_spec 0 (errorDelivered e p));
      destruct (Nat.leb_spec MAX_REQUEST_ERRORS (S (nRequestErrors (mem p))));
      cbn [andb]; try split; lia.
Qed.

Lemma run_errors (es : list Event) : forall p : Pool,
  ceilingKept (mem p) ->
  ceilingKept (mem (fst (run es p)))
  /\ nRequestErrors (mem (fst (run es p)))
     = (nRequestErrors (mem p) + errorsSeen es p)%nat
  /\ gotRateLimited (mem (fst (run es p)))
     = gotRateLimited (mem p) || (0 <? rateLimitsSeen es p)%nat.
Proof.
  induction es as [|e es IH]; intros p Hk.
  - cbn. rewrite orb_false_r. repeat split; [exact Hk | lia].
  - rewrite run_cons. cbn [errorsSeen rateLimitsSeen].
    destruct (IH _ (ceilingKept_step e p Hk)) as (IH1 & IH2 & IH3).
    destruct (step_errors e p) as (Hn & Hg & _).
    rewrite IH2, IH3, Hn, Hg. repeat split; [exact IH1 | lia |].
    rewrite <- orb_assoc. f_equal.
    destruct (rateLimitDelivered e p), (rateLimitsSeen es (fst (step e p))); reflexivity.
Qed.

Lemma startPool_mem (now : Z) (st : State) :
  ceilingKept (mem (startPool now st))
  /\ nRequestErrors (mem (startPool now st)) = 0%nat
  /\ gotRateLimited (mem (startPool now st)) = false
  /\ countsFilesSoFar (state (mem (startPool now st))) = countsFilesSoFar st.
Proof.
  unfold startPool, ceilingKept.
  pose proof (startThreads_names "" MAX_SIMULTANEOUS_REQUESTS (initialMem st))
    as (_ & _ & H3 & _ & H5 & H6 & H7).
  destruct (startThreads MAX_SIMULTANEOUS_REQUESTS (initialMem st)) as [m ts].
  cbn [fst mem] in *. rewrite H7, H5, H6, H3. cbn. repeat split.
  unfold MAX_REQUEST_ERRORS. lia.
Qed.

(** ** What the fetch phase never touches *)

Lemma handle_kept (w : Work) (r : FetchResult) (m : Mem) :
  countsFilesSoFar (state (handle w r m)) = countsFilesSoFar (state m)
  /\ published (state (handle w r m)) = published (state m)
  /\ exists more : list string,
       status403Packages (state (handle w r m))
       = status403Packages (state m) ++ more.
Proof.
  destruct w as [batch|packageName], r as [|resp];
    cbn [handle fetchCountsForUnscopedBatch fetchCountForSinglePackage];
    try case_status; try (destruct (pointDownloads (body resp)));
    try (unfold splitOrDemote; destruct (_ <=? _)%nat);
    cbn; repeat split; try reflexivity;
    first [ exists []; rewrite app_nil_r; reflexivity
          | eexists; reflexivity ].
Qed.

Lemma step_kept (e : Event) (p : Pool) :
  countsFilesSoFar (state (mem (fst (step e p))))
  = countsFilesSoFar (state (mem p))
  /\ exists more : list string,
       status403Packages (state (mem (fst (step e p))))
       = status403Packages (state (mem p)) ++ more.
Proof.
  destruct (delivered e p) as [[w r]|] eqn:Hd.
  - destruct (delivered_Some _ _ _ _ Hd) as (j & t & -> & Hex & Ht & Hpc).
    rewrite (step_delivered j r p t w Hex Ht Hpc).
    destruct (isRateLimited r).
    + cbn. split; [reflexivity|]. exists []. rewrite app_nil_r. reflexivity.
    + cbn zeta. destruct (handle_kept w r (mem p)) as (H1 & _ & more & H3).
      destruct (exitCode (handle w r (mem p))); cbn [mem].
      * split; [exact H1|]. exists more. exact H3.
      * pose proof (nextWork_names ""
                      (setQueriesRemaining (queriesRemaining (handle w r (mem p)) - 1)
                                           (handle w r (mem p))))
          as (_ & Hn2 & Hn3 & _).
        cbn [state setQueriesRemaining] in Hn2, Hn3.
        rewrite Hn2, Hn3. split; [exact H1|]. exists more. exact H3.
  - destruct (step_not_delivered e p Hd) as [-> _].
    split; [reflexivity|]. exists []. rewrite app_nil_r. reflexivity.
Qed.

Lemma run_kept (es : list Event) : forall p : Pool,
  countsFilesSoFar (state (mem (fst (run es p))))
  = countsFilesSoFar (state (mem p))
  /\ exists more : list string,
       status403Packages (state (mem (fst (run es p))))
       = status403Packages (state (mem p)) ++ more.
Proof.
  induction es as [|e es IH]; intros p.
  - cbn. split; [reflexivity|]. exists []. rewrite app_nil_r. reflexivity.
  - rewrite run_cons.
    destruct (IH (fst (step e p))) as (H1 & more1 & H2).
    destruct (step_kept e p) as (H3 & more2 & H4).
    split; [congruence|]. exists (more2 ++ more1).
    rewrite H2, H4, app_assoc. reflexivity.
Qed.

(** ** Scenario 2 as a whole *)

Lemma dispatch_fetch (w : World) :
  dispatch w = FetchPhase ->
  exists st : State,
    stateFile w = Some st /\ published st = false /\ mainFile w = None
    /\ (unscopedPackageBatches st <> [] \/ singlePackages st <> []).
Proof.
  unfold dispatch. destruct (stateFile w) as [st|]; [|discriminate].
  destruct (published st) eqn:Hpub; [discriminate|].
  destruct (mainFile w) eqn:Hmain; [discriminate|]. cbn [existsSync].
  intros H. exists st. split; [reflexivity|]. split; [exact Hpub|].
  split; [reflexivity|].
  destruct (unscopedPackageBatches st); [|left; discriminate].
  destruct (singlePackages st); [discriminate | right; discriminate].
Qed.

Lemma buildAndRelease_fetch (inp : Input) (w : World) (st : State) :
  stateFile w = Some st -> dispatch w = FetchPhase ->
  buildAndRelease inp w
  = let p := fst (run (events inp) (startPool (startTime inp) st)) in
    match exitCode (mem p) with
    | Some c => mkResult w (Exit c) [FetchPhase]
    | None =>
        if allFinished p
        then
          mkResult
            (mkWorld (Some (setCountsFilesSoFar (S (countsFilesSoFar (state (mem p))))
                                                (state (mem p))))
                     (mainFile w)
                     (<[countsFilesSoFar (state (mem p)) := counts (mem p)]>
                        (countsFiles w))
                     (npmPublished w))
            (Exit (if gotRateLimited (mem p) then 1 else 0)) [FetchPhase]
        else mkResult w Running [FetchPhase]
    end.
Proof.
  intros Hst Hd.
  destruct (dispatch_fetch w Hd) as (st' & Hst' & Hpub & Hmain & Hq).
  rewrite Hst in Hst'. injection Hst' as <-.
  destruct w as [sf mf cf np], st as [n singles batches blocked pub].
  cbn [stateFile mainFile countsFiles npmPublished published singlePackages
       unscopedPackageBatches countsFilesSoFar] in *.
  subst sf mf pub.
  unfold buildAndRelease, script, scenario1, scenario5, scenario4,
    scenario3, scenario2, readState, when.
  cbn [bind getWorld ret stateFile existsSync negb mainFile published
       singlePackages unscopedPackageBatches].
  assert (Hne : Nat.eqb (length singles) 0 && Nat.eqb (length batches) 0 = false).
  { destruct batches, singles; cbn; try reflexivity. destruct Hq; congruence. }
  rewrite Hne.
  generalize (fst (run (events inp)
                       (startPool (startTime inp)
                                  (mkState n singles batches blocked false)))).
  intros p. cbn.
  destruct (exitCode (mem p)); [reflexivity|].
  destruct (allFinished p); [|reflexivity].
  destruct (gotRateLimited (mem p)); reflexivity.
Qed.

(** C10. In the fetch phase, once the events have delivered
    [MAX_REQUEST_ERRORS] unexpected errors the run has exited with status 1
    and the world is exactly the world at the start: no counts file has been
    written and [state.json] is as it was, whatever the memory held. The
    exit is immediate: events that come later change nothing. *)
Theorem error_ceiling_leaves_the_checkpoint_untouched
        (inp : Input) (w : World) (st : State) :
  stateFile w = Some st ->
  dispatch w = FetchPhase ->
  (MAX_REQUEST_ERRORS <= errorsSeen (events inp) (startPool (startTime inp) st))%nat ->
  let r := buildAndRelease inp w in
  outcome r = Exit 1
  /\ world r = w
  /\ phases r = [FetchPhase]
  /\ forall later : list Event,
       buildAndRelease (withEvents inp (events inp ++ later)) w = r.
Proof.
  intros Hst Hd Hceil r. subst r.
  destruct (startPool_mem (startTime inp) st) as (Hk & Hn0 & _).
  destruct (run_errors (events inp) _ Hk) as (Hk' & Hn & _).
  rewrite Hn0 in Hn. cbn [Nat.add] in Hn.
  assert (Hex : exitCode (mem (fst (run (events inp) (startPool (startTime inp) st))))
                = Some 1%nat).
  { unfold ceilingKept in Hk'.
    destruct (exitCode _) as [c|]; [destruct Hk' as [-> _]; reflexivity | lia]. }
  assert (Hres : buildAndRelease inp w = mkResult w (Exit 1) [FetchPhase]).
  { rewrite (buildAndRelease_fetch inp w st Hst Hd). cbn zeta. rewrite Hex. reflexivity. }
  rewrite Hres. repeat split.
  intros later. rewrite (buildAndRelease_fetch _ w st Hst Hd).
  cbn [events startTime withEvents]. cbn zeta.
  rewrite run_app, (run_exited later) by congruence.
  cbn [fst]. rewrite Hex. reflexivity.
Qed.

Lemma error_ceiling_leaves_the_checkpoint_untouched_witness :
  let w := oneSingleLeft "@scope/z" in
  let r := buildAndRelease eightyFailures w in
  (dispatch w = FetchPhase
   /\ (MAX_REQUEST_ERRORS
       <= errorsSeen (events eightyFailures)
                     (startPool (startTime eightyFailures)
                                (mkState 0 ["@scope/z"] [] [] false)))%nat)
  /\ outcome r = Exit 1 /\ world r = w.
Proof.
  intros w r.
  assert (Hd : dispatch w = FetchPhase) by reflexivity.
  assert (Hc : (MAX_REQUEST_ERRORS
                <= errorsSeen (events eightyFailures)
                              (startPool (startTime eightyFailures)
                                         (mkState 0 ["@scope/z"] [] [] false)))%nat).
  { vm_compute. lia. }
  destruct (error_ceiling_leaves_the_checkpoint_untouched
              eightyFailures w (mkState 0 ["@scope/z"] [] [] false) eq_refl Hd Hc)
    as (Ho & Hw & _).
  split; [split; [exact Hd | exact Hc]|]. split; [exact Ho | exact Hw].
Defined.

(** ** The exit status *)

Lemma dispatch_merge (w : World) :
  dispatch w = MergePhase ->
  exists st : State,
    stateFile w = Some st /\ published st = false /\ mainFile w = None
    /\ singlePackages st = [] /\ unscopedPackageBatches st = [].
Proof.
  unfold dispatch. destruct (stateFile w) as [st|]; [|discriminate].
  destruct (published st) eqn:Hpub; [discriminate|].
  destruct (mainFile w) eqn:Hmain; [discriminate|]. cbn [existsSync].
  intros H. exists st.
  destruct (unscopedPackageBatches st); [|discriminate].
  destruct (singlePackages st); [auto | discriminate].
Qed.





(** ** The names through a release cycle *)

Lemma chunkLoop_concat (size : nat) (pkgs : list string) :
  forall (acc : list (list string)) (batch : list string),
    concat (fst (Init.chunkLoop size pkgs acc batch))
           ++ snd (Init.chunkLoop size pkgs acc batch)
    = concat acc ++ batch ++ pkgs.
Proof.
  induction pkgs as [|pkg rest IH]; intros acc batch; cbn [Init.chunkLoop].
  - cbn. rewrite app_nil_r. reflexivity.
  - destruct (Nat.eqb _ size).
    + rewrite IH, concat_app. cbn. rewrite !app_nil_r, <- !app_assoc. reflexivity.
    + rewrite IH, <- !app_assoc. reflexivity.
Qed.

Lemma chunk_concat (size : nat) (pkgs : list string) :
  concat (Init.chunk size pkgs) = pkgs.
Proof.
  unfold Init.chunk. pose proof (chunkLoop_concat size pkgs [] []) as H.
  destruct (Init.chunkLoop size pkgs [] []) as [acc batch]. cbn in H.
  destruct batch as [|b batch]; cbn.
  - rewrite app_nil_r in H. exact H.
  - rewrite concat_app. cbn. rewrite app_nil_r. exact H.
Qed.






Lemma first_invocation (inp : Input) (w : World) :
  stateFile w = None ->
  stateFile (world (buildAndRelease inp w)) = Some (Init.initialState (names inp))
  /\ settledBy inp w = [].
Proof.
  intros Hst. unfold settledBy. rewrite Hst. split; [|reflexivity].
  unfold buildAndRelease, script, scenario1, when.
  destruct w as [sf mf cf np]. cbn in Hst. subst sf. reflexivity.
Qed.









(** ** The counts files through a release cycle *)

(** The counts files stay [counts0.json] .. [counts(n-1).json] through every
    invocation. *)
Lemma shardsConsistent_invocation (inp : Input) (w : World) :
  shardsConsistent w -> shardsConsistent (world (buildAndRelease inp w)).
Proof.
  unfold shardsConsistent. destruct (stateFile w) as [st|] eqn:Hst.
  - intros Hw. destruct (dispatch w) eqn:Hd.
    + unfold dispatch in Hd. rewrite Hst in Hd.
      destruct (published st); [discriminate|].
      destruct (existsSync (mainFile w)); [discriminate|].
      destruct (unscopedPackageBatches st), (singlePackages st); discriminate.
    + revert Hd Hw. unfold dispatch, buildAndRelease, script, scenario1, scenario5,
        scenario4, scenario3, readState, when.
      destruct w as [sf mf cf np]. cbn in Hst. subst sf.
      cbn [stateFile mainFile countsFiles bind getWorld ret existsSync negb].
      destruct (published st); cbn; [auto|].
      destruct mf; cbn; [discriminate|].
      destruct (unscopedPackageBatches st), (singlePackages st); discriminate.
    + revert Hd Hw. unfold dispatch, buildAndRelease, script, scenario1, scenario5,
        scenario4, scenario3, readState, when.
      destruct w as [sf mf cf np]. cbn in Hst. subst sf.
      cbn [stateFile mainFile countsFiles bind getWorld ret existsSync negb].
      destruct (published st); cbn; [discriminate|].
      destruct mf; cbn; [auto|].
      destruct (unscopedPackageBatches st), (singlePackages st); discriminate.
    + destruct (dispatch_merge w Hd) as (st0 & Hst0 & Hpub & Hmain & Hs & Hb).
      rewrite Hst in Hst0. injection Hst0 as <-.
      rewrite (buildAndRelease_merge inp w st Hst Hpub Hmain Hs Hb).
      destruct (mergeCounts _ _); cbn; rewrite Hst; exact Hw.
    + rewrite (buildAndRelease_fetch inp w st Hst Hd). cbn zeta.
      destruct (exitCode _); [cbn; rewrite Hst; exact Hw|].
      destruct (allFinished _); [|cbn; rewrite Hst; exact Hw].
      cbn [world stateFile countsFiles setCountsFilesSoFar countsFilesSoFar].
      destruct (run_kept (events inp) (startPool (startTime inp) st)) as [Hn _].
      destruct (startPool_mem (startTime inp) st) as (_ & _ & _ & Hn0).
      rewrite Hn, Hn0. intros i.
      destruct (decide (i = countsFilesSoFar st)) as [->|Hne].
      * rewrite lookup_insert_eq. split; [lia | eauto].
      * rewrite lookup_insert_ne by congruence. rewrite Hw. lia.
  - intros Hw.
    destruct (first_invocation inp w Hst) as [Hst1 _]. rewrite Hst1.
    assert (Hf : countsFiles (world (buildAndRelease inp w)) = countsFiles w).
    { unfold buildAndRelease, script, scenario1, when.
      destruct w as [sf mf cf np]. cbn in Hst. subst sf. reflexivity. }
    rewrite Hf, Hw. intros i. rewrite lookup_empty. cbn.
    split; [intros [? ?]; discriminate | lia].
Qed.

Lemma shardsConsistent_cycle (inps : list Input) : forall w : World,
  shardsConsistent w -> shardsConsistent (cycle inps w).
Proof.
  induction inps as [|inp rest IH]; intros w Hw; cbn [cycle]; [exact Hw|].
  apply IH, shardsConsistent_invocation, Hw.
Qed.

(** C7. In the merge phase, with the counts files on the branch being
    [counts0.json] .. [counts(n-1).json] for [n = countsFilesSoFar] (which
    every invocation maintains, see [shardsConsistent_cycle]): as soon
    as there is one shard the main file is written and the run exits with
    status 0; and the main file written holds, for every key, the value of
    the highest-indexed shard that has the key. So every key of a shard is
    in it, every entry of it comes from a shard, and for a key in several
    shards the last one wins. *)
Theorem merge_takes_the_highest_shard (inp : Input) (w : World) (st : State) :
  stateFile w = Some st ->
  dispatch w = MergePhase ->
  shardsConsistent w ->
  let r := buildAndRelease inp w in
  let n := countsFilesSoFar st in
  ((0 < n)%nat ->
   exists merged : gmap string Z,
     mainFile (world r) = Some merged /\ outcome r = Exit 0)
  /\ forall merged : gmap string Z,
       mainFile (world r) = Some merged ->
       (forall key : string,
          merged !! key = lastShardValue (countsFiles w) n key)
       /\ (forall (i : nat) (shard : gmap string Z) (key : string) (v : Z),
             (i < n)%nat -> countsFiles w !! i = Some shard ->
             shard !! key = Some v -> is_Some (merged !! key))
       /\ (forall (i : nat) (shard : gmap string Z) (key : string) (v : Z),
             (i < n)%nat -> countsFiles w !! i = Some shard ->
             shard !! key = Some v ->
             (forall (j : nat) (shard' : gmap string Z),
                (i < j < n)%nat -> countsFiles w !! j = Some shard' ->
                shard' !! key = None) ->
             merged !! key = Some v)
       /\ (forall (key : string) (v : Z),
             merged !! key = Some v ->
             exists (i : nat) (shard : gmap string Z),
               (i < n)%nat /\ countsFiles w !! i = Some shard
               /\ shard !! key = Some v).
Proof.
  intros Hst Hd Hfiles r n. subst r.
  destruct (dispatch_merge w Hd) as (st0 & Hst0 & Hpub & Hmain & Hs & Hb).
  rewrite Hst in Hst0. injection Hst0 as <-.
  unfold shardsConsistent in Hfiles. rewrite Hst in Hfiles.
  rewrite (buildAndRelease_merge inp w st Hst Hpub Hmain Hs Hb). fold n.
  assert (Htotal : (0 < n)%nat -> is_Some (mergeCounts (countsFiles w) n)).
  { intros Hn. unfold mergeCounts.
    destruct (proj2 (Hfiles 0%nat) Hn) as [counts0 ->].
    apply mergeLoop_total. intros i Hi. apply Hfiles.
    apply elem_of_seq in Hi. fold n. lia. }
  split.
  - intros Hn. destruct (Htotal Hn) as [merged ->]. eauto.
  - intros merged Hm.
    assert (Hn : (0 < n)%nat).
    { destruct (mergeCounts (countsFiles w) n) eqn:E.
      - unfold mergeCounts in E.
        destruct (countsFiles w !! 0%nat) eqn:E0; [|discriminate].
        apply Hfiles. eauto.
      - cbn in Hm. congruence. }
    destruct (Htotal Hn) as [merged' Hmc]. rewrite Hmc in Hm.
    cbn in Hm. injection Hm as ->.
    pose proof (mergeCounts_lookup _ _ _ Hn Hmc) as Hlook.
    split; [exact Hlook|]. split; [|split].
    + intros i shard key v Hi Hf Hk. rewrite Hlook.
      eapply lastShardValue_covers; eassumption.
    + intros i shard key v Hi Hf Hk Hlater. rewrite Hlook.
      eapply lastShardValue_highest; eassumption.
    + intros key v Hk. rewrite Hlook in Hk.
      destruct (lastShardValue_Some _ _ _ _ Hk) as (i & shard & Hi & Hf & Hv & _).
      eauto.
Qed.

Lemma twoShards_files (i : nat) : is_Some (twoShards !! i) <-> (i < 2)%nat.
Proof.
  unfold twoShards. destruct i as [|[|i]].
  - rewrite lookup_insert_ne, lookup_singleton_eq by lia. split; [lia | eauto].
  - rewrite lookup_insert_eq. split; [lia | eauto].
  - rewrite lookup_insert_ne, lookup_singleton_ne by lia.
    split; [intros [? ?]; discriminate | lia].
Qed.

Lemma merge_takes_the_highest_shard_witness :
  let r := buildAndRelease firstInvocation readyToMerge in
  (0 < 2)%nat
  /\ exists merged : gmap string Z,
      mainFile (world r) = Some merged
      /\ merged !! "a" = Some 1 /\ merged !! "b" = Some 3.
Proof.
  intros r. split; [lia|].
  destruct (merge_takes_the_highest_shard
              firstInvocation readyToMerge (mkState 2 [] [] [] false)
              eq_refl eq_refl twoShards_files)
    as [Hex Hall].
  destruct (Hex ltac:(cbn; lia)) as (merged & Hm & _).
  exists merged. split; [exact Hm|].
  destruct (Hall merged Hm) as (Hlook & _).
  split; rewrite Hlook; vm_compute; reflexivity.
Defined.

(** ** A blocked name is not queried again *)

Lemma gate_fetch_work (i j : nat) (now time : Z) (w w0 : Work) (t : Thread) (m : Mem) :
  Fetch i time w ∈ snd (gate j now w0 t m) -> w = w0.
Proof.
  unfold gate. destruct (_ >? _); cbn [snd]; intros H.
  - apply elem_of_nil in H. contradiction.
  - apply list_elem_of_singleton in H. congruence.
Qed.

Lemma step_fetch_held (e : Event) (p : Pool) (i : nat) (time : Z) (w : Work) :
  Fetch i time w ∈ snd (step e p) ->
  exists (j : nat) (t : Thread), threads p !! j = Some t /\ heldBy t = idsOf w.
Proof.
  unfold step. destruct (exitCode (mem p));
    [intros H; apply elem_of_nil in H; contradiction|].
  destruct e as [dt|j|j r]; cbn [snd];
    try (intros H; apply elem_of_nil in H; contradiction).
  unfold resume. destruct (threads p !! j) as [t|] eqn:Ht;
    [|intros H; apply elem_of_nil in H; contradiction].
  pose proof (fun w0 => gate_fetch_work i j (clock p) time w w0 t (mem p)) as Hg.
  destruct (pc t) as [|w0|w0 wake|w0] eqn:Hpc;
    try (intros H; apply elem_of_nil in H; contradiction).
  - destruct (timerDue _ _); [|intros H; apply elem_of_nil in H; contradiction].
    specialize (Hg w0). destruct (gate j (clock p) w0 t (mem p)). intros H.
    exists j, t. split; [exact Ht|]. unfold heldBy. rewrite Hpc, (Hg H). reflexivity.
  - destruct (_ <=? _); [|intros H; apply elem_of_nil in H; contradiction].
    specialize (Hg w0). destruct (gate j (clock p) w0 t (mem p)). intros H.
    exists j, t. split; [exact Ht|]. unfold heldBy. rewrite Hpc, (Hg H). reflexivity.
Qed.

Lemma heldBy_in_held (p : Pool) (j : nat) (t : Thread) (x : string) :
  threads p !! j = Some t -> x ∈ heldBy t -> x ∈ held p.
Proof.
  intros Ht Hx. unfold held. apply list_elem_of_In, in_flat_map.
  exists t. split; apply list_elem_of_In; [|exact Hx].
  eapply list_elem_of_lookup_2. exact Ht.
Qed.





(** * Further properties of the script *)

(** ** The initial partition *)

Lemma chunkLoop_sizes (size : nat) (pkgs : list string) :
  (1 <= size)%nat ->
  forall (acc : list (list string)) (batch : list string),
    Forall (fun b : list string => length b = size) acc ->
    (length batch < size)%nat ->
    Forall (fun b : list string => length b = size)
           (fst (Init.chunkLoop size pkgs acc batch))
    /\ (length (snd (Init.chunkLoop size pkgs acc batch)) < size)%nat
    /\ (length (fst (Init.chunkLoop size pkgs acc batch)) * size
        + length (snd (Init.chunkLoop size pkgs acc batch))
        = length acc * size + length batch + length pkgs)%nat.
Proof.
  intros Hsize. induction pkgs as [|pkg rest IH]; intros acc batch Hacc Hb;
    cbn [Init.chunkLoop].
  - cbn. repeat split; [exact Hacc | exact Hb | lia].
  - destruct (Nat.eqb_spec (length (batch ++ [pkg])) size) as [Heq|Hne].
    + destruct (IH (acc ++ [batch ++ [pkg]]) []) as (H1 & H2 & H3).
      * apply Forall_app. split; [exact Hacc | repeat constructor; exact Heq].
      * cbn. lia.
      * repeat split; [exact H1 | exact H2|].
        rewrite H3, length_app. rewrite length_app in Heq. cbn in *. lia.
    + rewrite length_app in Hne. cbn in Hne.
      destruct (IH acc (batch ++ [pkg])) as (H1 & H2 & H3).
      * exact Hacc.
      * rewrite length_app. cbn. lia.
      * repeat split; [exact H1 | exact H2|].
        rewrite H3, length_app. cbn. lia.
Qed.

Lemma chunk_lengths (size : nat) (pkgs : list string) :
  (1 <= size)%nat ->
  Forall (fun b : list string => (1 <= length b <= size)%nat) (Init.chunk size pkgs).
Proof.
  intros Hsize.
  pose proof (chunkLoop_sizes size pkgs Hsize [] [] (Forall_nil_2 _) ltac:(cbn; lia))
    as (H1 & H2 & _).
  unfold Init.chunk.
  destruct (Init.chunkLoop size pkgs [] []) as [acc batch]. cbn [fst snd] in *.
  assert (Hfull : Forall (fun b : list string => (1 <= length b <= size)%nat) acc).
  { eapply Forall_impl; [exact H1|]. cbn. intros b ->. lia. }
  destruct (Nat.eqb_spec (length batch) 0) as [Hz|Hnz]; [exact Hfull|].
  apply Forall_app. split; [exact Hfull|]. repeat constructor; lia.
Qed.

(** X1. The loop that groups the unscoped names, for any batch size of at
    least one: every batch has at least one name and at most [size], every
    batch but the last has exactly [size], the batches taken in order are
    the names in order, and there are ceil(n / size) of them. *)
Theorem chunk_batches (size : nat) (pkgs : list string) :
  (1 <= size)%nat ->
  Forall (fun b : list string => (1 <= length b <= size)%nat) (Init.chunk size pkgs)
  /\ (forall (i : nat) (b : list string),
        (S i < length (Init.chunk size pkgs))%nat ->
        Init.chunk size pkgs !! i = Some b -> length b = size)
  /\ concat (Init.chunk size pkgs) = pkgs
  /\ length (Init.chunk size pkgs) = ((length pkgs + size - 1) / size)%nat.
Proof.
  intros Hsize.
  pose proof (chunkLoop_sizes size pkgs Hsize [] [] (Forall_nil_2 _) ltac:(cbn; lia))
    as (H1 & H2 & H3).
  pose proof (chunk_concat size pkgs) as Hcat.
  pose proof (chunk_lengths size pkgs Hsize) as Hlen.
  unfold Init.chunk in *.
  destruct (Init.chunkLoop size pkgs [] []) as [acc batch]. cbn [fst snd] in *.
  cbn [length Nat.mul Nat.add] in H3.
  assert (Hfull : Forall (fun b : list string => (1 <= length b <= size)%nat) acc).
  { eapply Forall_impl; [exact H1|]. cbn. intros b ->. lia. }
  clear Hfull.
  destruct (Nat.eqb_spec (length batch) 0) as [Hz|Hnz].
  - split; [exact Hlen|]. split; [|split; [exact Hcat|]].
    + intros i b _ Hi. eapply (proj1 (Forall_lookup _ _) H1). exact Hi.
    + apply (Nat.div_unique _ _ _ (size - 1)); lia.
  - split; [|split; [|split; [exact Hcat|]]].
    + exact Hlen.
    + intros i b Hi Hb. rewrite length_app in Hi. cbn in Hi.
      rewrite lookup_app_l in Hb by lia.
      eapply (proj1 (Forall_lookup _ _) H1). exact Hb.
    + rewrite length_app. cbn [length].
      apply (Nat.div_unique _ _ _ (length batch - 1)); lia.
Qed.

Lemma chunk_batches_witness :
  (1 <= 2)%nat
  /\ concat (Init.chunk 2 ["a"; "b"; "c"; "d"; "e"]) = ["a"; "b"; "c"; "d"; "e"]
  /\ length (Init.chunk 2 ["a"; "b"; "c"; "d"; "e"]) = 3%nat.
Proof.
  split; [lia|].
  destruct (chunk_batches 2 ["a"; "b"; "c"; "d"; "e"] ltac:(lia)) as (_ & _ & H3 & H4).
  split; [exact H3 | exact H4].
Defined.

Lemma Forall_concat_inv {A} (P : A -> Prop) (q : list (list A)) :
  Forall P (concat q) -> Forall (Forall P) q.
Proof.
  induction q as [|b q IH]; cbn; intros H; [constructor|].
  apply Forall_app in H as [Hb Hq]. constructor; [exact Hb | apply IH, Hq].
Qed.

Lemma initialState_bulk (names : list string) :
  Forall bulkBatch (unscopedPackageBatches (Init.initialState names)).
Proof.
  cbn [Init.initialState unscopedPackageBatches].
  set (l := filter (fun n => Init.scoped n = false) _).
  assert (Hun : Forall (Forall (fun name => Init.scoped name = false))
                       (Init.chunk BULK_QUERY_BATCH_SIZE l)).
  { apply Forall_concat_inv. rewrite chunk_concat. subst l.
    apply Forall_forall. intros x Hx. apply list_elem_of_filter in Hx as [Hx _].
    exact Hx. }
  pose proof (chunk_lengths BULK_QUERY_BATCH_SIZE l ltac:(unfold BULK_QUERY_BATCH_SIZE; lia))
    as Hlen.
  apply Forall_forall. intros b Hb. split.
  - exact (proj1 (Forall_forall _ _) Hlen b Hb).
  - exact (proj1 (Forall_forall _ _) Hun b Hb).
Qed.

Lemma initialState_pending (names : list string) (name : string) :
  name ∈ pendingIds (Init.initialState names)
  <-> name ∈ names /\ Init.addressable name = true.
Proof.
  unfold pendingIds.
  assert (Hc : concat (unscopedPackageBatches (Init.initialState names))
               = filter (fun n => Init.scoped n = false)
                        (filter (fun n => Init.addressable n = true) names))
    by apply chunk_concat.
  rewrite Hc. cbn [Init.initialState singlePackages].
  rewrite elem_of_app, !list_elem_of_filter.
  destruct (Init.scoped name); split; intros H.
  - destruct H as [[? ?]|[_ [H1 H2]]]; [discriminate | auto].
  - right. split; [reflexivity | tauto].
  - destruct H as [[_ [H1 H2]]|[? ?]]; [auto | discriminate].
  - left. split; [reflexivity | tauto].
Qed.

(** X2. The state that the initialisation writes: the singles queue holds
    the scoped names among those that pass the filter, in their order; the
    batches taken in order are the unscoped ones, in their order; every
    batch has between 1 and [BULK_QUERY_BATCH_SIZE] names; a name is queued
    exactly when it is in the list and has no [.] or [..] segment. *)
Theorem initial_partition (names : list string) :
  let st := Init.initialState names in
  let kept := filter (fun n => Init.addressable n = true) names in
  singlePackages st = filter (fun n => Init.scoped n = true) kept
  /\ concat (unscopedPackageBatches st) = filter (fun n => Init.scoped n = false) kept
  /\ Forall bulkBatch (unscopedPackageBatches st)
  /\ (forall name : string,
        name ∈ pendingIds st <-> name ∈ names /\ Init.addressable name = true).
Proof.
  intros st kept.
  split; [reflexivity|]. split; [apply chunk_concat|].
  split; [apply initialState_bulk | apply initialState_pending].
Qed.

(** ** The phases, one equation each *)

Lemma buildAndRelease_init (inp : Input) (w : World) :
  stateFile w = None ->
  buildAndRelease inp w
  = mkResult (mkWorld (Some (Init.initialState (names inp))) (mainFile w)
                      (countsFiles w) (npmPublished w))
             (Exit 0) [InitPhase].
Proof.
  destruct w as [sf mf cf np]. cbn [stateFile]. intros ->. reflexivity.
Qed.

Lemma buildAndRelease_noop (inp : Input) (w : World) (st : State) :
  stateFile w = Some st -> published st = true ->
  buildAndRelease inp w = mkResult w (Exit 0) [NoopPhase].
Proof.
  destruct w as [sf mf cf np], st as [n singles batches blocked pub].
  cbn [stateFile published]. intros -> ->. reflexivity.
Qed.

Lemma buildAndRelease_publish (inp : Input) (w : World) (st : State)
      (artifact : gmap string Z) :
  stateFile w = Some st -> published st = false -> mainFile w = Some artifact ->
  buildAndRelease inp w
  = mkResult (mkWorld (Some (setPublished true st)) (mainFile w) (countsFiles w)
                      (npmPublished w ++ [artifact]))
             (Exit 0) [PublishPhase].
Proof.
  destruct w as [sf mf cf np], st as [n singles batches blocked pub].
  cbn [stateFile published mainFile]. intros -> -> ->. reflexivity.
Qed.

Lemma dispatch_cases (w : World) :
  stateFile w = None
  \/ (exists st : State, stateFile w = Some st /\ published st = true)
  \/ (exists (st : State) (artifact : gmap string Z),
        stateFile w = Some st /\ published st = false /\ mainFile w = Some artifact)
  \/ (exists st : State,
        stateFile w = Some st /\ published st = false /\ mainFile w = None
        /\ dispatch w = MergePhase)
  \/ (exists st : State,
        stateFile w = Some st /\ published st = false /\ mainFile w = None
        /\ dispatch w = FetchPhase).
Proof.
  unfold dispatch. destruct (stateFile w) as [st|]; [|auto].
  destruct (published st) eqn:Hpub; [right; left; eauto|].
  destruct (mainFile w) as [artifact|] eqn:Hmain; [right; right; left; eauto 6|].
  cbn [existsSync].
  destruct (unscopedPackageBatches st), (singlePackages st); eauto 10.
Qed.

(** ** What a bulk query carries *)

Lemma bulkBatch_halves (batch : list string) :
  bulkBatch batch -> (3 < length batch)%nat ->
  bulkBatch (take (length batch / 2)%nat batch)
  /\ bulkBatch (drop (length batch / 2)%nat batch).
Proof.
  intros [Hlen Hun] Hbig. pose proof (half_bounds _ Hbig) as Hh.
  split; split.
  - rewrite length_take. lia.
  - apply Forall_take. exact Hun.
  - rewrite length_drop. lia.
  - apply Forall_drop. exact Hun.
Qed.

Lemma splitOrDemote_bulk (batch : list string) (s : State) :
  bulkBatch batch ->
  Forall bulkBatch (unscopedPackageBatches s) ->
  Forall bulkBatch (unscopedPackageBatches (splitOrDemote batch s)).
Proof.
  intros Hb Hs. destruct (Nat.leb_spec (length batch) 3) as [Hle|Hgt].
  - rewrite splitOrDemote_small by exact Hle. exact Hs.
  - rewrite splitOrDemote_large by exact Hgt. cbn [setBatches unscopedPackageBatches].
    destruct (bulkBatch_halves batch Hb Hgt) as [H1 H2].
    apply Forall_app. split; [exact Hs|].
    apply Forall_cons_2; [exact H1|]. apply Forall_cons_2; [exact H2|].
    apply Forall_nil_2.
Qed.

Lemma handle_bulk (w : Work) (r : FetchResult) (m : Mem) :
  bulkWork w ->
  Forall bulkBatch (unscopedPackageBatches (state m)) ->
  Forall bulkBatch (unscopedPackageBatches (state (handle w r m))).
Proof.
  intros Hw Hm.
  assert (Hpush : forall b : list string,
             bulkBatch b ->
             Forall bulkBatch (unscopedPackageBatches (state m) ++ [b])).
  { intros b Hb. apply Forall_app. split; [exact Hm|].
    apply Forall_cons_2; [exact Hb | apply Forall_nil_2]. }
  destruct w as [batch|packageName], r as [|resp];
    cbn [handle fetchCountsForUnscopedBatch fetchCountForSinglePackage bulkWork] in *;
    try case_status; try (destruct (pointDownloads (body resp)));
    cbn [state setState setCounts recordUnexpectedError setBatches setSingles
         setStatus403 unscopedPackageBatches];
    auto using splitOrDemote_bulk.
Qed.

Lemma nextWork_bulk (m : Mem) :
  Forall bulkBatch (unscopedPackageBatches (state m)) ->
  Forall bulkBatch (unscopedPackageBatches (state (fst (nextWork m))))
  /\ forall w : Work, snd (nextWork m) = Some w -> bulkWork w.
Proof.
  intros Hm. unfold nextWork.
  destruct (_ && _); [|split; [exact Hm | discriminate]].
  destruct (pop (unscopedPackageBatches (state m))) as [[rest batch]|] eqn:Eb.
  - apply pop_Some in Eb. rewrite Eb in Hm. apply Forall_app in Hm as [Hrest Hb].
    cbn. split; [exact Hrest|]. intros w [= <-]. cbn.
    exact (Forall_inv Hb).
  - destruct (pop (singlePackages (state m))) as [[rest name]|].
    + cbn. split; [exact Hm|]. intros w [= <-]. exact I.
    + split; [exact Hm | discriminate].
Qed.

Lemma workOf_pcOfNext (next : option Work) (timer : option Z) :
  workOf (mkThread (pcOfNext next) timer) = next.
Proof. destruct next; reflexivity. Qed.

Lemma bulkPool_insert (p : Pool) (m : Mem) (j : nat) (t' : Thread) :
  Forall bulkBatch (unscopedPackageBatches (state m)) ->
  (forall w : Work, workOf t' = Some w -> bulkWork w) ->
  (forall (i : nat) (t : Thread) (w : Work),
     threads p !! i = Some t -> workOf t = Some w -> bulkWork w) ->
  bulkPool (mkPool m (clock p) (<[j := t']> (threads p))).
Proof.
  intros Hm Ht' Hts. split; [exact Hm|]. cbn [threads].
  intros i t w Hi Hw. destruct (decide (i = j)) as [->|Hne].
  - destruct (decide (j < length (threads p))%nat) as [Hlt|Hge].
    + rewrite list_lookup_insert_eq in Hi by exact Hlt. injection Hi as <-.
      apply Ht'. exact Hw.
    + rewrite list_insert_ge in Hi by lia. eapply Hts; eassumption.
  - rewrite list_lookup_insert_ne in Hi by congruence. eapply Hts; eassumption.
Qed.

Lemma bulkPool_resume (j : nat) (p : Pool) :
  bulkPool p -> bulkPool (fst (resume j p)).
Proof.
  intros [Hm Hts]. unfold resume.
  destruct (threads p !! j) as [t|] eqn:Ht; [|split; assumption].
  assert (Hgo : forall w : Work,
             workOf t = Some w ->
             bulkPool (mkPool (mem p) (clock p)
                              (<[j := fst (gate j (clock p) w t (mem p))]> (threads p)))).
  { intros w Hw. apply bulkPool_insert; [exact Hm | | exact Hts].
    unfold gate. destruct (_ >? _); cbn; intros w' [= <-]; eapply Hts; eassumption. }
  destruct (pc t) as [|w|w wake|w] eqn:Hpc; try (split; assumption).
  - destruct (timerDue _ _); [|split; assumption].
    specialize (Hgo w). unfold workOf in Hgo. rewrite Hpc in Hgo.
    specialize (Hgo eq_refl). destruct (gate _ _ _ _ _). exact Hgo.
  - destruct (_ <=? _); [|split; assumption].
    specialize (Hgo w). unfold workOf in Hgo. rewrite Hpc in Hgo.
    specialize (Hgo eq_refl). destruct (gate _ _ _ _ _). exact Hgo.
Qed.

Lemma bulkPool_step (e : Event) (p : Pool) :
  bulkPool p -> bulkPool (fst (step e p)).
Proof.
  intros Hp. destruct (delivered e p) as [[w r]|] eqn:Hd.
  - destruct (delivered_Some _ _ _ _ Hd) as (j & t & -> & Hex & Ht & Hpc).
    rewrite (step_delivered j r p t w Hex Ht Hpc).
    destruct Hp as [Hm Hts].
    assert (Hw : bulkWork w).
    { eapply Hts; [exact Ht|]. unfold workOf. rewrite Hpc. reflexivity. }
    destruct (isRateLimited r).
    + apply bulkPool_insert; [exact Hm | | exact Hts].
      cbn. intros w' [= <-]. exact Hw.
    + cbn zeta. pose proof (handle_bulk w r (mem p) Hw Hm) as Hh.
      destruct (exitCode (handle w r (mem p))); [split; assumption|].
      destruct (nextWork_bulk
                  (setQueriesRemaining (queriesRemaining (handle w r (mem p)) - 1)
                                       (handle w r (mem p))) Hh) as [Hn1 Hn2].
      apply bulkPool_insert; [exact Hn1 | | exact Hts].
      rewrite workOf_pcOfNext. exact Hn2.
  - unfold step, delivered in *.
    destruct (exitCode (mem p)); [exact Hp|].
    destruct e as [dt|j|j r].
    + cbn [fst]. destruct (0 <=? dt); exact Hp.
    + apply bulkPool_resume, Hp.
    + cbn [fst]. unfold respond.
      destruct (threads p !! j) as [t|]; [|exact Hp].
      destruct (pc t); try exact Hp. discriminate.
Qed.

Lemma bulkPool_run (es : list Event) : forall p : Pool,
  bulkPool p -> bulkPool (fst (run es p)).
Proof.
  induction es as [|e es IH]; intros p Hp; [exact Hp|].
  rewrite run_cons. apply IH, bulkPool_step, Hp.
Qed.

Lemma startThreads_bulk (n : nat) : forall m : Mem,
  Forall bulkBatch (unscopedPackageBatches (state m)) ->
  Forall bulkBatch (unscopedPackageBatches (state (fst (startThreads n m))))
  /\ forall (t : Thread) (w : Work),
       t ∈ snd (startThreads n m) -> workOf t = Some w -> bulkWork w.
Proof.
  induction n as [|n IH]; intros m Hm; cbn [startThreads].
  - split; [exact Hm|]. intros t w Hin. apply elem_of_nil in Hin. contradiction.
  - unfold startFetcherThread.
    destruct (nextWork_bulk m Hm) as [H1 H2].
    destruct (nextWork m) as [m1 next]. cbn [fst snd] in *.
    destruct (IH m1 H1) as [I1 I2].
    destruct (startThreads n m1) as [m2 ts]. cbn [fst snd] in *.
    split; [exact I1|]. intros t w Hin Hw.
    apply elem_of_cons in Hin as [->|Hin]; [|eapply I2; eassumption].
    rewrite workOf_pcOfNext in Hw. apply H2. exact Hw.
Qed.

Lemma bulkPool_start (now : Z) (st : State) :
  Forall bulkBatch (unscopedPackageBatches st) -> bulkPool (startPool now st).
Proof.
  intros Hst. unfold startPool.
  destruct (startThreads_bulk MAX_SIMULTANEOUS_REQUESTS (initialMem st) Hst) as [H1 H2].
  destruct (startThreads MAX_SIMULTANEOUS_REQUESTS (initialMem st)) as [m ts].
  cbn [fst snd] in *. split; [exact H1|]. cbn [threads].
  intros j t w Hj Hw. eapply H2; [|exact Hw].
  eapply list_elem_of_lookup_2. exact Hj.
Qed.

(** The unit of work of a call of [fetch] is the one its thread holds. *)
Lemma step_fetch_work (e : Event) (p : Pool) (i : nat) (time : Z) (w : Work) :
  Fetch i time w ∈ snd (step e p) ->
  exists t : Thread, threads p !! i = Some t /\ workOf t = Some w.
Proof.
  unfold step. destruct (exitCode (mem p));
    [intros H; apply elem_of_nil in H; contradiction|].
  destruct e as [dt|j|j r]; cbn [snd];
    try (intros H; apply elem_of_nil in H; contradiction).
  unfold resume. destruct (threads p !! j) as [t|] eqn:Ht;
    [|intros H; apply elem_of_nil in H; contradiction].
  assert (Hg : forall w0 : Work,
             Fetch i time w ∈ snd (gate j (clock p) w0 t (mem p)) -> i = j /\ w = w0).
  { intros w0. unfold gate. destruct (_ >? _); cbn [snd]; intros H.
    - apply elem_of_nil in H. contradiction.
    - apply list_elem_of_singleton in H. injection H as -> _ ->. auto. }
  destruct (pc t) as [|w0|w0 wake|w0] eqn:Hpc;
    try (intros H; apply elem_of_nil in H; contradiction).
  - destruct (timerDue _ _); [|intros H; apply elem_of_nil in H; contradiction].
    specialize (Hg w0). destruct (gate j (clock p) w0 t (mem p)). intros H.
    destruct (Hg H) as [-> ->]. exists t. split; [exact Ht|].
    unfold workOf. rewrite Hpc. reflexivity.
  - destruct (_ <=? _); [|intros H; apply elem_of_nil in H; contradiction].
    specialize (Hg w0). destruct (gate j (clock p) w0 t (mem p)). intros H.
    destruct (Hg H) as [-> ->]. exists t. split; [exact Ht|].
    unfold workOf. rewrite Hpc. reflexivity.
Qed.

Lemma bulkPool_fetch (es : list Event) (p : Pool) (i : nat) (time : Z) (w : Work) :
  bulkPool p -> Fetch i time w ∈ snd (run es p) -> bulkWork w.
Proof.
  intros Hp Hin.
  destruct (run_call_origin es p _ Hin) as (es1 & es2 & e & -> & Hcall).
  destruct (step_fetch_work _ _ _ _ _ Hcall) as (t & Ht & Hw).
  destruct (bulkPool_run es1 p Hp) as [_ Hts]. eapply Hts; eassumption.
Qed.

(** ** The invocations of a cycle, case by case *)

Lemma invocation_cases (inp : Input) (w : World) :
  (stateFile w = None
   /\ world (buildAndRelease inp w)
      = mkWorld (Some (Init.initialState (names inp))) (mainFile w)
                (countsFiles w) (npmPublished w))
  \/ world (buildAndRelease inp w) = w
  \/ (exists (st : State) (artifact : gmap string Z),
        stateFile w = Some st /\ published st = false /\ mainFile w = Some artifact
        /\ world (buildAndRelease inp w)
           = mkWorld (Some (setPublished true st)) (mainFile w) (countsFiles w)
                     (npmPublished w ++ [artifact]))
  \/ (exists (st : State) (merged : gmap string Z),
        stateFile w = Some st /\ published st = false /\ mainFile w = None
        /\ singlePackages st = [] /\ unscopedPackageBatches st = []
        /\ mergeCounts (countsFiles w) (countsFilesSoFar st) = Some merged
        /\ world (buildAndRelease inp w)
           = mkWorld (stateFile w) (Some merged) (countsFiles w) (npmPublished w))
  \/ (exists (st : State) (p : Pool),
        stateFile w = Some st /\ published st = false /\ mainFile w = None
        /\ dispatch w = FetchPhase
        /\ p = fst (run (events inp) (startPool (startTime inp) st))
        /\ exitCode (mem p) = None /\ allFinished p = true
        /\ world (buildAndRelease inp w)
           = mkWorld (Some (setCountsFilesSoFar (S (countsFilesSoFar (state (mem p))))
                                                (state (mem p))))
                     (mainFile w)
                     (<[countsFilesSoFar (state (mem p)) := counts (mem p)]>
                        (countsFiles w))
                     (npmPublished w)).
Proof.
  destruct (dispatch_cases w)
    as [Hn|[(st & Hst & Hpub)|[(st & a & Hst & Hpub & Hmain)
        |[(st & Hst & Hpub & Hmain & Hd)|(st & Hst & Hpub & Hmain & Hd)]]]].
  - left. rewrite (buildAndRelease_init inp w Hn). auto.
  - right; left. rewrite (buildAndRelease_noop inp w st Hst Hpub). reflexivity.
  - right; right; left. exists st, a.
    rewrite (buildAndRelease_publish inp w st a Hst Hpub Hmain). auto.
  - destruct (dispatch_merge w Hd) as (st' & Hst' & _ & _ & Hs & Hb).
    rewrite Hst in Hst'. injection Hst' as <-.
    rewrite (buildAndRelease_merge inp w st Hst Hpub Hmain Hs Hb).
    destruct (mergeCounts (countsFiles w) (countsFilesSoFar st)) as [merged|] eqn:Hm.
    + right; right; right; left. exists st, merged. auto 10.
    + right; left. reflexivity.
  - rewrite (buildAndRelease_fetch inp w st Hst Hd). cbn zeta.
    destruct (exitCode (mem (fst (run (events inp) (startPool (startTime inp) st)))))
      as [c|] eqn:Hex; [right; left; reflexivity|].
    destruct (allFinished (fst (run (events inp) (startPool (startTime inp) st))))
      eqn:Hfin; [|right; left; reflexivity].
    right; right; right; right.
    exists st, (fst (run (events inp) (startPool (startTime inp) st))).
    auto 10.
Qed.

Lemma cycle_invariant (I : World -> Prop) :
  (forall (inp : Input) (w : World), I w -> I (world (buildAndRelease inp w))) ->
  forall (inps : list Input) (w : World), I w -> I (cycle inps w).
Proof.
  intros Hstep inps. induction inps as [|inp rest IH]; intros w Hw; cbn [cycle].
  - exact Hw.
  - apply IH, Hstep, Hw.
Qed.

Lemma requests_invariant (I : World -> Prop) (R : Call -> Prop) :
  (forall (inp : Input) (w : World), I w -> I (world (buildAndRelease inp w))) ->
  (forall (inp : Input) (w : World) (call : Call),
     I w -> call ∈ requestsOf inp w -> R call) ->
  forall (inps : list Input) (w : World) (call : Call),
    I w -> call ∈ requestsInCycle inps w -> R call.
Proof.
  intros Hstep Hreq inps. induction inps as [|inp rest IH]; intros w call Hw Hin;
    cbn [requestsInCycle] in Hin.
  - apply elem_of_nil in Hin. contradiction.
  - apply elem_of_app in Hin as [Hin|Hin].
    + eapply Hreq; eassumption.
    + eapply IH; [|exact Hin]. apply Hstep, Hw.
Qed.

(** ** Where the names of a request come from *)

Lemma occ_elem (x : string) (l : list string) : x ∈ l <-> (0 < occ x l)%nat.
Proof.
  unfold occ. rewrite list_elem_of_In, (count_occ_In string_dec). reflexivity.
Qed.

Lemma run_pending (x : string) (es : list Event) (p : Pool) :
  exitCode (mem (fst (run es p))) = None ->
  (occ x (pendingIds (state (mem (fst (run es p))))) + occ x (held (fst (run es p)))
   <= occ x (pendingIds (state (mem p))) + occ x (held p))%nat.
Proof.
  intros Hlive. pose proof (run_names x es p Hlive) as Hn.
  destruct (run_kept es p) as (_ & more & Hmore).
  unfold tracked in Hn. rewrite !occ_app, Hmore, occ_app in Hn. lia.
Qed.

Lemma startPool_pending (x : string) (now : Z) (st : State) :
  (occ x (pendingIds (state (mem (startPool now st)))) + occ x (held (startPool now st)))%nat
  = occ x (pendingIds st).
Proof.
  unfold startPool, held.
  pose proof (startThreads_names x MAX_SIMULTANEOUS_REQUESTS (initialMem st)) as H.
  destruct (startThreads MAX_SIMULTANEOUS_REQUESTS (initialMem st)) as [m ts].
  cbn [fst snd mem threads initialMem state] in *.
  destruct H as (H1 & _). exact H1.
Qed.

Lemma fetch_live (e : Event) (p : Pool) (call : Call) :
  call ∈ snd (step e p) -> exitCode (mem p) = None.
Proof.
  intros Hin. destruct (exitCode (mem p)) as [c|] eqn:Hex; [|reflexivity].
  rewrite step_exited in Hin by congruence.
  apply elem_of_nil in Hin. contradiction.
Qed.

Lemma fetch_names (now : Z) (st : State) (es : list Event)
      (i : nat) (time : Z) (w : Work) (x : string) :
  Fetch i time w ∈ snd (run es (startPool now st)) ->
  x ∈ idsOf w -> x ∈ pendingIds st.
Proof.
  intros Hin Hx.
  destruct (run_call_origin es _ _ Hin) as (es1 & es2 & e & -> & Hcall).
  destruct (step_fetch_held _ _ _ _ _ Hcall) as (j & t & Ht & Hheld).
  pose proof (fetch_live _ _ _ Hcall) as Hlive.
  pose proof (run_pending x es1 (startPool now st) Hlive) as Hle.
  rewrite startPool_pending in Hle.
  assert (Hh : x ∈ held (fst (run es1 (startPool now st)))).
  { eapply heldBy_in_held; [exact Ht|]. rewrite Hheld. exact Hx. }
  apply occ_elem in Hh. apply occ_elem. lia.
Qed.

Lemma final_pending (now : Z) (st : State) (es : list Event) (x : string) :
  exitCode (mem (fst (run es (startPool now st)))) = None ->
  x ∈ pendingIds (state (mem (fst (run es (startPool now st))))) ->
  x ∈ pendingIds st.
Proof.
  intros Hlive Hx.
  pose proof (run_pending x es (startPool now st) Hlive) as Hle.
  rewrite startPool_pending in Hle.
  apply occ_elem in Hx. apply occ_elem. lia.
Qed.

Lemma queuesWithin_invocation (P : string -> Prop) (inp : Input) (w : World) :
  queuesWithin P w -> queuesWithin P (world (buildAndRelease inp w)).
Proof.
  intros (st & Hst & Hb & Hp).
  destruct (invocation_cases inp w)
    as [[Hn _]|[->|[(st' & a & Hst' & _ & _ & ->)
        |[(st' & merged & Hst' & _ & _ & _ & _ & _ & ->)
         |(st' & p & Hst' & _ & _ & _ & -> & Hex & _ & ->)]]]].
  - congruence.
  - exists st. auto.
  - rewrite Hst in Hst'. injection Hst' as <-.
    exists (setPublished true st). split; [reflexivity|].
    destruct st; cbn in *. auto.
  - exists st. auto.
  - rewrite Hst in Hst'. injection Hst' as <-.
    eexists. split; [reflexivity|].
    set (p := fst (run (events inp) (startPool (startTime inp) st))) in *.
    assert (Hq : Forall bulkBatch (unscopedPackageBatches (state (mem p)))).
    { apply (bulkPool_run (events inp) (startPool (startTime inp) st)).
      apply bulkPool_start, Hb. }
    assert (Hn : forall x : string, x ∈ pendingIds (state (mem p)) -> P x).
    { intros x Hx. apply Hp. eapply final_pending; eassumption. }
    destruct (state (mem p)); cbn in *. auto.
Qed.

Lemma queuesWithin_requests (P : string -> Prop) (inp : Input) (w : World)
      (i : nat) (time : Z) (work : Work) :
  queuesWithin P w -> Fetch i time work ∈ requestsOf inp w ->
  bulkWork work /\ forall x : string, x ∈ idsOf work -> P x.
Proof.
  intros (st & Hst & Hb & Hp). unfold requestsOf. rewrite Hst.
  destruct (dispatch w); try (intros H; apply elem_of_nil in H; contradiction).
  intros Hin. split.
  - eapply bulkPool_fetch; [|exact Hin]. apply bulkPool_start, Hb.
  - intros x Hx. apply Hp. eapply fetch_names; eassumption.
Qed.

(** What a cycle on a fresh branch asks for. *)
Lemma fresh_cycle_requests (inp0 : Input) (inps : list Input) (w : World)
      (i : nat) (time : Z) (work : Work) :
  stateFile w = None ->
  Fetch i time work ∈ requestsInCycle (inp0 :: inps) w ->
  bulkWork work
  /\ forall x : string,
       x ∈ idsOf work -> x ∈ names inp0 /\ Init.addressable x = true.
Proof.
  intros Hfresh Hin. cbn [requestsInCycle] in Hin.
  unfold requestsOf in Hin at 1. rewrite Hfresh in Hin. cbn [app] in Hin.
  rewrite (buildAndRelease_init inp0 w Hfresh) in Hin. cbn [world] in Hin.
  set (P := fun x : string => x ∈ names inp0 /\ Init.addressable x = true).
  apply (requests_invariant
           (queuesWithin P)
           (fun call => match call with
                        | Fetch _ _ work =>
                            bulkWork work /\ forall x : string, x ∈ idsOf work -> P x
                        end)
           (queuesWithin_invocation P)) in Hin.
  - exact Hin.
  - intros inp w' [i' time' work']. apply queuesWithin_requests.
  - eexists. split; [reflexivity|]. split; [apply initialState_bulk|].
    intros x Hx. apply initialState_pending. exact Hx.
Qed.

(** X3. Every bulk query of a release cycle that starts on a branch without
    a state file asks for at least one and at most [BULK_QUERY_BATCH_SIZE]
    names, none of them scoped: the splits and the retries keep the batches
    within what the initialisation built. *)
Theorem bulk_queries_stay_within_the_batch_size
        (inp0 : Input) (inps : list Input) (w : World)
        (i : nat) (time : Z) (batch : list string) :
  stateFile w = None ->
  Fetch i time (BatchWork batch) ∈ requestsInCycle (inp0 :: inps) w ->
  (1 <= length batch <= BULK_QUERY_BATCH_SIZE)%nat
  /\ Forall (fun name => Init.scoped name = false) batch.
Proof.
  intros Hfresh Hin.
  destruct (fresh_cycle_requests inp0 inps w i time _ Hfresh Hin) as [Hb _].
  exact Hb.
Qed.

Lemma bulk_queries_stay_within_the_batch_size_witness :
  (1 <= length ["x"; "y"] <= BULK_QUERY_BATCH_SIZE)%nat
  /\ Forall (fun name => Init.scoped name = false) ["x"; "y"].
Proof.
  apply (bulk_queries_stay_within_the_batch_size
           firstInvocation [secondInvocation] emptyBranch 0%nat 0 ["x"; "y"]).
  - reflexivity.
  - vm_compute. apply list_elem_of_here.
Defined.

(** X4. Every name that a release cycle on a fresh branch asks the API about,
    in a bulk query or alone, is a name of the list that the initialisation
    read, and one that passed its filter. *)
Theorem requested_names_come_from_the_list
        (inp0 : Input) (inps : list Input) (w : World)
        (i : nat) (time : Z) (work : Work) (name : string) :
  stateFile w = None ->
  Fetch i time work ∈ requestsInCycle (inp0 :: inps) w ->
  name ∈ idsOf work ->
  name ∈ names inp0 /\ Init.addressable name = true.
Proof.
  intros Hfresh Hin Hname.
  destruct (fresh_cycle_requests inp0 inps w i time _ Hfresh Hin) as [_ Hn].
  apply Hn, Hname.
Qed.

Lemma requested_names_come_from_the_list_witness :
  "@scope/z" ∈ names firstInvocation /\ Init.addressable "@scope/z" = true.
Proof.
  apply (requested_names_come_from_the_list
           firstInvocation [secondInvocation] emptyBranch 1%nat 0
           (SingleWork "@scope/z") "@scope/z").
  - reflexivity.
  - vm_compute. apply list_elem_of_further, list_elem_of_here.
  - apply list_elem_of_here.
Defined.

(** ** The URL of a request *)

Lemma split_no_sep (sep : ascii) (s : string) :
  Str.includesChar sep s = false -> Str.split sep s = [s].
Proof.
  induction s as [|c s IH]; cbn; [reflexivity|]. intros H.
  apply orb_false_elim in H as [H1 H2]. rewrite H1, (IH H2). reflexivity.
Qed.

Lemma includesChar_app (c : ascii) (s1 s2 : string) :
  Str.includesChar c (s1 ++ s2) = Str.includesChar c s1 || Str.includesChar c s2.
Proof.
  induction s1 as [|d s1 IH]; [reflexivity|].
  change (Str.includesChar c (String d s1 ++ s2))
    with (Ascii.eqb d c || Str.includesChar c (s1 ++ s2)).
  rewrite IH. cbn [Str.includesChar]. rewrite orb_assoc. reflexivity.
Qed.

Lemma join_unscoped (l : list string) :
  Forall (fun name => Init.scoped name = false) l ->
  Str.includesChar "/" (join "," l) = false.
Proof.
  induction l as [|x rest IH]; intros Hl; [reflexivity|].
  apply Forall_cons in Hl as [Hx Hrest]. specialize (IH Hrest).
  destruct rest as [|y rest]; [exact Hx|].
  cbn [join] in *. rewrite !includesChar_app, IH.
  unfold Init.scoped in Hx. rewrite Hx. reflexivity.
Qed.

Lemma join_comma (x y : string) (rest : list string) :
  Str.includesChar "," (join "," (x :: y :: rest)) = true.
Proof.
  cbn [join]. rewrite !includesChar_app. cbn. apply orb_true_r.
Qed.

Lemma comma_not_dots (s : string) :
  Str.includesChar "," s = true -> String.eqb "." s = false /\ String.eqb ".." s = false.
Proof.
  intros H. split.
  - destruct (String.eqb_spec "." s) as [<-|_]; [discriminate | reflexivity].
  - destruct (String.eqb_spec ".." s) as [<-|_]; [discriminate | reflexivity].
Qed.

Lemma url_segments (tail : string) :
  Str.split "/" ("https://api.npmjs.org/downloads/point/" ++ TIME_RANGE ++ "/" ++ tail)
  = ["https:"; ""; "api.npmjs.org"; "downloads"; "point"; "last-month"]
      ++ Str.split "/" tail.
Proof. reflexivity. Qed.

Lemma noDotSegment_tail (tail : string) :
  noDotSegment ("https://api.npmjs.org/downloads/point/" ++ TIME_RANGE ++ "/" ++ tail)
  <-> Str.includes "." (Str.split "/" tail) = false
      /\ Str.includes ".." (Str.split "/" tail) = false.
Proof.
  unfold noDotSegment. rewrite url_segments. unfold Str.includes.
  rewrite !existsb_app. reflexivity.
Qed.

Lemma addressable_segments (name : string) :
  Init.addressable name = true
  <-> Str.includes "." (Str.split "/" name) = false
      /\ Str.includes ".." (Str.split "/" name) = false.
Proof.
  unfold Init.addressable.
  destruct (Str.includes "." _), (Str.includes ".." _); cbn; intuition discriminate.
Qed.

Lemma noDotSegment_batch (batch : list string) :
  Forall (fun name => Init.scoped name = false) batch ->
  Forall (fun name => Init.addressable name = true) batch ->
  noDotSegment (urlOf (BatchWork batch)).
Proof.
  intros Hun Hadd. cbn [urlOf]. apply noDotSegment_tail.
  rewrite (split_no_sep "/" _ (join_unscoped batch Hun)).
  unfold Str.includes. cbn [existsb]. rewrite !orb_false_r.
  destruct batch as [|x [|y rest]].
  - split; reflexivity.
  - cbn [join]. apply Forall_cons in Hun as [Hx _]. apply Forall_cons in Hadd as [Ha _].
    apply addressable_segments in Ha. rewrite (split_no_sep "/" x Hx) in Ha.
    unfold Str.includes in Ha. cbn [existsb] in Ha. rewrite !orb_false_r in Ha.
    exact Ha.
  - apply comma_not_dots, join_comma.
Qed.

(** X5. No request of a release cycle on a fresh branch has a URL with a
    path segment [.] or [..]: the names are those that passed the filter of
    the initialisation, and putting several of them into one bulk query, or
    splitting a batch, brings no such segment back. *)
Theorem request_urls_have_no_dot_segment
        (inp0 : Input) (inps : list Input) (w : World)
        (i : nat) (time : Z) (work : Work) :
  stateFile w = None ->
  Fetch i time work ∈ requestsInCycle (inp0 :: inps) w ->
  noDotSegment (urlOf work).
Proof.
  intros Hfresh Hin.
  destruct (fresh_cycle_requests inp0 inps w i time _ Hfresh Hin) as [Hb Hn].
  destruct work as [batch|packageName].
  - destruct Hb as [_ Hun]. apply noDotSegment_batch; [exact Hun|].
    apply Forall_forall. intros x Hx. exact (proj2 (Hn x Hx)).
  - cbn [urlOf]. apply noDotSegment_tail, addressable_segments.
    apply (Hn packageName). apply list_elem_of_here.
Qed.

Lemma request_urls_have_no_dot_segment_witness :
  noDotSegment "https://api.npmjs.org/downloads/point/last-month/x,y".
Proof.
  apply (request_urls_have_no_dot_segment
           firstInvocation [secondInvocation] emptyBranch 0%nat 0
           (BatchWork ["x"; "y"])).
  - reflexivity.
  - vm_compute. apply list_elem_of_here.
Defined.


(** ** The budget of queries and the threads that are left *)

Lemma active_insert (ts : list Thread) : forall (j : nat) (t t' : Thread),
  ts !! j = Some t ->
  (length (List.filter active (<[j := t']> ts)) + (if active t then 1 else 0)
   = length (List.filter active ts) + (if active t' then 1 else 0))%nat.
Proof.
  induction ts as [|a ts IH]; intros j t t' Hj; [discriminate|].
  destruct j as [|j]; cbn in Hj |- *.
  - injection Hj as ->. destruct (active t), (active t'); cbn; lia.
  - specialize (IH j t t' Hj). destruct (active a); cbn; [f_equal|]; exact IH.
Qed.

Lemma active_insert_same (p : Pool) (j : nat) (t t' : Thread) :
  threads p !! j = Some t -> active t' = active t ->
  nActive (mkPool (mem p) (clock p) (<[j := t']> (threads p))) = nActive p.
Proof.
  intros Hj Ha. unfold nActive. cbn [threads].
  pose proof (active_insert (threads p) j t t' Hj) as H.
  rewrite Ha in H. destruct (active t); lia.
Qed.

Lemma lookup_active (p : Pool) (j : nat) (t : Thread) :
  threads p !! j = Some t -> active t = true -> (1 <= nActive p)%nat.
Proof.
  unfold nActive. generalize (threads p) j. clear p j.
  induction l as [|a ts IH]; intros j Hj Ha; [discriminate|].
  destruct j as [|j]; cbn in Hj |- *.
  - injection Hj as ->. rewrite Ha. cbn. lia.
  - specialize (IH j Hj Ha). destruct (active a); cbn; lia.
Qed.

Lemma allFinished_nActive (p : Pool) : allFinished p = true <-> nActive p = 0%nat.
Proof.
  unfold allFinished, nActive. induction (threads p) as [|t ts IH]; [cbn; tauto|].
  cbn. unfold active at 1. destruct (pc t); cbn; rewrite ?IH; intuition lia.
Qed.

Lemma handle_queries (w : Work) (r : FetchResult) (m : Mem) :
  queriesRemaining (handle w r m) = queriesRemaining m.
Proof.
  destruct w as [batch|packageName], r as [|resp];
    cbn [handle fetchCountsForUnscopedBatch fetchCountForSinglePackage];
    try case_status; try (destruct (pointDownloads (body resp))); reflexivity.
Qed.

Lemma nextWork_budget (m : Mem) :
  queriesRemaining (fst (nextWork m)) = queriesRemaining m
  /\ match snd (nextWork m) with
     | Some _ => 0 <= queriesRemaining m
     | None => fst (nextWork m) = m /\ drained m
     end.
Proof.
  unfold nextWork, drained. cbn zeta.
  destruct (queriesRemaining m >=? 0) eqn:Hq; cbn [andb].
  - rewrite Z.geb_leb in Hq. apply Z.leb_le in Hq.
    destruct (_ || _) eqn:Hc.
    + destruct (pop (unscopedPackageBatches (state m))) as [[rest batch]|] eqn:Eb;
        [cbn; auto|].
      destruct (pop (singlePackages (state m))) as [[rest name]|] eqn:Es; [cbn; auto|].
      apply pop_None in Eb, Es. cbn. auto.
    + apply orb_false_elim in Hc as [Hb Hs].
      apply Nat.ltb_ge in Hb, Hs. cbn. split; [reflexivity|]. split; [reflexivity|].
      right. split; apply length_zero_iff_nil; lia.
  - rewrite Z.geb_leb in Hq. apply Z.leb_gt in Hq. cbn. auto.
Qed.

Lemma drained_nextWork (m : Mem) : drained m -> nextWork m = (m, None).
Proof.
  unfold drained, nextWork. cbn zeta. intros [Hq|[Hb Hs]].
  - destruct (Z.geb_spec (queriesRemaining m) 0) as [Hge|_]; [lia | reflexivity].
  - rewrite Hb, Hs. cbn. rewrite andb_false_r. reflexivity.
Qed.

Lemma resume_active (j : nat) (p : Pool) : nActive (fst (resume j p)) = nActive p.
Proof.
  unfold resume. destruct (threads p !! j) as [t|] eqn:Ht; [|reflexivity].
  assert (Hgo : forall w : Work,
             active t = true ->
             nActive (mkPool (mem p) (clock p)
                             (<[j := fst (gate j (clock p) w t (mem p))]> (threads p)))
             = nActive p).
  { intros w Ha. apply (active_insert_same p j t _ Ht). rewrite Ha.
    unfold gate. destruct (_ >? _); reflexivity. }
  destruct (pc t) as [|w|w wake|w] eqn:Hpc; try reflexivity.
  - destruct (timerDue _ _); [|reflexivity].
    specialize (Hgo w). unfold active in Hgo. rewrite Hpc in Hgo.
    specialize (Hgo eq_refl). destruct (gate _ _ _ _ _). exact Hgo.
  - destruct (_ <=? _); [|reflexivity].
    specialize (Hgo w). unfold active in Hgo. rewrite Hpc in Hgo.
    specialize (Hgo eq_refl). destruct (gate _ _ _ _ _). exact Hgo.
Qed.

Lemma step_idle_active (e : Event) (p : Pool) :
  delivered e p = None -> nActive (fst (step e p)) = nActive p.
Proof.
  intros Hd. unfold step, delivered in *.
  destruct (exitCode (mem p)); [reflexivity|].
  destruct e as [dt|j|j r].
  - cbn [fst]. destruct (0 <=? dt); reflexivity.
  - apply resume_active.
  - cbn [fst]. unfold respond.
    destruct (threads p !! j) as [t|]; [|reflexivity].
    destruct (pc t); try reflexivity. discriminate.
Qed.

(** What one event does to the budget, to the number of threads that are
    left and to the exit code. *)
Lemma step_budget (e : Event) (p : Pool) :
  match delivered e p with
  | Some (w, r) =>
      (1 <= nActive p)%nat
      /\ exitCode (mem p) = None
      /\ match isRateLimited r with
         | Some _ =>
             queriesRemaining (mem (fst (step e p))) = queriesRemaining (mem p)
             /\ nActive (fst (step e p)) = nActive p
             /\ exitCode (mem (fst (step e p))) = None
         | None =>
             (exitCode (mem (fst (step e p))) <> None
              /\ queriesRemaining (mem (fst (step e p))) = queriesRemaining (mem p)
              /\ nActive (fst (step e p)) = nActive p)
             \/ (exitCode (mem (fst (step e p))) = None
                 /\ queriesRemaining (mem (fst (step e p)))
                    = queriesRemaining (mem p) - 1
                 /\ ((0 <= queriesRemaining (mem (fst (step e p)))
                      /\ nActive (fst (step e p)) = nActive p)
                     \/ (S (nActive (fst (step e p))) = nActive p
                         /\ drained (mem (fst (step e p))))))
         end
  | None =>
      mem (fst (step e p)) = mem p /\ nActive (fst (step e p)) = nActive p
  end.
Proof.
  destruct (delivered e p) as [[w r]|] eqn:Hd.
  - destruct (delivered_Some _ _ _ _ Hd) as (j & t & -> & Hex & Ht & Hpc).
    assert (Ha : active t = true) by (unfold active; rewrite Hpc; reflexivity).
    split; [exact (lookup_active p j t Ht Ha)|]. split; [exact Hex|].
    rewrite (step_delivered j r p t w Hex Ht Hpc).
    destruct (isRateLimited r) as [resp|].
    + cbn [mem onRateLimited queriesRemaining exitCode]. split; [reflexivity|].
      split; [|exact Hex].
      apply (active_insert_same p j t _ Ht). rewrite Ha. reflexivity.
    + cbn zeta. pose proof (handle_queries w r (mem p)) as Hq1.
      destruct (exitCode (handle w r (mem p))) as [c|] eqn:Hex1.
      * left. cbn [mem]. rewrite Hex1. split; [discriminate|]. split; [exact Hq1|].
        reflexivity.
      * right.
        set (m2 := setQueriesRemaining (queriesRemaining (handle w r (mem p)) - 1)
                                       (handle w r (mem p))) in *.
        destruct (nextWork_budget m2) as [Hq2 Hnext].
        pose proof (nextWork_names "" m2) as (_ & _ & _ & _ & _ & _ & _ & _ & Hex2).
        cbn [mem]. rewrite Hex2, Hq2. cbn [m2 setQueriesRemaining exitCode queriesRemaining].
        split; [exact Hex1|]. split; [lia|].
        unfold nActive. cbn [threads].
        pose proof (active_insert
                      (threads p) j t
                      (mkThread (pcOfNext (snd (nextWork m2))) (throttlingWait t)) Ht)
          as H.
        rewrite Ha in H. destruct (snd (nextWork m2)) as [w'|].
        -- left. change (active _) with true in H. cbn in H |- *.
           unfold m2 in Hnext. cbn [setQueriesRemaining queriesRemaining] in Hnext.
           split; lia.
        -- right. change (active _) with false in H. cbn in H |- *. split; [lia|].
           destruct Hnext as [-> Hdr]. exact Hdr.
  - split; [exact (proj1 (step_not_delivered e p Hd)) | exact (step_idle_active e p Hd)].
Qed.

Lemma answersHandled_exited (es : list Event) (p : Pool) :
  exitCode (mem p) <> None -> answersHandled es p = 0%nat.
Proof.
  intros Hex. induction es as [|e es IH]; [reflexivity|].
  cbn [answersHandled]. rewrite (step_exited p e Hex). cbn [fst]. rewrite IH.
  unfold answerHandled, delivered. destruct (exitCode (mem p)); [reflexivity | congruence].
Qed.

Lemma run_budget (es : list Event) : forall p : Pool,
  Z.of_nat (answersHandled es p)
  <= Z.max (queriesRemaining (mem p)) 0 + Z.of_nat (nActive p).
Proof.
  induction es as [|e es IH]; intros p; [cbn; lia|].
  cbn [answersHandled]. specialize (IH (fst (step e p))).
  pose proof (step_budget e p) as Hs. unfold answerHandled.
  destruct (delivered e p) as [[w r]|].
  - destruct Hs as (Ha & _ & Hs). destruct (isRateLimited r).
    + destruct Hs as (Hq & Hn & _). rewrite Hq, Hn in IH. lia.
    + destruct Hs as [(Hex & _ & _)|(_ & Hq & [[Hq0 Hn]|[Hn _]])].
      * rewrite (answersHandled_exited es _ Hex). lia.
      * rewrite Hn in IH. lia.
      * lia.
  - destruct Hs as [Hm Hn]. rewrite Hm, Hn in IH. lia.
Qed.

Lemma run_queries (es : list Event) : forall p : Pool,
  queriesRemaining (mem (fst (run es p)))
  = queriesRemaining (mem p) - Z.of_nat (answersHandled es p)
    + exited (mem (fst (run es p))) - exited (mem p).
Proof.
  induction es as [|e es IH]; intros p; [cbn; lia|].
  rewrite run_cons, IH. cbn [answersHandled].
  pose proof (step_budget e p) as Hs. unfold answerHandled.
  assert (Hx : forall m : Mem, exitCode m = None -> exited m = 0)
    by (intros m Hm; unfold exited; rewrite Hm; reflexivity).
  destruct (delivered e p) as [[w r]|].
  - destruct Hs as (_ & Hex & Hs). rewrite (Hx _ Hex). destruct (isRateLimited r).
    + destruct Hs as (Hq & _ & Hex'). rewrite (Hx _ Hex'). lia.
    + destruct Hs as [(Hex' & Hq & _)|(Hex' & Hq & _)].
      * rewrite run_exited by exact Hex'. cbn [fst].
        rewrite (answersHandled_exited es _ Hex').
        assert (Hx1 : exited (mem (fst (step e p))) = 1)
          by (unfold exited; destruct (exitCode (mem (fst (step e p))));
              [reflexivity | congruence]).
        lia.
      * rewrite (Hx _ Hex'). lia.
  - destruct Hs as [Hm _]. rewrite Hm. lia.
Qed.

Lemma run_active (es : list Event) : forall p : Pool,
  (nActive (fst (run es p)) <= nActive p)%nat.
Proof.
  induction es as [|e es IH]; intros p; [cbn; lia|].
  rewrite run_cons. specialize (IH (fst (step e p))).
  pose proof (step_budget e p) as Hs.
  destruct (delivered e p) as [[w r]|].
  - destruct Hs as (_ & _ & Hs). destruct (isRateLimited r).
    + destruct Hs as (_ & Hn & _). lia.
    + destruct Hs as [(_ & _ & Hn)|(_ & _ & [[_ Hn]|[Hn _]])]; lia.
  - destruct Hs as [_ Hn]. lia.
Qed.

Lemma startThreads_budget (n : nat) : forall m : Mem,
  queriesRemaining (fst (startThreads n m)) = queriesRemaining m
  /\ length (snd (startThreads n m)) = n.
Proof.
  induction n as [|n IH]; intros m; cbn [startThreads]; [auto|].
  unfold startFetcherThread.
  destruct (nextWork_budget m) as [Hq _].
  destruct (nextWork m) as [m1 next]. cbn [fst] in Hq.
  specialize (IH m1). destruct (startThreads n m1) as [m2 ts]. cbn [fst snd] in *.
  destruct IH as [IH1 IH2]. split; [lia | cbn; lia].
Qed.

Lemma startPool_budget (now : Z) (st : State) :
  queriesRemaining (mem (startPool now st)) = QUERIES_PER_RUN
  /\ length (threads (startPool now st)) = MAX_SIMULTANEOUS_REQUESTS
  /\ (nActive (startPool now st) <= MAX_SIMULTANEOUS_REQUESTS)%nat
  /\ exitCode (mem (startPool now st)) = None.
Proof.
  unfold startPool, nActive.
  pose proof (startThreads_budget MAX_SIMULTANEOUS_REQUESTS (initialMem st)) as [Hq Hl].
  pose proof (startThreads_names "" MAX_SIMULTANEOUS_REQUESTS (initialMem st))
    as (_ & _ & _ & _ & _ & _ & Hex).
  destruct (startThreads MAX_SIMULTANEOUS_REQUESTS (initialMem st)) as [m ts].
  cbn [fst snd mem threads] in *. split; [exact Hq|]. split; [exact Hl|].
  split; [|exact Hex]. rewrite <- Hl. apply filter_length_le.
Qed.

Lemma exit_needs_an_answer (es : list Event) : forall p : Pool,
  exitCode (mem p) = None -> exitCode (mem (fst (run es p))) <> None ->
  (1 <= answersHandled es p)%nat.
Proof.
  induction es as [|e es IH]; intros p Hex Hfin; [cbn in Hfin; congruence|].
  cbn [answersHandled]. rewrite run_cons in Hfin.
  pose proof (step_budget e p) as Hs. unfold answerHandled.
  destruct (delivered e p) as [[w r]|].
  - destruct Hs as (_ & _ & Hs). destruct (isRateLimited r); [|lia].
    destruct Hs as (_ & _ & Hex'). specialize (IH _ Hex' Hfin). lia.
  - destruct Hs as [Hm _]. rewrite <- Hm in Hex. specialize (IH _ Hex Hfin). lia.
Qed.

(** X7. The budget of queries of one run. Whatever happens in the pool
    started on a state, [queriesRemaining] is [QUERIES_PER_RUN] less the
    number of answers that have reached a handler (the answer on which the
    process exits is not counted down); the handlers take at most
    [QUERIES_PER_RUN + MAX_SIMULTANEOUS_REQUESTS] answers, so the counter
    never goes below [- MAX_SIMULTANEOUS_REQUESTS]; and the pool has its
    [MAX_SIMULTANEOUS_REQUESTS] threads throughout. *)
Theorem query_budget_is_overshot_by_at_most_the_threads
        (now : Z) (st : State) (es : list Event) :
  let p0 := startPool now st in
  let p := fst (run es p0) in
  queriesRemaining (mem p)
  = QUERIES_PER_RUN - Z.of_nat (answersHandled es p0) + exited (mem p)
  /\ Z.of_nat (answersHandled es p0)
     <= QUERIES_PER_RUN + Z.of_nat MAX_SIMULTANEOUS_REQUESTS
  /\ - Z.of_nat MAX_SIMULTANEOUS_REQUESTS <= queriesRemaining (mem p)
     <= QUERIES_PER_RUN.
Proof.
  intros p0 p. subst p.
  destruct (startPool_budget now st) as (Hq & _ & Hn & Hex). fold p0 in Hq, Hn, Hex.
  pose proof (run_queries es p0) as Hrun.
  pose proof (run_budget es p0) as Hb.
  assert (H0 : exited (mem p0) = 0) by (unfold exited; rewrite Hex; reflexivity).
  assert (H1 : 0 <= exited (mem (fst (run es p0))) <= 1)
    by (unfold exited; destruct (exitCode (mem (fst (run es p0)))); lia).
  rewrite Hq in *. rewrite H0 in Hrun. unfold QUERIES_PER_RUN in *.
  split; [lia|]. split; [lia|].
  split; [lia|].
  destruct (exitCode (mem (fst (run es p0)))) as [c|] eqn:Hfin;
    [|unfold exited in *; rewrite Hfin in *; lia].
  pose proof (exit_needs_an_answer es p0 Hex ltac:(congruence)). lia.
Qed.

(** ** Threads whose loop has ended *)

Lemma step_finished (e : Event) (p : Pool) (j : nat) (t : Thread) :
  threads p !! j = Some t -> pc t = Finished ->
  threads (fst (step e p)) !! j = Some t.
Proof.
  intros Ht Hpc. unfold step. destruct (exitCode (mem p)); [exact Ht|].
  destruct e as [dt|i|i r]; cbn [fst].
  - destruct (0 <=? dt); exact Ht.
  - unfold resume. destruct (threads p !! i) as [t0|] eqn:Hi; [|exact Ht].
    destruct (decide (i = j)) as [->|Hne].
    + rewrite Ht in Hi. injection Hi as <-. rewrite Hpc. exact Ht.
    + destruct (pc t0); try exact Ht.
      * destruct (timerDue _ _); [|exact Ht]. destruct (gate _ _ _ _ _) as [t' calls].
        cbn [fst threads]. rewrite list_lookup_insert_ne by exact Hne. exact Ht.
      * destruct (_ <=? _); [|exact Ht]. destruct (gate _ _ _ _ _) as [t' calls].
        cbn [fst threads]. rewrite list_lookup_insert_ne by exact Hne. exact Ht.
  - unfold respond. destruct (threads p !! i) as [t0|] eqn:Hi; [|exact Ht].
    destruct (decide (i = j)) as [->|Hne].
    + rewrite Ht in Hi. injection Hi as <-. rewrite Hpc. exact Ht.
    + destruct (pc t0); try exact Ht.
      destruct (isRateLimited r).
      * cbn [threads]. rewrite list_lookup_insert_ne by exact Hne. exact Ht.
      * cbn zeta. destruct (exitCode _); [exact Ht|].
        destruct (nextWork _) as [m3 next].
        cbn [threads]. rewrite list_lookup_insert_ne by exact Hne. exact Ht.
Qed.

Lemma run_finished (es : list Event) : forall (p : Pool) (j : nat) (t : Thread),
  threads p !! j = Some t -> pc t = Finished ->
  threads (fst (run es p)) !! j = Some t.
Proof.
  induction es as [|e es IH]; intros p j t Ht Hpc; [exact Ht|].
  rewrite run_cons. apply IH; [|exact Hpc]. apply step_finished; assumption.
Qed.

(** X8. A thread whose loop has ended is gone for the rest of the run: it
    stays as it is and calls [fetch] no more, also when another thread
    splits a batch or queues a unit again; so the number of threads at work
    never grows. *)
Theorem finished_threads_take_no_more_work
        (es : list Event) (p : Pool) (j : nat) (t : Thread) :
  threads p !! j = Some t -> pc t = Finished ->
  threads (fst (run es p)) !! j = Some t
  /\ (forall (i : nat) (time : Z) (w : Work),
        Fetch i time w ∈ snd (run es p) -> i <> j)
  /\ (nActive (fst (run es p)) <= nActive p)%nat.
Proof.
  intros Ht Hpc. split; [apply run_finished; assumption|].
  split; [|apply run_active].
  intros i time w Hin ->.
  destruct (run_call_origin es p _ Hin) as (es1 & es2 & e & -> & Hcall).
  destruct (step_fetch_work _ _ _ _ _ Hcall) as (t' & Ht' & Hw).
  rewrite (run_finished es1 p j t Ht Hpc) in Ht'. injection Ht' as <-.
  unfold workOf in Hw. rewrite Hpc in Hw. discriminate.
Qed.

Lemma finished_threads_take_no_more_work_witness :
  let p := startPool 0 (mkState 0 [] [["a"; "b"; "c"; "d"]] [] false) in
  let es := [Resume 0%nat; Respond 0%nat (Answer blocked403); Resume 1%nat;
             Tick 500; Resume 0%nat] in
  unscopedPackageBatches (state (mem (fst (run es p)))) = [["a"; "b"]]
  /\ threads (fst (run es p)) !! 1%nat = Some (mkThread Finished None)
  /\ (nActive (fst (run es p)) <= nActive p)%nat.
Proof.
  intros p es. split; [reflexivity|].
  destruct (finished_threads_take_no_more_work es p 1 (mkThread Finished None))
    as (H1 & _ & H3); [reflexivity | reflexivity |].
  split; [exact H1 | exact H3].
Defined.

(** ** When a run of the pool is over *)

Lemma step_idle (e : Event) (p : Pool) :
  (allFinished p = true -> drained (mem p)) ->
  allFinished (fst (step e p)) = true -> drained (mem (fst (step e p))).
Proof.
  intros Hp Hfin. apply allFinished_nActive in Hfin.
  pose proof (step_budget e p) as Hs.
  destruct (delivered e p) as [[w r]|].
  - destruct Hs as (Ha & _ & Hs). destruct (isRateLimited r).
    + destruct Hs as (_ & Hn & _). lia.
    + destruct Hs as [(_ & _ & Hn)|(_ & _ & [[_ Hn]|[_ Hdr]])]; [lia | lia | exact Hdr].
  - destruct Hs as [Hm Hn]. rewrite Hm. apply Hp, allFinished_nActive. lia.
Qed.

Lemma run_idle (es : list Event) : forall p : Pool,
  (allFinished p = true -> drained (mem p)) ->
  allFinished (fst (run es p)) = true -> drained (mem (fst (run es p))).
Proof.
  induction es as [|e es IH]; intros p Hp; [exact Hp|].
  rewrite run_cons. apply IH, step_idle, Hp.
Qed.

Lemma startThreads_drained (n : nat) (m : Mem) :
  drained m -> fst (startThreads n m) = m.
Proof.
  intros Hd. induction n as [|n IH]; [reflexivity|].
  cbn [startThreads]. unfold startFetcherThread.
  rewrite (drained_nextWork m Hd).
  destruct (startThreads n m) as [m2 ts]. exact IH.
Qed.

Lemma startThreads_idle (n : nat) (m : Mem) :
  forallb (fun t => match pc t with Finished => true | _ => false end)
          (snd (startThreads (S n) m)) = true ->
  drained (fst (startThreads (S n) m)).
Proof.
  cbn [startThreads]. unfold startFetcherThread.
  destruct (nextWork_budget m) as [_ Hnext].
  destruct (nextWork m) as [m1 [w|]]; cbn [snd fst] in Hnext.
  - destruct (startThreads n m1) as [m2 ts]. cbn. discriminate.
  - destruct Hnext as [-> Hd]. pose proof (startThreads_drained n _ Hd) as H.
    destruct (startThreads n m) as [m2 ts]. cbn [fst] in *. subst m2.
    intros _. exact Hd.
Qed.

Lemma startPool_idle (now : Z) (st : State) :
  allFinished (startPool now st) = true -> drained (mem (startPool now st)).
Proof.
  unfold startPool, allFinished.
  pose proof (startThreads_idle 19 (initialMem st)) as H.
  change (S 19) with MAX_SIMULTANEOUS_REQUESTS in H.
  destruct (startThreads MAX_SIMULTANEOUS_REQUESTS (initialMem st)) as [m ts].
  exact H.
Qed.

Lemma step_published (e : Event) (p : Pool) :
  published (state (mem (fst (step e p)))) = published (state (mem p)).
Proof.
  destruct (delivered e p) as [[w r]|] eqn:Hd.
  - destruct (delivered_Some _ _ _ _ Hd) as (j & t & -> & Hex & Ht & Hpc).
    rewrite (step_delivered j r p t w Hex Ht Hpc).
    destruct (isRateLimited r); [reflexivity|]. cbn zeta.
    destruct (handle_kept w r (mem p)) as (_ & Hpub & _).
    destruct (exitCode (handle w r (mem p))); [exact Hpub|].
    cbn [mem].
    pose proof (nextWork_names
                  "" (setQueriesRemaining (queriesRemaining (handle w r (mem p)) - 1)
                                          (handle w r (mem p))))
      as (_ & _ & _ & H4 & _).
    rewrite H4. exact Hpub.
  - rewrite (proj1 (step_not_delivered e p Hd)). reflexivity.
Qed.

Lemma run_published (es : list Event) : forall p : Pool,
  published (state (mem (fst (run es p)))) = published (state (mem p)).
Proof.
  induction es as [|e es IH]; intros p; [reflexivity|].
  rewrite run_cons, IH. apply step_published.
Qed.

Lemma startThreads_published (n : nat) : forall m : Mem,
  published (state (fst (startThreads n m))) = published (state m).
Proof.
  induction n as [|n IH]; intros m; cbn [startThreads]; [reflexivity|].
  unfold startFetcherThread.
  pose proof (nextWork_names "" m) as (_ & _ & _ & H4 & _).
  destruct (nextWork m) as [m1 next]. cbn [fst] in H4.
  specialize (IH m1). destruct (startThreads n m1) as [m2 ts]. cbn [fst] in *.
  congruence.
Qed.

Lemma startPool_published (now : Z) (st : State) :
  published (state (mem (startPool now st))) = published st.
Proof.
  unfold startPool.
  pose proof (startThreads_published MAX_SIMULTANEOUS_REQUESTS (initialMem st)) as H.
  destruct (startThreads MAX_SIMULTANEOUS_REQUESTS (initialMem st)) as [m ts].
  exact H.
Qed.

(** X9. A fetch phase that runs to its end either leaves both queues empty,
    so that the next invocation merges the counts files, or has handled
    more than [QUERIES_PER_RUN] answers. *)
Theorem completed_fetch_empties_the_queues_or_spends_the_budget
        (inp : Input) (w : World) (st : State) :
  stateFile w = Some st -> dispatch w = FetchPhase ->
  exitCode (mem (fst (run (events inp) (startPool (startTime inp) st)))) = None ->
  allFinished (fst (run (events inp) (startPool (startTime inp) st))) = true ->
  dispatch (world (buildAndRelease inp w)) = MergePhase
  \/ QUERIES_PER_RUN
     < Z.of_nat (answersHandled (events inp) (startPool (startTime inp) st)).
Proof.
  intros Hst Hd Hex Hfin.
  destruct (dispatch_fetch w Hd) as (st' & Hst' & Hpub & Hmain & _).
  rewrite Hst in Hst'. injection Hst' as <-.
  rewrite (buildAndRelease_fetch inp w st Hst Hd). cbn zeta. rewrite Hex, Hfin.
  set (p0 := startPool (startTime inp) st) in *.
  pose proof (run_idle (events inp) p0 (startPool_idle _ _) Hfin) as [Hq|[Hb Hs]].
  - right. pose proof (run_queries (events inp) p0) as Hrun.
    destruct (startPool_budget (startTime inp) st) as (Hq0 & _ & _ & Hex0).
    fold p0 in Hq0, Hex0. unfold exited in Hrun. rewrite Hex, Hex0, Hq0 in Hrun. lia.
  - left. unfold dispatch. cbn [world stateFile mainFile].
    pose proof (run_published (events inp) p0) as Hp.
    unfold p0 in Hp at 2. rewrite startPool_published, Hpub in Hp.
    destruct (state (mem (fst (run (events inp) p0)))) as [n singles batches blocked pub].
    cbn in *. subst. rewrite Hmain. reflexivity.
Qed.

Lemma completed_fetch_empties_the_queues_or_spends_the_budget_witness :
  let w := world (buildAndRelease firstInvocation emptyBranch) in
  dispatch (world (buildAndRelease secondInvocation w)) = MergePhase
  \/ QUERIES_PER_RUN
     < Z.of_nat (answersHandled (events secondInvocation)
                                (startPool 0 (Init.initialState (names firstInvocation)))).
Proof.
  intros w.
  apply (completed_fetch_empties_the_queues_or_spends_the_budget
           secondInvocation w (Init.initialState (names firstInvocation)));
    reflexivity.
Defined.

(** ** The retry deadline *)

Lemma step_deadline (e : Event) (p : Pool) :
  retryAfterTimestampMs (mem (fst (step e p))) = retryAfterTimestampMs (mem p)
  \/ (rateLimitDelivered e p = 1%nat
      /\ retryAfterTimestampMs (mem p) < retryAfterTimestampMs (mem (fst (step e p)))).
Proof.
  unfold rateLimitDelivered.
  destruct (delivered e p) as [[w r]|] eqn:Hd.
  - destruct (delivered_Some _ _ _ _ Hd) as (j & t & -> & Hex & Ht & Hpc).
    rewrite (step_delivered j r p t w Hex Ht Hpc).
    destruct (isRateLimited r) as [resp|] eqn:Hr.
    + cbn [mem onRateLimited retryAfterTimestampMs].
      destruct (Z.max_spec (retryAfterTimestampMs (mem p))
                           (retryDelayMs (retryAfterHeader resp) + clock p))
        as [[Hlt ->]|[_ ->]]; [right; auto | left; reflexivity].
    + left. cbn zeta.
      destruct (handle_errors w r (mem p) Hr) as (_ & _ & Hd1 & _).
      destruct (exitCode (handle w r (mem p))); [exact Hd1|].
      cbn [mem].
      pose proof (nextWork_names
                    "" (setQueriesRemaining (queriesRemaining (handle w r (mem p)) - 1)
                                            (handle w r (mem p))))
        as (_ & _ & _ & _ & _ & _ & _ & H8 & _).
      rewrite H8. exact Hd1.
  - left. rewrite (proj1 (step_not_delivered e p Hd)). reflexivity.
Qed.

(** X10. The shared retry deadline never moves back, and only an answer 429
    moves it: after any events it is where it was, or it is later and a 429
    has been delivered. *)
Theorem retry_deadline_moves_only_forward_and_only_on_429
        (es : list Event) (p : Pool) :
  retryAfterTimestampMs (mem (fst (run es p))) = retryAfterTimestampMs (mem p)
  \/ ((0 < rateLimitsSeen es p)%nat
      /\ retryAfterTimestampMs (mem p) < retryAfterTimestampMs (mem (fst (run es p)))).
Proof.
  revert p. induction es as [|e es IH]; intros p; [left; reflexivity|].
  rewrite run_cons. cbn [rateLimitsSeen].
  destruct (step_deadline e p) as [He|[Hn He]];
    destruct (IH (fst (step e p))) as [Hr|[Hm Hr]].
  - left. congruence.
  - right. split; lia.
  - right. split; lia.
  - right. split; lia.
Qed.

(** ** A unit of work that fails *)

Lemma unexpected_handle (w : Work) (r : FetchResult) (m : Mem) :
  unexpected w r = true ->
  handle w r m
  = recordUnexpectedError
      (setState match w with
                | BatchWork batch =>
                    setBatches (unscopedPackageBatches (state m) ++ [batch]) (state m)
                | SingleWork packageName =>
                    setSingles (singlePackages (state m) ++ [packageName]) (state m)
                end m).
Proof.
  destruct w as [batch|packageName], r as [|resp];
    cbn [handle fetchCountsForUnscopedBatch fetchCountForSinglePackage unexpected];
    try reflexivity.
  - destruct (status resp =? 200), (status resp =? 400), (status resp =? 403);
      cbn; intros H; try discriminate; reflexivity.
  - destruct (status resp =? 200), (status resp =? 403), (status resp =? 404);
      cbn; intros H; try discriminate; reflexivity.
Qed.

(** X11. A unit of work whose request fails, or is answered with a status
    that the handler has no case for, is taken again at once by the same
    thread: below the ceiling of errors and with budget left, the state is
    as it was before the answer, one error is counted and one query is
    spent. A single package comes back this way when no batch is queued. *)
Theorem failed_unit_is_retried_at_once
        (p : Pool) (j : nat) (t : Thread) (w : Work) (r : FetchResult) :
  exitCode (mem p) = None ->
  threads p !! j = Some t -> pc t = InFlight w ->
  isRateLimited r = None -> unexpected w r = true ->
  (S (nRequestErrors (mem p)) < MAX_REQUEST_ERRORS)%nat ->
  1 <= queriesRemaining (mem p) ->
  (forall name : string, w = SingleWork name ->
                         unscopedPackageBatches (state (mem p)) = []) ->
  let p' := fst (step (Respond j r) p) in
  state (mem p') = state (mem p)
  /\ threads p' = <[j := mkThread (AwaitThrottle w) (throttlingWait t)]> (threads p)
  /\ nRequestErrors (mem p') = S (nRequestErrors (mem p))
  /\ queriesRemaining (mem p') = queriesRemaining (mem p) - 1
  /\ exitCode (mem p') = None.
Proof.
  intros Hex Ht Hpc Hr Hun Herr Hq Hsingle p'. subst p'.
  rewrite (step_delivered j r p t w Hex Ht Hpc), Hr. cbn zeta.
  rewrite (unexpected_handle w r (mem p) Hun).
  destruct p as [m now ts]. cbn [mem threads clock] in *.
  destruct m as [st c q deadline limited n ex]. cbn in Hex, Herr, Hq, Hsingle. subst ex.
  destruct st as [k singles batches blocked pub].
  unfold recordUnexpectedError, nextWork.
  destruct w as [batch|packageName].
  - cbn [state counts queriesRemaining retryAfterTimestampMs gotRateLimited
         nRequestErrors exitCode setState setQueriesRemaining singlePackages
         unscopedPackageBatches setBatches mem threads].
    destruct (Nat.leb_spec MAX_REQUEST_ERRORS (S n)) as [Hle|_]; [lia|].
    cbn [state counts queriesRemaining retryAfterTimestampMs gotRateLimited
         nRequestErrors exitCode setState setQueriesRemaining singlePackages
         unscopedPackageBatches setBatches mem threads].
    destruct (Z.geb_spec (q - 1) 0) as [_|Hlt]; [|lia].
    rewrite pop_app, length_app. cbn [length].
    replace (0 <? length batches + 1)%nat with true
      by (symmetry; apply Nat.ltb_lt; lia).
    cbn. auto.
  - cbn [unscopedPackageBatches] in Hsingle.
    rewrite (Hsingle packageName eq_refl).
    cbn [state counts queriesRemaining retryAfterTimestampMs gotRateLimited
         nRequestErrors exitCode setState setQueriesRemaining singlePackages
         unscopedPackageBatches setSingles mem threads].
    destruct (Nat.leb_spec MAX_REQUEST_ERRORS (S n)) as [Hle|_]; [lia|].
    cbn [state counts queriesRemaining retryAfterTimestampMs gotRateLimited
         nRequestErrors exitCode setState setQueriesRemaining singlePackages
         unscopedPackageBatches setSingles mem threads].
    destruct (Z.geb_spec (q - 1) 0) as [_|Hlt]; [|lia].
    rewrite pop_app, length_app. cbn [length].
    replace (0 <? length singles + 1)%nat with true
      by (symmetry; apply Nat.ltb_lt; lia).
    cbn. auto.
Qed.

Lemma failed_unit_is_retried_at_once_witness :
  let p := inFlightPool 0 ["a"; "b"] in
  let p' := fst (step (Respond 0%nat NetworkError) p) in
  state (mem p') = state (mem p)
  /\ threads p' = [mkThread (AwaitThrottle (BatchWork ["a"; "b"])) (Some 500)]
  /\ nRequestErrors (mem p') = 1%nat
  /\ queriesRemaining (mem p') = QUERIES_PER_RUN - 1
  /\ exitCode (mem p') = None.
Proof.
  intros p.
  apply (failed_unit_is_retried_at_once
           p 0 (mkThread (InFlight (BatchWork ["a"; "b"])) (Some 500))
           (BatchWork ["a"; "b"]) NetworkError); try reflexivity.
  - vm_compute. lia.
  - vm_compute. discriminate.
Defined.

(** ** The release at the end of a cycle *)

(** X12. In a release cycle [npm publish] runs at most once, whatever the
    branch holds at the start: after any invocations either nothing new has
    been published, or exactly one file has, it is the file named by
    [pkg.main], and the state records the publication. *)
Theorem npm_publish_runs_at_most_once (inps : list Input) (w : World) :
  npmPublished (cycle inps w) = npmPublished w
  \/ exists (st : State) (artifact : gmap string Z),
       stateFile (cycle inps w) = Some st /\ published st = true
       /\ mainFile (cycle inps w) = Some artifact
       /\ npmPublished (cycle inps w) = npmPublished w ++ [artifact].
Proof.
  apply (cycle_invariant
           (fun w' =>
              npmPublished w' = npmPublished w
              \/ exists (st : State) (artifact : gmap string Z),
                   stateFile w' = Some st /\ published st = true
                   /\ mainFile w' = Some artifact
                   /\ npmPublished w' = npmPublished w ++ [artifact]));
    [|left; reflexivity].
  clear inps. intros inp w' [H|(st & a & Hst & Hpub & Hmain & Hnpm)];
    destruct (invocation_cases inp w')
      as [[Hn ->]|[->|[(st' & a' & Hst' & Hpub' & Hmain' & ->)
          |[(st' & merged & Hst' & Hpub' & _ & _ & _ & _ & ->)
           |(st' & p & Hst' & Hpub' & _ & _ & _ & _ & _ & ->)]]]];
    cbn [npmPublished stateFile mainFile]; try (left; exact H);
    try (right; exists st, a; auto; fail); try congruence.
  right. exists (setPublished true st'), a'.
  split; [reflexivity|]. split; [destruct st'; reflexivity|].
  split; [exact Hmain'|]. rewrite H. reflexivity.
Qed.

(** X13. What a release cycle publishes is the merge of the counts files.
    On a branch where the file named by [pkg.main] does not exist yet, a
    file published later is that of a state with both queues empty, and it
    is what the merge of the counts files of the branch gives. *)
Theorem published_file_is_the_merge_of_the_counts_files
        (inps : list Input) (w : World) :
  mainFile w = None ->
  npmPublished (cycle inps w) = npmPublished w
  \/ exists (st : State) (artifact : gmap string Z),
       stateFile (cycle inps w) = Some st
       /\ singlePackages st = [] /\ unscopedPackageBatches st = []
       /\ mergeCounts (countsFiles (cycle inps w)) (countsFilesSoFar st) = Some artifact
       /\ npmPublished (cycle inps w) = npmPublished w ++ [artifact].
Proof.
  intros Hfresh.
  enough (H : (mainFile (cycle inps w) = None
               /\ npmPublished (cycle inps w) = npmPublished w)
              \/ exists (st : State) (artifact : gmap string Z),
                   stateFile (cycle inps w) = Some st
                   /\ mainFile (cycle inps w) = Some artifact
                   /\ singlePackages st = [] /\ unscopedPackageBatches st = []
                   /\ mergeCounts (countsFiles (cycle inps w)) (countsFilesSoFar st)
                      = Some artifact
                   /\ ((published st = false
                        /\ npmPublished (cycle inps w) = npmPublished w)
                       \/ (published st = true
                           /\ npmPublished (cycle inps w)
                              = npmPublished w ++ [artifact]))).
  { destruct H as [[_ H]|(st & a & Hst & _ & Hs & Hb & Hm & [[_ H]|[_ H]])];
      [left; exact H | left; exact H | right; exists st, a; auto]. }
  apply (cycle_invariant
           (fun w' =>
              (mainFile w' = None /\ npmPublished w' = npmPublished w)
              \/ exists (st : State) (artifact : gmap string Z),
                   stateFile w' = Some st /\ mainFile w' = Some artifact
                   /\ singlePackages st = [] /\ unscopedPackageBatches st = []
                   /\ mergeCounts (countsFiles w') (countsFilesSoFar st) = Some artifact
                   /\ ((published st = false /\ npmPublished w' = npmPublished w)
                       \/ (published st = true
                           /\ npmPublished w' = npmPublished w ++ [artifact]))));
    [|left; auto].
  clear inps. intros inp w' [[Hmain H]|(st & a & Hst & Hmain & Hs & Hb & Hm & Hp)];
    destruct (invocation_cases inp w')
      as [[Hn ->]|[->|[(st' & a' & Hst' & Hpub' & Hmain' & ->)
          |[(st' & merged & Hst' & Hpub' & Hmain' & Hs' & Hb' & Hm' & ->)
           |(st' & p & Hst' & Hpub' & Hmain' & _ & _ & _ & _ & ->)]]]];
    cbn [npmPublished stateFile mainFile countsFiles]; try congruence;
    try (left; auto; fail).
  - right. exists st', merged. rewrite Hst'. auto 10.
  - right. exists st, a. auto 10.
  - rewrite Hst in Hst'. injection Hst' as <-.
    rewrite Hmain in Hmain'. injection Hmain' as <-.
    right. exists (setPublished true st), a.
    destruct Hp as [[_ Hnpm]|[Hpub _]]; [|congruence].
    rewrite Hnpm. destruct st; cbn in *. auto 10.
Qed.

Lemma published_file_is_the_merge_of_the_counts_files_witness :
  exists artifact : gmap string Z,
    mergeCounts twoShards 2 = Some artifact
    /\ npmPublished (cycle [firstInvocation; firstInvocation] readyToMerge) = [artifact].
Proof.
  destruct (published_file_is_the_merge_of_the_counts_files
              [firstInvocation; firstInvocation] readyToMerge eq_refl)
    as [H|(st & a & Hst & _ & _ & Hm & Hnpm)].
  - vm_compute in H. discriminate.
  - injection Hst as <-. exists a. split; [exact Hm | exact Hnpm].
Defined.

(** ** The counts files and the state along a cycle *)

Lemma startPool_kept (now : Z) (st : State) :
  status403Packages (state (mem (startPool now st))) = status403Packages st
  /\ countsFilesSoFar (state (mem (startPool now st))) = countsFilesSoFar st.
Proof.
  unfold startPool.
  pose proof (startThreads_names "" MAX_SIMULTANEOUS_REQUESTS (initialMem st))
    as (_ & H2 & H3 & _).
  destruct (startThreads MAX_SIMULTANEOUS_REQUESTS (initialMem st)) as [m ts].
  auto.
Qed.

Lemma run_start_kept (now : Z) (st : State) (es : list Event) :
  countsFilesSoFar (state (mem (fst (run es (startPool now st))))) = countsFilesSoFar st
  /\ exists more : list string,
       status403Packages (state (mem (fst (run es (startPool now st)))))
       = status403Packages st ++ more.
Proof.
  destruct (run_kept es (startPool now st)) as (Hn & more & Hmore).
  destruct (startPool_kept now st) as [Hb Hc].
  split; [congruence|]. exists more. congruence.
Qed.

(** X14. A counts file, once written, is never written again. On a branch
    whose counts files are those that the state counts, a file that exists
    is there unchanged after any invocations. *)
Theorem counts_files_are_written_once
        (inps : list Input) (w : World) (i : nat) (c : gmap string Z) :
  shardsConsistent w -> countsFiles w !! i = Some c ->
  countsFiles (cycle inps w) !! i = Some c.
Proof.
  intros Hw Hi.
  enough (H : shardsConsistent (cycle inps w) /\ countsFiles (cycle inps w) !! i = Some c)
    by exact (proj2 H).
  apply (cycle_invariant
           (fun w' => shardsConsistent w' /\ countsFiles w' !! i = Some c));
    [|auto].
  clear inps w Hw Hi. intros inp w [Hw Hi].
  split; [apply shardsConsistent_invocation, Hw|].
  destruct (invocation_cases inp w)
    as [[Hn ->]|[->|[(st & a & _ & _ & _ & ->)
        |[(st & merged & _ & _ & _ & _ & _ & _ & ->)
         |(st & p & Hst & _ & _ & _ & -> & _ & _ & ->)]]]];
    cbn [countsFiles]; try exact Hi.
  destruct (run_start_kept (startTime inp) st (events inp)) as [Hn _].
  rewrite Hn. unfold shardsConsistent in Hw. rewrite Hst in Hw.
  assert (Hlt : (i < countsFilesSoFar st)%nat) by (apply Hw; eauto).
  rewrite lookup_insert_ne by lia. exact Hi.
Qed.

Lemma counts_files_are_written_once_witness :
  countsFiles (cycle [firstInvocation; secondInvocation] readyToMerge) !! 1%nat
  = Some {["b" := 3]}.
Proof.
  apply (counts_files_are_written_once
           [firstInvocation; secondInvocation] readyToMerge 1 {["b" := 3]}).
  - exact twoShards_files.
  - unfold readyToMerge, twoShards. cbn [countsFiles]. apply lookup_insert_eq.
Defined.

Lemma invocation_advances (inp : Input) (w : World) (st : State) :
  stateFile w = Some st ->
  exists st' : State,
    stateFile (world (buildAndRelease inp w)) = Some st'
    /\ (countsFilesSoFar st <= countsFilesSoFar st')%nat
    /\ (exists more : list string,
          status403Packages st' = status403Packages st ++ more)
    /\ (published st = true -> published st' = true)
    /\ (forall x : string, x ∈ pendingIds st' -> x ∈ pendingIds st).
Proof.
  intros Hst.
  assert (Hsame : exists st' : State,
             Some st = Some st'
             /\ (countsFilesSoFar st <= countsFilesSoFar st')%nat
             /\ (exists more : list string,
                   status403Packages st' = status403Packages st ++ more)
             /\ (published st = true -> published st' = true)
             /\ (forall x : string, x ∈ pendingIds st' -> x ∈ pendingIds st)).
  { exists st. split; [reflexivity|]. split; [lia|].
    split; [exists []; rewrite app_nil_r; reflexivity | auto]. }
  destruct (invocation_cases inp w)
    as [[Hn _]|[->|[(st' & a & Hst' & _ & _ & ->)
        |[(st' & merged & Hst' & _ & _ & _ & _ & _ & ->)
         |(st' & p & Hst' & Hpub & _ & _ & -> & Hex & _ & ->)]]]];
    cbn [stateFile]; try congruence;
    try (rewrite Hst; exact Hsame).
  - rewrite Hst in Hst'. injection Hst' as <-.
    exists (setPublished true st). split; [reflexivity|].
    destruct st; cbn. split; [lia|].
    split; [exists []; rewrite app_nil_r; reflexivity | auto].
  - rewrite Hst in Hst'. injection Hst' as <-.
    eexists. split; [reflexivity|].
    destruct (run_start_kept (startTime inp) st (events inp)) as (Hn & more & Hmore).
    pose proof (run_published (events inp) (startPool (startTime inp) st)) as Hp.
    rewrite startPool_published in Hp.
    pose proof (fun x => final_pending (startTime inp) st (events inp) x Hex) as Hq.
    destruct (state (mem (fst (run (events inp) (startPool (startTime inp) st)))))
      as [n singles batches blocked pub].
    cbn in *. split; [lia|]. split; [exists more; exact Hmore|].
    split; [congruence | exact Hq].
Qed.

(** X15. The state file only advances along a release cycle: the number of
    counts files never goes down, the list of blocked packages is only
    added to at its end, a publication once recorded stays recorded, and no
    name is queued that was not queued before. *)
Theorem state_file_only_advances (inps : list Input) (w : World) (st : State) :
  stateFile w = Some st ->
  exists st' : State,
    stateFile (cycle inps w) = Some st'
    /\ (countsFilesSoFar st <= countsFilesSoFar st')%nat
    /\ (exists more : list string,
          status403Packages st' = status403Packages st ++ more)
    /\ (published st = true -> published st' = true)
    /\ (forall x : string, x ∈ pendingIds st' -> x ∈ pendingIds st).
Proof.
  revert w st. induction inps as [|inp rest IH]; intros w st Hst; cbn [cycle].
  - exists st. split; [exact Hst|]. split; [lia|].
    split; [exists []; rewrite app_nil_r; reflexivity | auto].
  - destruct (invocation_advances inp w st Hst)
      as (st1 & Hst1 & Hn1 & (more1 & Hb1) & Hp1 & Hq1).
    destruct (IH _ st1 Hst1) as (st2 & Hst2 & Hn2 & (more2 & Hb2) & Hp2 & Hq2).
    exists st2. split; [exact Hst2|]. split; [lia|].
    split; [exists (more1 ++ more2); rewrite Hb2, Hb1, app_assoc; reflexivity|].
    split; auto.
Qed.

Lemma state_file_only_advances_witness :
  exists st' : State,
    stateFile (cycle [secondInvocation] (oneSingleLeft "@a/b")) = Some st'
    /\ (0 <= countsFilesSoFar st')%nat
    /\ (forall x : string, x ∈ pendingIds st' -> x ∈ ["@a/b"]).
Proof.
  destruct (state_file_only_advances
              [secondInvocation] (oneSingleLeft "@a/b")
              (mkState 0 ["@a/b"] [] [] false) eq_refl)
    as (st' & Hst & Hn & _ & _ & Hq).
  exists st'. split; [exact Hst|]. split; [exact Hn | exact Hq].
Defined.

(** ** A list of names of which none can be queried *)

Lemma nothing_addressable (names : list string) :
  Forall (fun name => Init.addressable name = false) names ->
  Init.initialState names = mkState 0 [] [] [] false.
Proof.
  intros Hall. unfold Init.initialState.
  assert (Hf : filter (fun n => Init.addressable n = true) names = []).
  { induction Hall as [|x l Hx _ IH]; [reflexivity|].
    rewrite filter_cons_False by congruence. exact IH. }
  rewrite Hf. reflexivity.
Qed.

(** X16. When no name of the list passes the filter of the initialisation
    (the empty list for one), the cycle on a fresh branch never gets to a
    release: the initialisation leaves both queues empty, and every later
    invocation takes the merge phase, finds no [counts0.json], and ends with
    the exception, leaving the branch as the initialisation left it. *)
Theorem cycle_without_addressable_names_is_stuck
        (inp0 : Input) (inps : list Input) (inp : Input) (w : World) :
  stateFile w = None -> mainFile w = None -> countsFiles w = ∅ ->
  Forall (fun name => Init.addressable name = false) (names inp0) ->
  let w1 := world (buildAndRelease inp0 w) in
  cycle (inp0 :: inps) w = w1
  /\ buildAndRelease inp w1 = mkResult w1 Uncaught [MergePhase].
Proof.
  intros Hst Hmain Hcounts Hall w1.
  assert (Hw1 : w1 = mkWorld (Some (mkState 0 [] [] [] false)) None ∅ (npmPublished w)).
  { subst w1. rewrite (buildAndRelease_init inp0 w Hst). cbn [world].
    rewrite (nothing_addressable _ Hall), Hmain, Hcounts. reflexivity. }
  assert (Hstuck : forall inp' : Input,
             buildAndRelease inp' w1 = mkResult w1 Uncaught [MergePhase]).
  { intros inp'. rewrite Hw1.
    rewrite (buildAndRelease_merge inp' _ (mkState 0 [] [] [] false));
      reflexivity. }
  split; [|apply Hstuck]. cbn [cycle]. fold w1.
  induction inps as [|inp1 rest IH]; cbn [cycle]; [reflexivity|].
  rewrite Hstuck. cbn [world]. exact IH.
Qed.

Lemma cycle_without_addressable_names_is_stuck_witness :
  let inp0 := mkInput ["@a/.."; "."] 0 [] in
  cycle [inp0; inp0; inp0] emptyBranch
  = mkWorld (Some (mkState 0 [] [] [] false)) None ∅ [].
Proof.
  intros inp0.
  refine (proj1 (cycle_without_addressable_names_is_stuck
                   inp0 [inp0; inp0] inp0 emptyBranch eq_refl eq_refl eq_refl _)).
  repeat constructor.
Defined.

(** ** The rate of the whole pool *)

Lemma spaced_lower (gap : Z) (l : list Z) : forall a : Z,
  0 <= gap -> spaced gap (a :: l) -> Forall (fun x => a + gap <= x) l.
Proof.
  induction l as [|b l IH]; intros a Hgap Hsp; [apply Forall_nil_2|].
  destruct Hsp as [Hab Hrest]. apply Forall_cons_2; [exact Hab|].
  specialize (IH b Hgap Hrest).
  eapply Forall_impl; [exact IH|]. cbn. intros x Hx. lia.
Qed.

Lemma spaced_window (t gap : Z) (times : list Z) :
  0 <= gap -> spaced gap times ->
  (length (List.filter (within t gap) times) <= 1)%nat.
Proof.
  intros Hgap. induction times as [|a l IH]; intros Hsp; [cbn; lia|].
  pose proof (spaced_lower gap l a Hgap Hsp) as Hlow.
  assert (Hl : spaced gap l) by (destruct Hsp as [_ H]; exact H).
  cbn [List.filter]. destruct (within t gap a) eqn:Ha; [|apply IH, Hl].
  assert (Hnone : List.filter (within t gap) l = []).
  { clear - Hlow Ha. unfold within in Ha.
    apply andb_prop in Ha as [H1 H2]. apply Z.leb_le in H1. apply Z.ltb_lt in H2.
    induction Hlow as [|x l Hx _ IH]; [reflexivity|].
    cbn [List.filter]. unfold within at 1.
    destruct (Z.ltb_spec x (t + gap)) as [Hlt|_]; [lia|].
    rewrite andb_false_r. exact IH. }
  rewrite Hnone. cbn. lia.
Qed.

Lemma filter_thread (t gap : Z) (i : nat) (calls : list Call) :
  length (List.filter (fun c => within t gap (timeOf c) && Nat.eqb i (threadOf c)) calls)
  = length (List.filter (within t gap) (startsOf i calls)).
Proof.
  induction calls as [|[j time w] rest IH]; [reflexivity|].
  cbn [List.filter startsOf timeOf threadOf].
  destruct (Nat.eqb i j); cbn [List.filter];
    destruct (within t gap time); cbn [andb length]; rewrite ?IH; reflexivity.
Qed.

Lemma filter_below (t gap : Z) (n : nat) (calls : list Call) :
  length (List.filter (fun c => within t gap (timeOf c) && (threadOf c <? S n)%nat) calls)
  = (length (List.filter (fun c => within t gap (timeOf c) && (threadOf c <? n)%nat)
                         calls)
     + length (List.filter (fun c => within t gap (timeOf c) && Nat.eqb n (threadOf c))
                           calls))%nat.
Proof.
  induction calls as [|[j time w] rest IH]; [reflexivity|].
  cbn [List.filter timeOf threadOf].
  destruct (within t gap time); cbn [andb]; [|exact IH].
  destruct (Nat.ltb_spec j (S n)) as [H1|H1], (Nat.ltb_spec j n) as [H2|H2],
           (Nat.eqb_spec n j) as [H3|H3]; try lia; cbn [length]; rewrite IH; lia.
Qed.

Lemma window_below (t gap : Z) (calls : list Call) (n : nat) :
  (forall i : nat, (length (List.filter (within t gap) (startsOf i calls)) <= 1)%nat) ->
  (length (List.filter (fun c => within t gap (timeOf c) && (threadOf c <? n)%nat) calls)
   <= n)%nat.
Proof.
  intros Hone. induction n as [|n IH].
  - assert (H : List.filter
                  (fun c => within t gap (timeOf c) && (threadOf c <? 0)%nat) calls
                = []).
    { clear Hone. induction calls as [|c rest IHc]; [reflexivity|].
      cbn [List.filter]. rewrite andb_false_r. exact IHc. }
    rewrite H. cbn. lia.
  - rewrite filter_below, filter_thread. specialize (Hone n). lia.
Qed.

Lemma step_threads_length (e : Event) (p : Pool) :
  length (threads (fst (step e p))) = length (threads p).
Proof.
  unfold step. destruct (exitCode (mem p)); [reflexivity|].
  destruct e as [dt|i|i r]; cbn [fst].
  - destruct (0 <=? dt); reflexivity.
  - unfold resume. destruct (threads p !! i) as [t|]; [|reflexivity].
    destruct (pc t); try reflexivity.
    + destruct (timerDue _ _); [|reflexivity]. destruct (gate _ _ _ _ _).
      cbn [fst threads]. apply length_insert.
    + destruct (_ <=? _); [|reflexivity]. destruct (gate _ _ _ _ _).
      cbn [fst threads]. apply length_insert.
  - unfold respond. destruct (threads p !! i) as [t|]; [|reflexivity].
    destruct (pc t); try reflexivity.
    destruct (isRateLimited r); [apply length_insert|]. cbn zeta.
    destruct (exitCode _); [reflexivity|]. destruct (nextWork _).
    cbn [threads]. apply length_insert.
Qed.

Lemma run_threads_length (es : list Event) : forall p : Pool,
  length (threads (fst (run es p))) = length (threads p).
Proof.
  induction es as [|e es IH]; intros p; [reflexivity|].
  rewrite run_cons, IH. apply step_threads_length.
Qed.

Lemma fetch_thread_below (es : list Event) (p : Pool) (c : Call) :
  c ∈ snd (run es p) -> (threadOf c < length (threads p))%nat.
Proof.
  intros Hin. destruct c as [i time w].
  destruct (run_call_origin es p _ Hin) as (es1 & es2 & e & -> & Hcall).
  destruct (step_fetch_work _ _ _ _ _ Hcall) as (t & Ht & _).
  apply lookup_lt_Some in Ht. rewrite run_threads_length in Ht. exact Ht.
Qed.

(** X17. The rate of the whole pool. Within any span of
    [MIN_REQUEST_INTERVAL_MS] the pool started on a state makes at most
    [MAX_SIMULTANEOUS_REQUESTS] calls of [fetch], retries after a 429
    included: one for each thread. *)
Theorem pool_makes_at_most_one_request_per_thread_and_interval
        (now : Z) (st : State) (es : list Event) (t : Z) :
  (length (startedWithin t MIN_REQUEST_INTERVAL_MS (snd (run es (startPool now st))))
   <= MAX_SIMULTANEOUS_REQUESTS)%nat.
Proof.
  unfold startedWithin.
  set (calls := snd (run es (startPool now st))).
  assert (Hext : List.filter (fun c => within t MIN_REQUEST_INTERVAL_MS (timeOf c)) calls
                 = List.filter
                     (fun c => within t MIN_REQUEST_INTERVAL_MS (timeOf c)
                               && (threadOf c <? MAX_SIMULTANEOUS_REQUESTS)%nat)
                     calls).
  { apply List.filter_ext_in. intros c Hc. apply list_elem_of_In in Hc.
    pose proof (fetch_thread_below es (startPool now st) c Hc) as Hlt.
    destruct (startPool_budget now st) as (_ & Hlen & _). rewrite Hlen in Hlt.
    apply Nat.ltb_lt in Hlt. rewrite Hlt, andb_true_r. reflexivity. }
  rewrite Hext. apply window_below. intros i.
  apply spaced_window; [unfold MIN_REQUEST_INTERVAL_MS; lia|].
  exact (proj1 (threadSpaced_run i es (startPool now st) []
                                 (threadSpaced_start i now st))).
Qed.

(** ** Requests and answers *)

Lemma count_insert (f : Thread -> bool) (ts : list Thread) :
  forall (j : nat) (t t' : Thread),
    ts !! j = Some t ->
    (length (List.filter f (<[j := t']> ts)) + (if f t then 1 else 0)
     = length (List.filter f ts) + (if f t' then 1 else 0))%nat.
Proof.
  induction ts as [|a ts IH]; intros j t t' Hj; [discriminate|].
  destruct j as [|j]; cbn [lookup list_lookup] in Hj;
    cbn [insert list_insert List.filter].
  - injection Hj as ->. destruct (f t), (f t'); cbn [length]; lia.
  - specialize (IH j t t' Hj). destruct (f a); cbn [length Nat.add];
      [f_equal|]; exact IH.
Qed.

Lemma inFlight_le_active (ts : list Thread) :
  (length (List.filter inFlight ts) <= length (List.filter active ts))%nat.
Proof.
  induction ts as [|t ts IH]; [cbn; lia|].
  cbn [List.filter]. unfold inFlight at 1, active at 1.
  destruct (pc t); cbn [length]; lia.
Qed.

Lemma resume_requests (j : nat) (p : Pool) :
  (length (snd (resume j p)) + nInFlight p)%nat = nInFlight (fst (resume j p)).
Proof.
  unfold resume. destruct (threads p !! j) as [t|] eqn:Ht; [|reflexivity].
  assert (Hgo : forall w : Work,
             inFlight t = false ->
             (length (snd (gate j (clock p) w t (mem p))) + nInFlight p)%nat
             = nInFlight (mkPool (mem p) (clock p)
                                 (<[j := fst (gate j (clock p) w t (mem p))]>
                                    (threads p)))).
  { intros w Hf. unfold nInFlight. cbn [threads].
    pose proof (count_insert inFlight (threads p) j t
                             (fst (gate j (clock p) w t (mem p))) Ht) as H.
    rewrite Hf in H. unfold gate in *. destruct (_ >? _); cbn [fst snd length] in *.
    - change (inFlight _) with false in H. simpl in H. lia.
    - change (inFlight _) with true in H. simpl in H. lia. }
  destruct (pc t) as [|w|w wake|w] eqn:Hpc; try reflexivity.
  - destruct (timerDue _ _); [|reflexivity].
    specialize (Hgo w). unfold inFlight in Hgo at 1. rewrite Hpc in Hgo.
    specialize (Hgo eq_refl). destruct (gate _ _ _ _ _). exact Hgo.
  - destruct (_ <=? _); [|reflexivity].
    specialize (Hgo w). unfold inFlight in Hgo at 1. rewrite Hpc in Hgo.
    specialize (Hgo eq_refl). destruct (gate _ _ _ _ _). exact Hgo.
Qed.

(** One event: a call of [fetch] puts a request in flight, an answer takes
    one out; the thread whose answer ends the process is left as it was. *)
Lemma step_requests (e : Event) (p : Pool) :
  Z.of_nat (length (snd (step e p))) + Z.of_nat (nInFlight p)
  + exited (mem (fst (step e p))) - exited (mem p)
  = Z.of_nat (answerHandled e p) + Z.of_nat (rateLimitDelivered e p)
    + Z.of_nat (nInFlight (fst (step e p))).
Proof.
  unfold answerHandled, rateLimitDelivered.
  destruct (delivered e p) as [[w r]|] eqn:Hd.
  - destruct (delivered_Some _ _ _ _ Hd) as (j & t & -> & Hex & Ht & Hpc).
    assert (Hf : inFlight t = true) by (unfold inFlight; rewrite Hpc; reflexivity).
    pose proof (step_delivered j r p t w Hex Ht Hpc) as Hstep.
    rewrite Hstep. rewrite step_Respond by exact Hex. cbn [snd length].
    unfold nInFlight, exited. rewrite Hex.
    destruct (isRateLimited r) as [resp|].
    + cbn [threads mem onRateLimited exitCode]. rewrite Hex.
      pose proof (count_insert inFlight (threads p) j t
                               (mkThread (AwaitThrottle w) (throttlingWait t)) Ht) as H.
      rewrite Hf in H. change (inFlight _) with false in H. simpl in H. lia.
    + cbn zeta. destruct (exitCode (handle w r (mem p))) eqn:Hex1.
      * cbn [threads mem]. rewrite Hex1. lia.
      * cbn [threads mem].
        pose proof (nextWork_names
                      "" (setQueriesRemaining (queriesRemaining (handle w r (mem p)) - 1)
                                              (handle w r (mem p))))
          as (_ & _ & _ & _ & _ & _ & _ & _ & Hex2).
        rewrite Hex2. cbn [setQueriesRemaining exitCode]. rewrite Hex1.
        pose proof (count_insert
                      inFlight (threads p) j t
                      (mkThread (pcOfNext
                                   (snd (nextWork
                                           (setQueriesRemaining
                                              (queriesRemaining (handle w r (mem p)) - 1)
                                              (handle w r (mem p))))))
                                (throttlingWait t)) Ht) as H.
        rewrite Hf in H.
        destruct (snd (nextWork _)); change (inFlight _) with false in H;
          simpl in H; cbn [pcOfNext]; lia.
  - pose proof (proj1 (step_not_delivered e p Hd)) as Hm. rewrite Hm.
    unfold step, delivered in *.
    destruct (exitCode (mem p)); [cbn; lia|].
    destruct e as [dt|j|j r].
    + cbn [fst snd length]. destruct (0 <=? dt); unfold nInFlight; cbn [threads]; lia.
    + pose proof (resume_requests j p). lia.
    + cbn [fst snd length]. unfold respond.
      destruct (threads p !! j) as [t|]; [|lia].
      destruct (pc t); try lia. discriminate.
Qed.

Lemma run_requests (es : list Event) : forall p : Pool,
  Z.of_nat (length (snd (run es p))) + Z.of_nat (nInFlight p)
  + exited (mem (fst (run es p))) - exited (mem p)
  = Z.of_nat (answersHandled es p) + Z.of_nat (rateLimitsSeen es p)
    + Z.of_nat (nInFlight (fst (run es p))).
Proof.
  induction es as [|e es IH]; intros p; [cbn; lia|].
  pose proof (step_requests e p) as Hs. specialize (IH (fst (step e p))).
  cbn [run answersHandled rateLimitsSeen] in *.
  destruct (step e p) as [p1 c1]. cbn [fst snd] in *.
  revert IH. destruct (run es p1) as [p2 c2]. cbn [fst snd]. intros IH.
  rewrite length_app. lia.
Qed.

(** The answers handled so far and those that can still be handled. *)
Lemma run_potential (es : list Event) : forall p : Pool,
  Z.of_nat (answersHandled es p)
  + Z.max (queriesRemaining (mem (fst (run es p)))) 0
  + Z.of_nat (nActive (fst (run es p)))
  <= Z.max (queriesRemaining (mem p)) 0 + Z.of_nat (nActive p)
     + exited (mem (fst (run es p))) - exited (mem p).
Proof.
  induction es as [|e es IH]; intros p; [cbn; lia|].
  rewrite run_cons. cbn [answersHandled]. specialize (IH (fst (step e p))).
  pose proof (step_budget e p) as Hs. unfold answerHandled.
  assert (Hx : forall m : Mem, exitCode m = None -> exited m = 0)
    by (intros m Hm; unfold exited; rewrite Hm; reflexivity).
  destruct (delivered e p) as [[w r]|].
  - destruct Hs as (Ha & Hex & Hs). rewrite (Hx _ Hex). destruct (isRateLimited r).
    + destruct Hs as (Hq & Hn & Hex'). rewrite (Hx _ Hex'), Hq, Hn in IH. lia.
    + destruct Hs as [(Hex' & Hq & Hn)|(Hex' & Hq & [[Hq0 Hn]|[Hn _]])].
      * rewrite run_exited in * by exact Hex'. cbn [fst] in *.
        rewrite (answersHandled_exited es _ Hex') in *.
        assert (Hx1 : exited (mem (fst (step e p))) = 1)
          by (unfold exited; destruct (exitCode (mem (fst (step e p))));
              [reflexivity | congruence]).
        lia.
      * rewrite (Hx _ Hex') in IH. lia.
      * rewrite (Hx _ Hex') in IH. lia.
  - destruct Hs as [Hm Hn]. rewrite Hm, Hn in IH. lia.
Qed.

Lemma startThreads_waiting (n : nat) : forall m : Mem,
  List.filter inFlight (snd (startThreads n m)) = [].
Proof.
  induction n as [|n IH]; intros m; cbn [startThreads]; [reflexivity|].
  unfold startFetcherThread. destruct (nextWork m) as [m1 next].
  specialize (IH m1). destruct (startThreads n m1) as [m2 ts]. cbn [snd] in *.
  cbn [List.filter]. destruct next; exact IH.
Qed.

Lemma startPool_waiting (now : Z) (st : State) : nInFlight (startPool now st) = 0%nat.
Proof.
  unfold startPool, nInFlight.
  pose proof (startThreads_waiting MAX_SIMULTANEOUS_REQUESTS (initialMem st)) as H.
  destruct (startThreads MAX_SIMULTANEOUS_REQUESTS (initialMem st)) as [m ts].
  cbn [snd threads] in *. rewrite H. reflexivity.
Qed.

(** X18. The requests of one run. Every call of [fetch] of the pool started
    on a state has been answered, to a handler or with a 429, or is still
    in flight; and there are at most [QUERIES_PER_RUN +
    MAX_SIMULTANEOUS_REQUESTS] calls besides those answered with a 429. *)
Theorem requests_are_bounded_by_the_budget_and_the_rate_limits
        (now : Z) (st : State) (es : list Event) :
  let p0 := startPool now st in
  let p := fst (run es p0) in
  Z.of_nat (length (snd (run es p0))) + exited (mem p)
  = Z.of_nat (answersHandled es p0) + Z.of_nat (rateLimitsSeen es p0)
    + Z.of_nat (nInFlight p)
  /\ Z.of_nat (length (snd (run es p0)))
     <= QUERIES_PER_RUN + Z.of_nat MAX_SIMULTANEOUS_REQUESTS
        + Z.of_nat (rateLimitsSeen es p0).
Proof.
  intros p0 p. subst p.
  pose proof (run_requests es p0) as Hr.
  pose proof (run_potential es p0) as Hp.
  destruct (startPool_budget now st) as (Hq & _ & Hn & Hex). fold p0 in Hq, Hn, Hex.
  pose proof (startPool_waiting now st) as Hw. fold p0 in Hw.
  assert (H0 : exited (mem p0) = 0) by (unfold exited; rewrite Hex; reflexivity).
  pose proof (inFlight_le_active (threads (fst (run es p0)))) as Hle.
  fold (nInFlight (fst (run es p0))) in Hle. fold (nActive (fst (run es p0))) in Hle.
  rewrite Hq, H0 in Hp. rewrite Hw, H0 in Hr. unfold QUERIES_PER_RUN in *.
  split; lia.
Qed.

(** ** The order of the phases *)

Lemma dispatch_with_state (w : World) (st : State) :
  stateFile w = Some st -> (1 <= phaseRank (dispatch w))%nat.
Proof.
  intros Hst. unfold dispatch. rewrite Hst.
  destruct (published st); [cbn; lia|].
  destruct (existsSync (mainFile w)); [cbn; lia|].
  destruct (unscopedPackageBatches st), (singlePackages st); cbn; lia.
Qed.

Lemma invocation_rank (inp : Input) (w : World) :
  (phaseRank (dispatch w) <= phaseRank (dispatch (world (buildAndRelease inp w))))%nat
  /\ dispatch (world (buildAndRelease inp w)) <> InitPhase.
Proof.
  destruct (dispatch_cases w)
    as [Hn|[(st & Hst & Hpub)|[(st & a & Hst & Hpub & Hmain)
        |[(st & Hst & Hpub & Hmain & Hd)|(st & Hst & Hpub & Hmain & Hd)]]]].
  - rewrite (buildAndRelease_init inp w Hn). cbn [world].
    pose proof (dispatch_with_state
                  (mkWorld (Some (Init.initialState (names inp))) (mainFile w)
                           (countsFiles w) (npmPublished w)) _ eq_refl) as H.
    unfold dispatch at 1. rewrite Hn. cbn [phaseRank].
    split; [lia|]. intros E. rewrite E in H. cbn in H. lia.
  - rewrite (buildAndRelease_noop inp w st Hst Hpub). cbn [world].
    split; [lia|]. unfold dispatch. rewrite Hst, Hpub. discriminate.
  - rewrite (buildAndRelease_publish inp w st a Hst Hpub Hmain). cbn [world].
    unfold dispatch. cbn [stateFile]. rewrite Hst, Hpub, Hmain.
    destruct st; cbn. split; [lia | discriminate].
  - destruct (dispatch_merge w Hd) as (st' & Hst' & _ & _ & Hs & Hb).
    rewrite Hst in Hst'. injection Hst' as <-.
    rewrite (buildAndRelease_merge inp w st Hst Hpub Hmain Hs Hb).
    destruct (mergeCounts (countsFiles w) (countsFilesSoFar st)) as [merged|];
      cbn [world].
    + rewrite Hd. unfold dispatch. cbn [stateFile mainFile]. rewrite Hst, Hpub.
      cbn. split; [lia | discriminate].
    + rewrite Hd. split; [lia | discriminate].
  - rewrite (buildAndRelease_fetch inp w st Hst Hd). cbn zeta. rewrite Hd.
    destruct (exitCode _); cbn [world]; [rewrite Hd; split; [lia | discriminate]|].
    destruct (allFinished _); cbn [world]; [|rewrite Hd; split; [lia | discriminate]].
    match goal with
    | |- context [dispatch ?w'] =>
        pose proof (dispatch_with_state w' _ eq_refl) as H
    end.
    split; [exact H|]. intros E. rewrite E in H. cbn in H. lia.
Qed.

(** X19. A release cycle goes through the phases in one direction:
    initialisation, fetching, merging, publishing, nothing left to do. The
    phase that the next invocation takes never comes before the phase of
    this one, and the initialisation is never taken a second time. *)
Theorem phases_never_go_back (inp : Input) (inps : list Input) (w : World) :
  (phaseRank (dispatch w) <= phaseRank (dispatch (cycle inps w)))%nat
  /\ dispatch (cycle (inp :: inps) w) <> InitPhase.
Proof.
  split.
  - revert w. induction inps as [|inp1 rest IH]; intros w; cbn [cycle]; [lia|].
    specialize (IH (world (buildAndRelease inp1 w))).
    pose proof (proj1 (invocation_rank inp1 w)). lia.
  - cbn [cycle]. pose proof (proj2 (invocation_rank inp w)) as H0.
    generalize dependent (world (buildAndRelease inp w)). clear w.
    induction inps as [|inp1 rest IH]; intros w H0; cbn [cycle]; [exact H0|].
    apply IH. apply (invocation_rank inp1 w).
Qed.
